(** * update_readme.py: the size formatter and the badge substituter

    A shallow embedding of [src/update_readme.py] and the properties of
    its three parts: [format_size], [update_badge] and the entry flow.

    A Python [str] is a [list ascii]: one [ascii] is one character of the
    string, so the development covers texts whose characters have a code
    point below 256.  A Python [int] is a [Z].  The float that [/]
    produces is an IEEE binary64 value, kept as an exact dyadic number. *)

From Stdlib Require Import ZArith List Ascii String Bool Lia Arith.
Import ListNotations.

Local Open Scope Z_scope.

(** ** Text *)

Definition str := list ascii.

(** A string literal of the source. *)
Definition txt (s : string) : str := list_ascii_of_string s.

Definition newline : ascii := "010"%char.

(** ** Outcomes

    A call either returns or raises; the exceptions are those the
    program can meet. *)

Inductive exn : Type :=
| ValueError
| OverflowError
| FileNotFoundError.

Inductive result (A : Type) : Type :=
| Ok (a : A)
| Raise (e : exn).

Arguments Ok {A} a.
Arguments Raise {A} e.

Definition bind {A B : Type} (r : result A) (k : A -> result B) : result B :=
  match r with
  | Ok a => k a
  | Raise e => Raise e
  end.

Notation "x <- r ;; k" := (bind r (fun x => k))
  (at level 61, r at next level, right associativity).

(** ** [str.rstrip(chars)] with a single character *)

Module PyStr.

(** [rstrip c s]: [s] without its trailing run of [c]. *)
Fixpoint rstrip (c : ascii) (s : str) : str :=
  match s with
  | [] => []
  | x :: s' =>
      match rstrip c s' with
      | [] => if Ascii.eqb x c then [] else [x]
      | r => x :: r
      end
  end.

(** [s.startswith(p)] *)
Fixpoint startswith (p s : str) : bool :=
  match p, s with
  | [], _ => true
  | _ :: _, [] => false
  | a :: p', b :: s' => Ascii.eqb a b && startswith p' s'
  end.

End PyStr.

(** ** [int(x)] *)

Module PyInt.

(** The argument of [int]: an [int] already, or a [str]. *)
Inductive arg : Type :=
| OfInt (n : Z)
| OfStr (s : str).

(** The characters [int] skips on both sides of the literal: the ASCII
    white space of the C locale, and in the rest of Latin-1 the two
    Unicode spaces U+0085 and U+00A0. *)
Definition is_space (c : ascii) : bool :=
  let n := N_of_ascii c in
  ((9 <=? n) && (n <=? 13) || (n =? 32) || (n =? 133) || (n =? 160))%N.

Definition digit_value (c : ascii) : option Z :=
  let n := Z.of_N (N_of_ascii c) in
  if (48 <=? n) && (n <=? 57) then Some (n - 48) else None.

Definition is_digit (c : ascii) : bool :=
  match digit_value c with Some _ => true | None => false end.

Definition underscore : ascii := "_"%char.

(** sys.get_int_max_str_digits(), at its default. *)
Definition max_str_digits : nat := 4300.

Fixpoint lstrip_space (s : str) : str :=
  match s with
  | c :: s' => if is_space c then lstrip_space s' else s
  | [] => []
  end.

(** The digits of a literal, read left to right: [acc] is the value
    read so far, [count] the digits read so far and [prev_us] tells
    whether the character before was an underscore.  The result is the
    value, the number of digits and what follows the literal; [None]
    when two underscores meet or one ends the literal. *)
Fixpoint digits (s : str) (acc : Z) (count : nat) (prev_us : bool)
  : option (Z * nat * str) :=
  match s with
  | [] => if prev_us then None else Some (acc, count, [])
  | c :: s' =>
      match digit_value c with
      | Some d => digits s' (10 * acc + d) (S count) false
      | None =>
          if Ascii.eqb c underscore then
            if prev_us then None else digits s' acc count true
          else if prev_us then None else Some (acc, count, s)
      end
  end.

Definition sign_of (s : str) : bool * str :=
  match s with
  | c :: s' =>
      if Ascii.eqb c "-"%char then (true, s')
      else if Ascii.eqb c "+"%char then (false, s')
      else (false, s)
  | [] => (false, [])
  end.

(** [int(s)] in base 10 for a [str]. *)
Definition of_str (s : str) : result Z :=
  let '(neg, body) := sign_of (lstrip_space s) in
  match body with
  | [] => Raise ValueError
  | c :: _ =>
      if Ascii.eqb c underscore then Raise ValueError
      else
        match digits body 0 0%nat false with
        | None => Raise ValueError
        | Some (v, count, rest) =>
            match count, lstrip_space rest with
            | O, _ => Raise ValueError
            | _, _ :: _ => Raise ValueError
            | _, [] =>
                if (max_str_digits <? count)%nat then Raise ValueError
                else Ok (if neg then - v else v)
            end
        end
  end.

Definition int (x : arg) : result Z :=
  match x with
  | OfInt n => Ok n
  | OfStr s => of_str s
  end.

End PyInt.


(** ** [int / int] and the ['.2f'] format

    [a / b] on two [int]s is the binary64 number nearest to the exact
    quotient, ties to the even significand, and [OverflowError] when
    that number is not finite.  A finite binary64 is kept exactly, as
    sign, integer significand and binary exponent. *)

Module PyFloat.

Record float : Type := mk {
  neg : bool;      (* the sign bit *)
  mant : Z;        (* the integer significand, 0 <= mant <= 2^53 *)
  expo : Z         (* the value is mant * 2^expo *)
}.

(** The integer nearest to [num / den], ties to even ([den] > 0). *)
Definition round_half_even (num den : Z) : Z :=
  let q := num / den in
  let r := num mod den in
  if 2 * r <? den then q
  else if den <? 2 * r then q + 1
  else if Z.even q then q else q + 1.

(** [n / d] counted in units of [2^e], as a fraction: its numerator
    and its denominator. *)
Definition scaled_num (n e : Z) : Z := if 0 <=? e then n else n * 2 ^ (- e).

Definition scaled_den (d e : Z) : Z := if 0 <=? e then d * 2 ^ e else d.

(** The exponent that leaves [n / d] 53 significant bits: with it
    the quotient, counted in units of [2^e], is at least [2^52] and
    less than [2^53]. *)
Definition normal_exponent (n d : Z) : Z :=
  let e0 := Z.log2 n - Z.log2 d - 53 in
  if scaled_num n e0 / scaled_den d e0 <? 2 ^ 53 then e0 else e0 + 1.

(** The exponent of the unit in the last place of [n / d]: never
    below that of the subnormal numbers. *)
Definition ulp_exponent (n d : Z) : Z := Z.max (normal_exponent n d) (-1074).

(** [a / b] for [int]s [a] and [b], the divisor positive as both
    divisors of the source are. *)
Definition truediv (a : Z) (b : positive) : result float :=
  if a =? 0 then Ok (mk false 0 (-1074))
  else
    let n := Z.abs a in
    let d := Z.pos b in
    let e := ulp_exponent n d in
    let m := round_half_even (scaled_num n e) (scaled_den d e) in
    if 1024 <=? Z.log2 m + e then Raise OverflowError
    else Ok (mk (a <? 0) m e).

(** The magnitude of [x] in hundredths, rounded to the nearest
    integer with ties to even: the digits that ['.2f'] prints. *)
Definition hundredths (x : float) : Z :=
  if 0 <=? expo x then 100 * mant x * 2 ^ expo x
  else round_half_even (100 * mant x) (2 ^ (- expo x)).

(** The character of the digit [d]. *)
Definition digit_char (d : Z) : ascii := ascii_of_N (Z.to_N (48 + d)).

(** The digits of [n] put before [acc], the last one first; [fuel]
    bounds their number. *)
Fixpoint decimal_loop (fuel : nat) (n : Z) (acc : str) : str :=
  match fuel with
  | O => acc
  | S fuel' =>
      let acc' := digit_char (n mod 10) :: acc in
      if n <? 10 then acc' else decimal_loop fuel' (n / 10) acc'
  end.

(** The decimal digits of a natural number [n], without leading
    zeros ("0" for zero). *)
Definition decimal (n : Z) : str :=
  decimal_loop (S (Z.to_nat (Z.log2 n))) n [].

(** The text of [h] hundredths with exactly two decimals. *)
Definition fixed2 (sign : bool) (h : Z) : str :=
  (if sign then ["-"%char] else [])
    ++ decimal (h / 100)
    ++ "."%char :: digit_char (h mod 100 / 10) :: digit_char (h mod 10) :: [].

(** [f"{x:.2f}"] *)
Definition format_2f (x : float) : str := fixed2 (neg x) (hundredths x).

End PyFloat.

(** ** The source: [format_size] *)

Definition format_size (size_in_bytes : PyInt.arg) : result str :=
  size_in_bytes <- PyInt.int size_in_bytes ;;
  if size_in_bytes <? 1000 * 1000 then
    size_in_kb <- PyFloat.truediv size_in_bytes 1000 ;;
    Ok (PyStr.rstrip "."%char (PyStr.rstrip "0"%char (PyFloat.format_2f size_in_kb))
          ++ txt " KB")
  else
    size_in_mb <- PyFloat.truediv size_in_bytes (1000 * 1000) ;;
    Ok (PyStr.rstrip "."%char (PyStr.rstrip "0"%char (PyFloat.format_2f size_in_mb))
          ++ txt " MB").

(** ** [re.sub] for the pattern of the source

    The pattern of [update_badge] has three groups: the text of the
    URL with the badge name put in it, the lazy [.*?], and a literal.
    In the first group an ordinary character matches itself, a dot,
    without DOTALL, matches every character but the newline, and a
    star makes the character or dot before it match any number of
    times, as many as it can.  The other operators of a pattern are
    not read: the embedding covers the badge names that have none. *)

Module Re.

Inductive atom : Type :=
| Lit (c : ascii)
| AnyChar.

(** [(head)(.*?)(tail)], for a first group without star: a run of
    atoms. *)
Record pattern : Type := mkpat {
  head : list atom;
  tail : str
}.

(** The characters with a meaning of their own in a pattern, the dot
    apart. *)
Definition operators : str := txt "^$*+?{}[]\|()".

Definition is_operator (c : ascii) : bool := existsb (Ascii.eqb c) operators.

(** A text is [plain] when the pattern made of it is read character
    by character: it has none of the operators. *)
Definition plain (s : str) : bool := forallb (fun c => negb (is_operator c)) s.

(** A text is [starred] when its only operators are stars, none of
    them next to another: the badge names that the embedding covers. *)
Fixpoint starred (s : str) : bool :=
  match s with
  | [] => true
  | c :: s' =>
      (Ascii.eqb c "*"%char || negb (is_operator c))
      && negb (Ascii.eqb c "*"%char && PyStr.startswith ["*"%char] s')
      && starred s'
  end.

Definition atom_of_char (c : ascii) : atom :=
  if Ascii.eqb c "."%char then AnyChar else Lit c.

Definition atom_matches (a : atom) (c : ascii) : bool :=
  match a with
  | Lit x => Ascii.eqb x c
  | AnyChar => negb (Ascii.eqb c newline)
  end.

(** A first group without star at the head of [s]: the text it takes
    and what follows. *)
Fixpoint match_atoms (p : list atom) (s : str) : option (str * str) :=
  match p, s with
  | [], _ => Some ([], s)
  | _ :: _, [] => None
  | a :: p', c :: s' =>
      if atom_matches a c then
        match match_atoms p' s' with
        | Some (g, rest) => Some (c :: g, rest)
        | None => None
        end
      else None
  end.

(** [(.*?)] and then the literal [lit] at the head of [s]: the lazy
    group takes the fewest characters, none of them a newline, after
    which [lit] is found. *)
Fixpoint lazy_until (lit s : str) {struct s} : option (str * str) :=
  if PyStr.startswith lit s then Some ([], skipn (List.length lit) s)
  else
    match s with
    | [] => None
    | c :: s' =>
        if Ascii.eqb c newline then None
        else
          match lazy_until lit s' with
          | Some (g, rest) => Some (c :: g, rest)
          | None => None
          end
    end.

(** A match object: its three groups. *)
Record groups : Type := mkgroups {
  group1 : str;
  group2 : str;
  group3 : str
}.

(** The match of the pattern that starts at the head of [s], and the
    text after it. *)
Definition match_here (p : pattern) (s : str) : option (groups * str) :=
  match match_atoms (head p) s with
  | None => None
  | Some (g1, s1) =>
      match lazy_until (tail p) s1 with
      | None => None
      | Some (g2, rest) => Some (mkgroups g1 g2 (tail p), rest)
      end
  end.

(** One pass from left to right: where the pattern matches, the match
    is replaced by [repl] of it and the pass goes on after the match;
    elsewhere the character is kept. *)
Fixpoint sub_loop (fuel : nat) (p : pattern) (repl : groups -> str) (s : str)
  : str :=
  match fuel with
  | O => s
  | S fuel' =>
      match match_here p s with
      | Some (m, rest) => repl m ++ sub_loop fuel' p repl rest
      | None =>
          match s with
          | [] => []
          | c :: s' => c :: sub_loop fuel' p repl s'
          end
      end
  end.

(** [re.sub(p, repl, s)] with a function for [repl], for a pattern
    without star. *)
Definition sub (p : pattern) (repl : groups -> str) (s : str) : str :=
  sub_loop (S (List.length s)) p repl s.

(** *** With stars

    One place of the first group: an atom, or an atom under a star. *)
Inductive item : Type :=
| One (a : atom)
| Many (a : atom).

(** The first group as its text is read: a character or a dot is an
    atom, and a star after it puts it under that star. *)
Fixpoint items_of (s : str) : list item :=
  match s with
  | [] => []
  | c :: s' =>
      match s' with
      | [] => [One (atom_of_char c)]
      | d :: s'' =>
          if Ascii.eqb d "*"%char then Many (atom_of_char c) :: items_of s''
          else One (atom_of_char c) :: items_of s'
      end
  end.

(** The three groups at the head of [s], found as a backtracking
    matcher finds them: an atom under a star takes as many characters
    as it can and gives them back one by one for as long as what
    follows it in the pattern, the lazy group and the literal [lit]
    included, does not match.  The result is the text of the first
    group, that of the lazy group and what follows the literal. *)
Fixpoint match_items (p : list item) (lit : str) (s : str) {struct p}
  : option (str * (str * str)) :=
  match p with
  | [] =>
      match lazy_until lit s with
      | Some (g2, rest) => Some ([], (g2, rest))
      | None => None
      end
  | One a :: p' =>
      match s with
      | [] => None
      | c :: s' =>
          if atom_matches a c then
            match match_items p' lit s' with
            | Some (g1, r) => Some (c :: g1, r)
            | None => None
            end
          else None
      end
  | Many a :: p' =>
      (fix star (s : str) : option (str * (str * str)) :=
         match s with
         | [] => match_items p' lit s
         | c :: s' =>
             if atom_matches a c then
               match star s' with
               | Some (g1, r) => Some (c :: g1, r)
               | None => match_items p' lit s
               end
             else match_items p' lit s
         end) s
  end.

(** The match that starts at the head of [s], and the text after it. *)
Definition match_here_items (p : list item) (lit : str) (s : str)
  : option (groups * str) :=
  match match_items p lit s with
  | Some (g1, (g2, rest)) => Some (mkgroups g1 g2 lit, rest)
  | None => None
  end.

(** One pass from left to right, as [sub_loop]. *)
Fixpoint sub_items_loop (fuel : nat) (p : list item) (lit : str)
    (repl : groups -> str) (s : str) : str :=
  match fuel with
  | O => s
  | S fuel' =>
      match match_here_items p lit s with
      | Some (m, rest) => repl m ++ sub_items_loop fuel' p lit repl rest
      | None =>
          match s with
          | [] => []
          | c :: s' => c :: sub_items_loop fuel' p lit repl s'
          end
      end
  end.

(** [re.sub] for the pattern [(p)(.*?)(lit)], with a function for
    [repl]. *)
Definition sub_items (p : list item) (lit : str) (repl : groups -> str) (s : str)
  : str :=
  sub_items_loop (S (List.length s)) p lit repl s.

End Re.

(** ** The source: [update_badge] *)

(** The first group of
    fr"(https://img.shields.io/badge/{badge_name}-)(.*?)(-blue)" *)
Definition badge_items (badge_name : str) : list Re.item :=
  Re.items_of (txt "https://img.shields.io/badge/" ++ badge_name ++ txt "-").

Definition update_badge (content badge_name : str) (size_in_bytes : PyInt.arg)
  : result str :=
  formatted_size <- format_size size_in_bytes ;;
  Ok (Re.sub_items (badge_items badge_name) (txt "-blue")
        (fun m => Re.group1 m ++ formatted_size ++ Re.group3 m)
        content).

(** The pattern of a badge name without star: its first group is a
    run of atoms, one for each character. *)
Definition badge_pattern (badge_name : str) : Re.pattern :=
  Re.mkpat
    (map Re.atom_of_char (txt "https://img.shields.io/badge/" ++ badge_name ++ txt "-"))
    (txt "-blue").

(** ** The source: the entry flow

    The world of one run is the argument vector and the file README.md.
    The file is opened in text mode both times, so what is read has its
    line ends translated to the newline, and what is written has each
    newline translated to the line separator of the platform.  The
    worlds of the embedding are those in which README.md is missing,
    or is there, can be opened and decoded as text and can be written:
    a file that cannot be read, decoded or written is not among
    them. *)

Module Main.

Definition cr : ascii := "013"%char.

(** [file.read()] of a file opened with mode "r": every "\r\n" and
    every other "\r" of the file becomes "\n". *)
Fixpoint read_text (s : str) : str :=
  match s with
  | [] => []
  | c :: s' =>
      if Ascii.eqb c cr then
        match s' with
        | c' :: s'' =>
            if Ascii.eqb c' newline then newline :: read_text s''
            else newline :: read_text s'
        | [] => [newline]
        end
      else c :: read_text s'
  end.

(** [file.write(s)] of a file opened with mode "w": every "\n"
    becomes [linesep]. *)
Fixpoint write_text (linesep s : str) : str :=
  match s with
  | [] => []
  | c :: s' =>
      if Ascii.eqb c newline then linesep ++ write_text linesep s'
      else c :: write_text linesep s'
  end.

Record world : Type := mkworld {
  argv : list str;        (* sys.argv, the script name first *)
  readme : option str;    (* the text stored in README.md, a file that can be
                             read as text and written; None when it is missing *)
  linesep : str           (* os.linesep *)
}.

(** How the process ends: [sys.exit(code)], the end of the script
    (status 0), or an exception nobody catches (status 1). *)
Inductive ending : Type :=
| Exit (code : Z)
| Uncaught (e : exn).

Definition exit_status (e : ending) : Z :=
  match e with
  | Exit code => code
  | Uncaught _ => 1
  end.

Record outcome : Type := mkoutcome {
  stdout : str;
  final : ending;
  readme_after : option str
}.

Definition usage : str :=
  txt "Usage: python update_readme.py <server binary size> <wasm file size>".

(** The two calls of [update_badge], on the text read. *)
Definition substitute (content arg1 arg2 : str) : result str :=
  content <- update_badge content (txt "binary_size") (PyInt.OfStr arg1) ;;
  update_badge content (txt "wasm_size") (PyInt.OfStr arg2).

Definition main (w : world) : outcome :=
  if negb (List.length (argv w) =? 3)%nat then
    mkoutcome (usage ++ [newline]) (Exit 1) (readme w)
  else
    match readme w with
    | None => mkoutcome [] (Uncaught FileNotFoundError) (readme w)
    | Some stored =>
        let content := read_text stored in
        match substitute content (nth 1 (argv w) []) (nth 2 (argv w) []) with
        | Raise e => mkoutcome [] (Uncaught e) (readme w)
        | Ok content =>
            mkoutcome [] (Exit 0) (Some (write_text (linesep w) content))
        end
    end.

End Main.

(** * Specifications

    The vocabulary in which the properties are stated: what a marker
    is, what one pass does, what the nearest float and the nearest
    hundredth are, and what it means for a document to be kept but for
    its size fields. *)

Module Spec.

Import Re PyFloat Main.

(** ** Of the matcher *)

(** [g] is a text the first group can take. *)
Definition head_text (p : list atom) (g : str) : Prop :=
  Forall2 (fun a c => atom_matches a c = true) p g.

(** [lit] is met first at the end of [g]: at no earlier place of
    [g ++ lit ++ rest]. *)
Definition first_at (lit g rest : str) : Prop :=
  forall k, (k < List.length g)%nat ->
            PyStr.startswith lit (skipn k (g ++ lit ++ rest)) = false.

(** A marker at the head of [s]: a text of the first group, a middle
    field without newline, and the literal. *)
Definition marker_at (p : pattern) (s : str) : Prop :=
  exists g1 g2 rest,
    s = g1 ++ g2 ++ tail p ++ rest /\ head_text (head p) g1 /\ ~ In newline g2.

(** The replacement of [update_badge]: the two ends of the match
    around the formatted size [f]. *)
Definition rewrite_with (f : str) (m : groups) : str :=
  group1 m ++ f ++ group3 m.

(** One pass from left to right that writes [f] in the middle field
    of every marker it meets: a character at which no marker starts is
    kept; a marker, taken with its shortest middle field, keeps its two
    ends and the pass goes on after it. *)
Inductive pass (p : pattern) (f : str) : str -> str -> Prop :=
| pass_end : pass p f [] []
| pass_keep c s out :
    ~ marker_at p (c :: s) -> pass p f s out -> pass p f (c :: s) (c :: out)
| pass_rewrite g1 g2 rest out :
    head_text (head p) g1 -> ~ In newline g2 -> first_at (tail p) g2 rest ->
    pass p f rest out ->
    pass p f (g1 ++ g2 ++ tail p ++ rest) (g1 ++ f ++ tail p ++ out).

(** A marker somewhere in [s]. *)
Definition occurs (p : pattern) (s : str) : Prop :=
  exists pre t, s = pre ++ t /\ marker_at p t.

(** The same, decided by trying every place of [s]. *)
Fixpoint occursb (p : pattern) (s : str) : bool :=
  match match_here p s with
  | Some _ => true
  | None =>
      match s with
      | [] => false
      | _ :: s' => occursb p s'
      end
  end.

(** [lit] somewhere in [s]. *)
Definition contains (lit s : str) : Prop := exists x y, s = x ++ lit ++ y.

(** The same, decided by trying every place of [s]. *)
Fixpoint containsb (lit s : str) : bool :=
  PyStr.startswith lit s
  || match s with
     | [] => false
     | _ :: s' => containsb lit s'
     end.

(** From the head of [x], the literal is reached before any newline. *)
Definition reach (lit x : str) : Prop :=
  exists g rest, x = g ++ lit ++ rest /\ ~ In newline g.

(** ** Of formatted sizes *)

(** The characters a formatted size is made of. *)
Definition size_char (c : ascii) : bool :=
  existsb (Ascii.eqb c) (txt "0123456789.- KMB").

(** A text made of such characters only. *)
Definition size_text (s : str) : Prop := Forall (fun c => size_char c = true) s.

(** [m] is the integer nearest to [num / den], and the even one of
    the two when [num / den] is half way between them. *)
Definition nearest_even (num den m : Z) : Prop :=
  2 * Z.abs (m * den - num) <= den
  /\ (2 * Z.abs (m * den - num) = den -> Z.even m = true).

(** The least quotient that rounds to a number beyond the largest
    binary64: half a unit in the last place below [2^1024]. *)
Definition float_limit : Z := 2 ^ 1024 - 2 ^ 970.

(** A finite binary64 magnitude: a significand of at most 53 bits and
    an exponent between that of the smallest and that of the largest
    unit in the last place. *)
Definition binary64 (x : float) : Prop :=
  0 <= mant x < 2 ^ 53 /\ -1074 <= expo x <= 971.

(** The magnitude of [x] counted in the smallest unit, [2^-1074]. *)
Definition units (x : float) : Z := mant x * 2 ^ (expo x + 1074).

(** How far the magnitude of [x] is from [n / d], counted in the unit
    [2^-1074 / d]. *)
Definition distance (n d : Z) (x : float) : Z :=
  Z.abs (units x * d - n * 2 ^ 1074).

(** [x] is the binary64 number nearest to [n / d], ties to the even
    significand: it is written with 53 significant bits (the carry
    [2^53] of a rounding up included) or in the smallest unit, its
    magnitude is that of a binary64 number, no binary64 number is
    nearer to the quotient, and its significand is even when another
    one is as near.  Two floats that are so have the same magnitude
    ([binary64_nearest_unique] below). *)
Definition binary64_nearest (n d : Z) (x : float) : Prop :=
  (0 <= mant x <= 2 ^ 53 /\ -1074 <= expo x /\ (2 ^ 52 <= mant x \/ expo x = -1074))
  /\ (exists y, binary64 y /\ units y = units x)
  /\ (forall y, binary64 y -> distance n d x <= distance n d y)
  /\ (forall y, binary64 y -> units y <> units x ->
                distance n d y = distance n d x -> Z.even (mant x) = true).

(** [str(n)]: the decimal text of an [int]. *)
Definition int_text (n : Z) : str :=
  (if n <? 0 then ["-"%char] else []) ++ decimal (Z.abs n).

(** The value of a run of digits read after the value [v]. *)
Definition read_digits (ds : str) (v : Z) : Z :=
  fold_left (fun a c => 10 * a + match PyInt.digit_value c with
                                 | Some d => d
                                 | None => 0
                                 end) ds v.

(** A text made of decimal digits only. *)
Definition all_digits (ds : str) : Prop :=
  Forall (fun c => PyInt.is_digit c = true) ds.

(** ** Of the two passes *)

(** The pattern of the first call of [update_badge] in the program. *)
Definition binary : pattern := badge_pattern (txt "binary_size").

(** The pattern of the second call. *)
Definition wasm : pattern := badge_pattern (txt "wasm_size").

(** The literal that ends both. *)
Definition blue : str := txt "-blue".

(** What is known of a character: that an atom matches it, or that it
    is a character of a formatted size. *)
Inductive class : Type :=
| OfAtom (a : atom)
| OfSize.

(** The character [c] is as [k] tells. *)
Definition in_class (k : class) (c : ascii) : bool :=
  match k with
  | OfAtom a => atom_matches a c
  | OfSize => size_char c
  end.

(** Whether some character can be both matched by [a] and in [k];
    [true] when in doubt. *)
Definition compatible (a : atom) (k : class) : bool :=
  match a, k with
  | Lit x, OfAtom (Lit y) => Ascii.eqb x y
  | Lit x, OfSize => size_char x
  | _, _ => true
  end.

(** Whether a text that starts as [ks] tells can be matched by [p];
    [true] when in doubt. *)
Fixpoint may_match (p : list atom) (ks : list class) : bool :=
  match p, ks with
  | a :: p', k :: ks' => compatible a k && may_match p' ks'
  | _, _ => true
  end.

(** The text [t] starts as [ks] tells. *)
Fixpoint starts_as (ks : list class) (t : str) : Prop :=
  match ks, t with
  | [], _ => True
  | _ :: _, [] => False
  | k :: ks', c :: t' => in_class k c = true /\ starts_as ks' t'
  end.

(** A document with a Windows line end, on a platform whose line
    separator is the newline. *)
Definition crlf_world : world :=
  mkworld [txt "update_readme.py"; txt "1000"; txt "2000"]
    (Some (txt "sizes" ++ [cr; newline] ++ txt "ok"))
    [newline].

(** A document and, for first argument, the text of [10^315]. *)
Definition large_world : world :=
  mkworld [txt "update_readme.py"; txt "1" ++ repeat "0"%char 315; txt "1000"]
    (Some (txt "https://img.shields.io/badge/binary_size-1 KB-blue"))
    [newline].

(** ** Of the printed number *)

(** The two decimals of [h] hundredths once the zeros that end them,
    and the point if both are zeros, are taken off: nothing, one digit
    or two. *)
Definition decimals (h : Z) : str :=
  if h mod 100 =? 0 then []
  else if h mod 10 =? 0 then ["."%char; digit_char (h mod 100 / 10)]
  else ["."%char; digit_char (h mod 100 / 10); digit_char (h mod 10)].

(** The number that [format_size] prints for [h] hundredths: a minus
    sign when [sign] is set, the whole part, the decimals that are
    left. *)
Definition stripped (sign : bool) (h : Z) : str :=
  (if sign then ["-"%char] else []) ++ decimal (h / 100) ++ decimals h.

(** A run of the white space that [int] skips. *)
Definition spaces (ws : str) : Prop := Forall (fun c => PyInt.is_space c = true) ws.

(** ** Of one marker, and of two patterns *)


(** What is known of a marker of [p] rewritten by a pass: its first
    group and, after it, a character of the size. *)
Definition rewritten_classes (p : pattern) : list class :=
  map OfAtom (head p) ++ [OfSize].

(** The pattern [q] keeps off the rewritten markers of [p]: no end
    of the first group of [q] can lie over the head of such a marker,
    neither the first group of [q] nor the literal "-blue" can start
    inside the first group of one, and both first groups start with
    the letter h. *)
Definition apart (p q : pattern) : bool :=
  forallb (fun j => negb (may_match (skipn j (head q)) (rewritten_classes p)))
    (seq 0 (List.length (head q)))
  && forallb (fun k => negb (may_match (head q) (skipn k (rewritten_classes p))))
       (seq 0 (List.length (head p)))
  && forallb (fun k => negb (may_match (map Lit blue) (skipn k (rewritten_classes p))))
       (seq 0 (List.length (head p)))
  && match head p, head q with
     | Lit x :: _, Lit y :: _ => Ascii.eqb x "h" && Ascii.eqb y "h"
     | _, _ => false
     end.

End Spec.

(** * Properties *)

(** ** Lists of characters *)

Section Lists.

Lemma eqb_newline_false (c : ascii) : c <> newline -> Ascii.eqb c newline = false.
Proof. intros H. now apply Ascii.eqb_neq. Qed.

Lemma startswith_app (p s : str) : PyStr.startswith p (p ++ s) = true.
Proof.
  induction p as [|a p IH]; simpl; [reflexivity|].
  now rewrite Ascii.eqb_refl, IH.
Qed.

Lemma startswith_spec (p s : str) :
  PyStr.startswith p s = true <-> exists r, s = p ++ r.
Proof.
  split.
  - revert s; induction p as [|a p IH]; intros s H; simpl in *.
    + now exists s.
    + destruct s as [|b s]; [discriminate|].
      apply andb_true_iff in H as [Hab H].
      apply Ascii.eqb_eq in Hab; subst b.
      destruct (IH _ H) as [r ->]. now exists r.
  - intros [r ->]. apply startswith_app.
Qed.

Lemma skipn_length_app (p s : str) : skipn (List.length p) (p ++ s) = s.
Proof. induction p; simpl; auto. Qed.

Lemma app_same_length (a a' b b' : str) :
  List.length a = List.length a' -> a ++ b = a' ++ b' -> a = a' /\ b = b'.
Proof.
  revert a'. induction a as [|x a IH]; intros [|x' a'] Hl H; simpl in *;
    try discriminate; auto.
  injection H as -> H. injection Hl as Hl.
  destruct (IH _ Hl H) as [-> ->]. auto.
Qed.

End Lists.

(** ** The matcher against its specification *)

Module ReFacts.

Import Spec Re.

Lemma match_atoms_sound p : forall s g rest,
  match_atoms p s = Some (g, rest) -> s = g ++ rest /\ head_text p g.
Proof.
  induction p as [|a p IH]; intros s g rest H; simpl in H.
  - injection H as <- <-. split; [reflexivity | constructor].
  - destruct s as [|c s]; [discriminate|].
    destruct (atom_matches a c) eqn:Ha; [|discriminate].
    destruct (match_atoms p s) as [[g' r']|] eqn:Hm; [|discriminate].
    injection H as <- <-.
    destruct (IH _ _ _ Hm) as [-> Hg].
    split; [reflexivity | now constructor].
Qed.

Lemma match_atoms_complete p : forall g rest,
  head_text p g -> match_atoms p (g ++ rest) = Some (g, rest).
Proof.
  induction p as [|a p IH]; intros g rest H; inversion H; subst; simpl.
  - reflexivity.
  - now rewrite H2, IH.
Qed.

Lemma head_text_length p g : head_text p g -> List.length g = List.length p.
Proof. intros H. symmetry. exact (Forall2_length H). Qed.

Lemma lazy_until_sound lit : forall s g rest,
  lazy_until lit s = Some (g, rest) ->
  s = g ++ lit ++ rest /\ ~ In newline g /\ first_at lit g rest.
Proof.
  induction s as [|c s IH]; intros g rest H.
  - simpl in H. destruct (PyStr.startswith lit []) eqn:Hs; [|discriminate].
    injection H as <- <-.
    apply startswith_spec in Hs as [r Hr].
    symmetry in Hr. apply app_eq_nil in Hr as [-> ->].
    repeat split; auto. intros k Hk; simpl in Hk; lia.
  - cbn [lazy_until] in H.
    destruct (PyStr.startswith lit (c :: s)) eqn:Hs.
    + injection H as <- <-.
      apply startswith_spec in Hs as [r Hr]. rewrite Hr.
      rewrite skipn_length_app.
      repeat split; auto. intros k Hk; simpl in Hk; lia.
    + destruct (Ascii.eqb c newline) eqn:Hc; [discriminate|].
      destruct (lazy_until lit s) as [[g' r']|] eqn:Hl; [|discriminate].
      injection H as <- <-.
      destruct (IH _ _ eq_refl) as (-> & Hnl & Hfirst).
      split; [reflexivity|]. split.
      * intros [Hin|Hin]; [|auto].
        subst c. now rewrite Ascii.eqb_refl in Hc.
      * intros [|k] Hk; simpl in *; [exact Hs|].
        apply Hfirst. lia.
Qed.


Lemma match_here_sound p s m rest :
  match_here p s = Some (m, rest) ->
  s = group1 m ++ group2 m ++ group3 m ++ rest
  /\ head_text (head p) (group1 m)
  /\ ~ In newline (group2 m)
  /\ first_at (tail p) (group2 m) rest
  /\ group3 m = tail p.
Proof.
  unfold match_here. intros H.
  destruct (match_atoms (head p) s) as [[g1 s1]|] eqn:H1; [|discriminate].
  destruct (lazy_until (tail p) s1) as [[g2 r]|] eqn:H2; [|discriminate].
  injection H as <- <-. simpl.
  apply match_atoms_sound in H1 as [-> Hg1].
  apply lazy_until_sound in H2 as (-> & Hnl & Hfirst).
  auto.
Qed.


Lemma lazy_until_total lit : forall g rest,
  ~ In newline g -> lazy_until lit (g ++ lit ++ rest) <> None.
Proof.
  induction g as [|c g IH]; intros rest Hnl.
  - simpl app. destruct (lit ++ rest) eqn:E; cbn [lazy_until];
      rewrite <- E, startswith_app; discriminate.
  - cbn [app lazy_until].
    destruct (PyStr.startswith lit (c :: g ++ lit ++ rest)); [discriminate|].
    rewrite eqb_newline_false by (intros ->; apply Hnl; now left).
    specialize (IH rest ltac:(intros Hin; apply Hnl; now right)).
    destruct (lazy_until lit (g ++ lit ++ rest)) as [[? ?]|]; congruence.
Qed.

Lemma match_here_iff p s : match_here p s <> None <-> marker_at p s.
Proof.
  split.
  - destruct (match_here p s) as [[m rest]|] eqn:H; [intros _ | congruence].
    apply match_here_sound in H as (Hs & H1 & H2 & _ & H3).
    exists (group1 m), (group2 m), rest. rewrite <- H3. auto.
  - intros (g1 & g2 & rest & -> & H1 & H2). unfold match_here.
    rewrite (match_atoms_complete _ _ _ H1).
    pose proof (lazy_until_total (tail p) g2 rest H2) as Hl.
    destruct (lazy_until (tail p) (g2 ++ tail p ++ rest)) as [[? ?]|]; congruence.
Qed.

Lemma match_here_shorter p s m rest :
  tail p <> [] -> match_here p s = Some (m, rest) ->
  (List.length rest < List.length s)%nat.
Proof.
  intros Ht H. apply match_here_sound in H as (-> & _ & _ & _ & ->).
  rewrite !length_app. destruct (tail p); [congruence | simpl; lia].
Qed.

Lemma sub_loop_enough p repl : tail p <> [] ->
  forall n s f1 f2,
    (List.length s < n)%nat -> (n <= f1)%nat -> (n <= f2)%nat ->
    sub_loop f1 p repl s = sub_loop f2 p repl s.
Proof.
  intros Ht. induction n as [|n IH]; intros s f1 f2 Hs H1 H2; [lia|].
  destruct f1 as [|f1]; [lia|]. destruct f2 as [|f2]; [lia|].
  simpl. destruct (match_here p s) as [[m rest]|] eqn:Hm.
  - f_equal. apply IH; try lia.
    pose proof (match_here_shorter _ _ _ _ Ht Hm). lia.
  - destruct s as [|c s]; [reflexivity|]. f_equal.
    apply IH; simpl in *; lia.
Qed.

(** The equation of the pass: the fuel of [sub] is enough. *)
Lemma sub_eq p repl s : tail p <> [] ->
  sub p repl s =
    match match_here p s with
    | Some (m, rest) => repl m ++ sub p repl rest
    | None =>
        match s with
        | [] => []
        | c :: s' => c :: sub p repl s'
        end
    end.
Proof.
  intros Ht. unfold sub at 1. cbn [sub_loop].
  destruct (match_here p s) as [[m rest]|] eqn:Hm.
  - f_equal. pose proof (match_here_shorter _ _ _ _ Ht Hm).
    apply (sub_loop_enough p repl Ht (S (List.length rest))); lia.
  - destruct s as [|c s]; reflexivity.
Qed.

Lemma sub_pass p f : tail p <> [] ->
  forall s, pass p f s (sub p (rewrite_with f) s).
Proof.
  intros Ht s.
  remember (List.length s) as n eqn:Hn. revert s Hn.
  induction n as [n IH] using lt_wf_ind. intros s ->.
  rewrite sub_eq by assumption.
  destruct (match_here p s) as [[m rest]|] eqn:Hm.
  - pose proof (match_here_shorter _ _ _ _ Ht Hm) as Hlt.
    apply match_here_sound in Hm as (-> & H1 & H2 & H3 & H4).
    unfold rewrite_with. rewrite H4, <- !app_assoc.
    apply pass_rewrite; auto. eapply IH; [exact Hlt | reflexivity].
  - destruct s as [|c s]; [constructor|].
    apply pass_keep.
    + intros Hmk. apply match_here_iff in Hmk. congruence.
    + eapply IH; [|reflexivity]. simpl; lia.
Qed.

Lemma first_at_unique lit g g' rest rest' :
  first_at lit g rest -> first_at lit g' rest' ->
  g ++ lit ++ rest = g' ++ lit ++ rest' -> g = g' /\ rest = rest'.
Proof.
  intros H H' E.
  assert (Hlen : List.length g = List.length g').
  { destruct (Nat.lt_trichotomy (List.length g) (List.length g')) as [Hlt|[Heq|Hlt]];
      [exfalso | exact Heq | exfalso].
    - specialize (H' _ Hlt). rewrite <- E, skipn_length_app in H'.
      now rewrite startswith_app in H'.
    - specialize (H _ Hlt). rewrite E, skipn_length_app in H.
      now rewrite startswith_app in H. }
  destruct (app_same_length _ _ _ _ Hlen E) as [-> E'].
  apply app_inv_head in E'. auto.
Qed.

Lemma pass_unique p f : tail p <> [] ->
  forall s out, pass p f s out -> forall out', pass p f s out' -> out = out'.
Proof.
  intros Ht s out H. induction H as [|c s out Hno H IH|g1 g2 rest out H1 H2 H3 H IH];
    intros out' H'.
  - inversion H' as [| |g1' g2' rest' o' H1' H2' H3' Hp' Es]; [reflexivity | exfalso].
    apply app_eq_nil in Es as [_ Es].
    apply app_eq_nil in Es as [_ Es]. apply app_eq_nil in Es as [Es _]. congruence.
  - inversion H' as [|c' s' o' Hno' Hp'|g1' g2' rest' o' H1' H2' H3' Hp' E]; subst.
    + f_equal. now apply IH.
    + exfalso. apply Hno. rewrite <- E. exists g1', g2', rest'. auto.
  - remember (g1 ++ g2 ++ tail p ++ rest) as s eqn:Es.
    destruct H' as [|c' s' o' Hno' Hp'|g1' g2' rest' o' H1' H2' H3' Hp'].
    + exfalso. symmetry in Es. apply app_eq_nil in Es as [_ Es].
      apply app_eq_nil in Es as [_ Es]. apply app_eq_nil in Es as [Es _]. congruence.
    + exfalso. apply Hno'. rewrite Es. exists g1, g2, rest. auto.
    + assert (Hl : List.length g1' = List.length g1)
        by (rewrite (head_text_length _ _ H1), (head_text_length _ _ H1'); reflexivity).
      destruct (app_same_length _ _ _ _ Hl Es) as [-> E2].
      destruct (first_at_unique _ _ _ _ _ H3' H3 E2) as [-> ->].
      do 3 f_equal. now apply IH.
Qed.

End ReFacts.

(** ** The badge substituter *)

Module BadgeFacts.

Import Spec Re ReFacts.

Lemma badge_tail name : tail (badge_pattern name) <> [].
Proof. discriminate. Qed.

Lemma occursb_spec p s : occursb p s = true <-> occurs p s.
Proof.
  split.
  - induction s as [|c s IH]; simpl; intros H.
    + destruct (match_here p []) eqn:Hm; [|discriminate].
      exists [], []. split; [reflexivity|]. apply match_here_iff. congruence.
    + destruct (match_here p (c :: s)) eqn:Hm.
      * exists [], (c :: s). split; [reflexivity|]. apply match_here_iff. congruence.
      * destruct (IH H) as (pre & t & -> & Ht). exists (c :: pre), t. auto.
  - intros (pre & t & -> & Ht). apply match_here_iff in Ht.
    induction pre as [|c pre IH]; simpl.
    + destruct t; simpl; destruct (match_here p _); congruence.
    + destruct (match_here p (c :: pre ++ t)); auto.
Qed.

Lemma occursb_false p s : occursb p s = false -> ~ occurs p s.
Proof. intros H Ho. apply occursb_spec in Ho. congruence. Qed.

Lemma sub_absent p repl : tail p <> [] ->
  forall s, ~ occurs p s -> sub p repl s = s.
Proof.
  intros Ht. induction s as [|c s IH]; intros Hno; rewrite sub_eq by assumption.
  - destruct (match_here p []) eqn:Hm; [|reflexivity].
    exfalso. apply Hno. exists [], []. split; [reflexivity|].
    apply match_here_iff. congruence.
  - destruct (match_here p (c :: s)) eqn:Hm.
    + exfalso. apply Hno. exists [], (c :: s). split; [reflexivity|].
      apply match_here_iff. congruence.
    + f_equal. apply IH. intros (pre & t & -> & Hmk).
      apply Hno. exists (c :: pre), t. auto.
Qed.

(** [update_badge] once the size is formatted. *)
(** *** Without star, no backtracking *)

Lemma items_of_plain s :
  ~ In "*"%char s -> items_of s = map One (map atom_of_char s).
Proof.
  induction s as [|c s IH]; intros Hs; [reflexivity|].
  cbn [items_of]. destruct s as [|d s']; [reflexivity|].
  destruct (Ascii.eqb d "*") eqn:E.
  - apply Ascii.eqb_eq in E. subst d. exfalso. apply Hs. right. now left.
  - rewrite IH by (intros H; apply Hs; now right). reflexivity.
Qed.

Lemma match_items_atoms lit : forall atoms s,
  match_items (map One atoms) lit s
  = match match_atoms atoms s with
    | Some (g1, s1) =>
        match lazy_until lit s1 with
        | Some (g2, rest) => Some (g1, (g2, rest))
        | None => None
        end
    | None => None
    end.
Proof.
  induction atoms as [|a atoms IH]; intros s.
  - cbn [map match_items match_atoms].
    destruct (lazy_until lit s) as [[g2 rest]|]; reflexivity.
  - cbn [map match_items match_atoms]. destruct s as [|c s]; [reflexivity|].
    destruct (atom_matches a c); [|reflexivity]. rewrite IH.
    destruct (match_atoms atoms s) as [[g1 s1]|]; [|reflexivity].
    destruct (lazy_until lit s1) as [[g2 rest]|]; reflexivity.
Qed.

Lemma match_here_items_atoms p s :
  match_here_items (map One (head p)) (tail p) s = match_here p s.
Proof.
  unfold match_here_items, match_here. rewrite match_items_atoms.
  destruct (match_atoms (head p) s) as [[g1 s1]|]; [|reflexivity].
  destruct (lazy_until (tail p) s1) as [[g2 rest]|]; reflexivity.
Qed.

Lemma sub_items_atoms p repl s :
  sub_items (map One (head p)) (tail p) repl s = sub p repl s.
Proof.
  unfold sub_items, sub. generalize (S (List.length s)) as fuel. intros fuel.
  revert s. induction fuel as [|fuel IH]; intros s; [reflexivity|].
  cbn [sub_items_loop sub_loop]. rewrite match_here_items_atoms.
  destruct (match_here p s) as [[m rest]|].
  - now rewrite IH.
  - destruct s as [|c s]; [reflexivity|]. now rewrite IH.
Qed.

Lemma plain_no_star s : plain s = true -> ~ In "*"%char s.
Proof.
  unfold plain. rewrite forallb_forall. intros H Hin.
  specialize (H _ Hin). discriminate.
Qed.

Lemma badge_items_plain name :
  plain name = true -> badge_items name = map One (head (badge_pattern name)).
Proof.
  intros Hp. unfold badge_items, badge_pattern. cbn [head].
  apply items_of_plain. rewrite !in_app_iff. intros [H|[H|H]].
  - revert H. vm_compute. intuition discriminate.
  - revert H. now apply plain_no_star.
  - revert H. vm_compute. intuition discriminate.
Qed.

(** For a plain badge name [update_badge] is the substitution for the
    pattern without star. *)
Lemma update_badge_plain content name size :
  plain name = true ->
  update_badge content name size
  = (f <- format_size size ;;
     Ok (sub (badge_pattern name) (rewrite_with f) content)).
Proof.
  intros Hp. unfold update_badge. rewrite (badge_items_plain _ Hp).
  destruct (format_size size) as [f|e]; [|reflexivity]. cbn [bind]. f_equal.
  apply (sub_items_atoms (badge_pattern name)).
Qed.

Lemma update_badge_formatted content name size f :
  plain name = true ->
  format_size size = Ok f ->
  update_badge content name size
  = Ok (sub (badge_pattern name) (rewrite_with f) content).
Proof. intros Hp H. rewrite (update_badge_plain _ _ _ Hp), H. reflexivity. Qed.

(** When a character of [t ++ z] is kept wherever the pass stands in
    [t], the pass keeps [t] and goes on with [z]. *)
Lemma sub_keeps p repl z : tail p <> [] ->
  forall t,
    (forall v u, t = v ++ u -> u <> [] -> match_here p (u ++ z) = None) ->
    sub p repl (t ++ z) = t ++ sub p repl z.
Proof.
  intros Ht. induction t as [|c t IH]; intros H; [reflexivity|].
  rewrite sub_eq by assumption.
  rewrite (H [] (c :: t) eq_refl) by discriminate.
  simpl. f_equal. apply IH. intros v u -> Hu.
  apply (H (c :: v) u); auto.
Qed.

Lemma prefix_before_newline : forall (x rest u b : str),
  x ++ rest = u ++ newline :: b -> ~ In newline x -> exists w, u = x ++ w.
Proof.
  induction x as [|c x IH]; intros rest u b E Hx.
  - now exists u.
  - destruct u as [|c' u]; simpl in E; injection E as -> E.
    + exfalso. apply Hx. now left.
    + destruct (IH _ _ _ E) as [w ->]; [|now exists w].
      intros Hin. apply Hx. now right.
Qed.

Lemma head_text_no_newline (chars : str) : ~ In newline chars ->
  forall g, head_text (map atom_of_char chars) g -> ~ In newline g.
Proof.
  induction chars as [|c chars IH]; intros Hc g Hg; inversion Hg; subst.
  - auto.
  - intros [Hin|Hin].
    + subst. unfold atom_of_char in *.
      destruct (Ascii.eqb c "."); simpl in *.
      * vm_compute in H1. discriminate.
      * apply Ascii.eqb_eq in H1. apply Hc. now left.
    + revert Hin. apply IH; auto. intros Hin. apply Hc. now right.
Qed.

Lemma badge_head_no_newline name g : ~ In newline name ->
  head_text (head (badge_pattern name)) g -> ~ In newline g.
Proof.
  intros Hn. apply head_text_no_newline.
  rewrite !in_app_iff. intros [H|[H|H]]; [|auto|].
  - revert H. vm_compute. intuition discriminate.
  - revert H. vm_compute. intuition discriminate.
Qed.

(** Inside a candidate whose middle field [a] has no "-blue", and up
    to the newline that ends [a], the pattern matches nowhere. *)
Lemma no_marker_before_newline name g1 a v u b :
  ~ In newline name ->
  head_text (head (badge_pattern name)) g1 ->
  ~ contains (txt "-blue") a ->
  g1 ++ a = v ++ u ->
  match_here (badge_pattern name) (u ++ newline :: b) = None.
Proof.
  intros Hname Hg1 Hblue E.
  destruct (match_here (badge_pattern name) (u ++ newline :: b))
    as [[m rest]|] eqn:Hm; [exfalso | reflexivity].
  apply match_here_sound in Hm as (Es & H1 & H2 & _ & H3).
  pose proof (badge_head_no_newline _ _ Hname H1) as Hn1.
  pose proof (head_text_length _ _ H1) as Hl1.
  pose proof (head_text_length _ _ Hg1) as Hl.
  rewrite H3 in Es. cbn [tail badge_pattern] in Es.
  rewrite !app_assoc in Es. symmetry in Es.
  apply prefix_before_newline in Es as [w Ew].
  - subst u. rewrite <- !app_assoc in E.
    rewrite (app_assoc v) in E.
    apply app_eq_app in E as [l [[E1 E2]|[E1 E2]]].
    + assert (l = []) as ->.
      { apply (f_equal (@List.length ascii)) in E1.
        rewrite !length_app in E1. destruct l; [reflexivity | simpl in E1; lia]. }
      apply Hblue. exists (group2 m), w. simpl in E2. now rewrite <- E2.
    + apply Hblue. exists (l ++ group2 m), w. rewrite E2, <- app_assoc. reflexivity.
  - rewrite !in_app_iff. intros [[H|H]|H]; auto.
    revert H. vm_compute. intuition discriminate.
Qed.

Lemma containsb_false lit s : containsb lit s = false -> ~ contains lit s.
Proof.
  intros H (x & y & ->). revert H.
  induction x as [|c x IH]; simpl.
  - destruct (lit ++ y) eqn:E; simpl; rewrite <- E, startswith_app; discriminate.
  - intros H. apply orb_false_iff in H as [_ H]. auto.
Qed.

End BadgeFacts.

Section BadgeClaims.

Import Spec Re ReFacts BadgeFacts.

(** C4.  A document in which the pattern of the badge name matches
    nowhere is returned as it is, and nothing is raised, whenever the
    size is one that [format_size] accepts. *)
Theorem update_badge_absent (content badge_name : str) (size : PyInt.arg) (f : str) :
  plain badge_name = true ->
  format_size size = Ok f ->
  ~ occurs (badge_pattern badge_name) content ->
  update_badge content badge_name size = Ok content.
Proof.
  intros Hp Hf Hno. rewrite (update_badge_formatted _ _ _ _ Hp Hf).
  f_equal. apply sub_absent; [apply badge_tail | exact Hno].
Qed.

Lemma update_badge_absent_witness :
  update_badge (txt "# home_flow: https://img.shields.io/badge/wasm_size-1 MB-blue")
    (txt "binary_size") (PyInt.OfStr (txt "1500"))
  = Ok (txt "# home_flow: https://img.shields.io/badge/wasm_size-1 MB-blue").
Proof.
  apply (update_badge_absent _ _ _ (txt "1.5 KB")).
  - reflexivity.
  - reflexivity.
  - apply occursb_false. reflexivity.
Defined.

(** C7.  The substitution is global: the result of [update_badge] is
    the result of the one pass from left to right that rewrites the
    middle field of every marker it meets with the same formatted
    size, and of no other transformation. *)
Theorem update_badge_rewrites_every_marker
    (content badge_name : str) (size : PyInt.arg) (f out : str) :
  plain badge_name = true ->
  format_size size = Ok f ->
  update_badge content badge_name size = Ok out
  <-> pass (badge_pattern badge_name) f content out.
Proof.
  intros Hplain Hf. rewrite (update_badge_formatted _ _ _ _ Hplain Hf).
  pose proof (sub_pass (badge_pattern badge_name) f (badge_tail _) content) as Hp.
  split.
  - intros H. injection H as <-. exact Hp.
  - intros H. f_equal.
    exact (pass_unique _ _ (badge_tail _) _ _ Hp _ H).
Qed.

Lemma update_badge_rewrites_every_marker_witness :
  pass (badge_pattern (txt "wasm_size")) (txt "2 MB")
    (txt "https://img.shields.io/badge/wasm_size-1-blue https://img.shields.io/badge/wasm_size-old-blue!")
    (txt "https://img.shields.io/badge/wasm_size-2 MB-blue https://img.shields.io/badge/wasm_size-2 MB-blue!").
Proof.
  apply (update_badge_rewrites_every_marker _ _ (PyInt.OfInt 2000000)).
  - reflexivity.
  - reflexivity.
  - reflexivity.
Defined.

(** C10.  A marker is matched on one line only: no group of a match
    holds a newline, and a candidate whose middle field reaches a
    newline before any "-blue" is kept as it is, the pass going on
    after that newline. *)
Theorem marker_on_one_line (badge_name : str) :
  plain badge_name = true ->
  ~ In newline badge_name ->
  (forall s m rest,
      match_here (badge_pattern badge_name) s = Some (m, rest) ->
      ~ In newline (group1 m ++ group2 m ++ group3 m))
  /\ (forall g1 a b size f,
         head_text (head (badge_pattern badge_name)) g1 ->
         ~ In newline a ->
         ~ contains (txt "-blue") a ->
         format_size size = Ok f ->
         update_badge (g1 ++ a ++ newline :: b) badge_name size
         = (out <- update_badge b badge_name size ;;
            Ok (g1 ++ a ++ newline :: out))).
Proof.
  intros Hp Hname. split.
  - intros s m rest Hm.
    apply match_here_sound in Hm as (_ & H1 & H2 & _ & H3).
    apply (badge_head_no_newline _ _ Hname) in H1.
    rewrite !in_app_iff, H3. intros [H|[H|H]]; auto.
    revert H. vm_compute. intuition discriminate.
  - intros g1 a b size f Hg1 Ha Hblue Hf.
    rewrite !(update_badge_formatted _ _ _ _ Hp Hf). cbn [bind]. f_equal.
    change (g1 ++ a ++ newline :: b) with (g1 ++ a ++ [newline] ++ b).
    change (g1 ++ a ++ newline :: ?x) with (g1 ++ a ++ [newline] ++ x).
    rewrite !(app_assoc g1), !(app_assoc (g1 ++ a)).
    apply sub_keeps; [apply badge_tail|].
    intros v u E Hu.
    destruct (exists_last Hu) as (u' & x & ->).
    rewrite app_assoc in E. apply app_inj_tail in E as [E <-].
    rewrite <- app_assoc. simpl.
    now apply (no_marker_before_newline badge_name g1 a v u' b).
Qed.

Lemma marker_on_one_line_witness :
  update_badge
    (txt "https://img.shields.io/badge/binary_size-1 KB" ++ newline :: txt "-blue")
    (txt "binary_size") (PyInt.OfInt 2000000)
  = Ok (txt "https://img.shields.io/badge/binary_size-1 KB" ++ newline :: txt "-blue").
Proof.
  pose proof (marker_on_one_line (txt "binary_size") eq_refl) as H.
  destruct H as [_ H].
  - vm_compute. intuition discriminate.
  - apply (H (txt "https://img.shields.io/badge/binary_size-") (txt "1 KB")
             (txt "-blue") (PyInt.OfInt 2000000) (txt "2 MB")).
    + repeat constructor.
    + vm_compute. intuition discriminate.
    + apply containsb_false. reflexivity.
    + reflexivity.
Defined.

End BadgeClaims.

(** ** The characters of a formatted size *)

Module FormatFacts.

Import Spec PyFloat.

Lemma rstrip_forall (P : ascii -> Prop) c s :
  Forall P s -> Forall P (PyStr.rstrip c s).
Proof.
  induction 1 as [|x s Hx Hs IH]; simpl; [constructor|].
  destruct (PyStr.rstrip c s) as [|y r].
  - destruct (Ascii.eqb x c); auto.
  - auto.
Qed.

Lemma digit_char_size d : 0 <= d <= 9 -> size_char (digit_char d) = true.
Proof.
  intros H.
  assert (d = 0 \/ d = 1 \/ d = 2 \/ d = 3 \/ d = 4 \/ d = 5 \/ d = 6
          \/ d = 7 \/ d = 8 \/ d = 9) as Hd by lia.
  repeat (destruct Hd as [->|Hd]; [reflexivity|]). now subst.
Qed.

Lemma decimal_loop_size fuel : forall n acc,
  size_text acc -> size_text (decimal_loop fuel n acc).
Proof.
  induction fuel as [|fuel IH]; intros n acc Hacc; simpl; [exact Hacc|].
  assert (size_text (digit_char (n mod 10) :: acc)) as H.
  { constructor; [|exact Hacc]. apply digit_char_size.
    pose proof (Z.mod_pos_bound n 10). lia. }
  destruct (n <? 10); auto.
Qed.

Lemma fixed2_size sign h : size_text (fixed2 sign h).
Proof.
  unfold fixed2, size_text. rewrite !Forall_app. repeat split.
  - destruct sign; repeat constructor.
  - apply decimal_loop_size. constructor.
  - constructor; [reflexivity|].
    constructor; [|constructor; [|constructor]]; apply digit_char_size.
    + pose proof (Z.mod_pos_bound h 100).
      assert (0 <= h mod 100 / 10) by (apply Z.div_pos; lia).
      assert (h mod 100 / 10 < 10) by (apply Z.div_lt_upper_bound; lia). lia.
    + pose proof (Z.mod_pos_bound h 10). lia.
Qed.

Lemma format_size_text size f : format_size size = Ok f -> size_text f.
Proof.
  unfold format_size. destruct (PyInt.int size) as [n|]; [|discriminate].
  cbn [bind]. destruct (n <? 1000 * 1000);
    [destruct (truediv n 1000) | destruct (truediv n (1000 * 1000))];
    cbn [bind]; intros H; try discriminate; injection H as <-;
    (apply Forall_app; split;
     [ do 2 apply rstrip_forall; apply fixed2_size | repeat constructor ]).
Qed.

Lemma size_text_no_char c f :
  size_char c = false -> size_text f -> ~ In c f.
Proof.
  intros Hc Hf Hin. unfold size_text in Hf. rewrite Forall_forall in Hf.
  specialize (Hf _ Hin). congruence.
Qed.

End FormatFacts.

(** ** A second pass changes nothing *)

Module Idempotence.

Import Spec Re ReFacts BadgeFacts FormatFacts.

Lemma marker_at_reach p s :
  marker_at p s <->
  exists g1 x, s = g1 ++ x /\ head_text (head p) g1 /\ reach (tail p) x.
Proof.
  split.
  - intros (g1 & g2 & rest & -> & H1 & H2).
    exists g1, (g2 ++ tail p ++ rest). repeat split; auto. now exists g2, rest.
  - intros (g1 & x & -> & H1 & g2 & rest & -> & H2). now exists g1, g2, rest.
Qed.

Lemma newline_split (h : str) :
  ~ In newline h \/ exists h1 h2, h = h1 ++ newline :: h2 /\ ~ In newline h1.
Proof.
  induction h as [|c h IH]; [left; auto|].
  destruct (ascii_dec c newline) as [->|Hc].
  - right. exists [], h. auto.
  - destruct IH as [IH|(h1 & h2 & -> & IH)].
    + left. intros [H|H]; auto.
    + right. exists (c :: h1), h2. split; [reflexivity|].
      intros [H|H]; auto.
Qed.

Section OnePattern.

Variable p : pattern.
Variable f : str.
Hypothesis tail_nonempty : tail p <> [].
Hypothesis tail_one_line : ~ In newline (tail p).
Hypothesis tail_short : (List.length (tail p) <= List.length (head p))%nat.

(** Whatever follows [h], the literal is reached from [h ++ y] as
    soon as it is reached from [h ++ x], when it is reached from
    [y]. *)
Lemma reach_through h x y :
  reach (tail p) y -> reach (tail p) (h ++ x) -> reach (tail p) (h ++ y).
Proof.
  intros (g & r & -> & Hg) Hx.
  destruct (newline_split h) as [Hh|(h1 & h2 & -> & Hh)].
  - exists (h ++ g), r. rewrite <- app_assoc. split; [reflexivity|].
    rewrite in_app_iff. tauto.
  - destruct Hx as (g' & r' & E & Hg').
    rewrite <- app_assoc in E. cbn [app] in E. symmetry in E.
    rewrite app_assoc in E.
    apply prefix_before_newline in E as [w ->].
    + exists g', (w ++ newline :: h2 ++ g ++ tail p ++ r).
      split; [|exact Hg']. now rewrite <- !app_assoc.
    + rewrite in_app_iff. tauto.
Qed.

(** The text of the pass and its result agree on the first
    characters, as many as the first group takes, and the literal is
    reached in the text from wherever it is reached in the result. *)
Lemma pass_window s out :
  pass p f s out ->
  forall n, (n <= List.length (head p))%nat ->
            firstn n s = firstn n out
            /\ (reach (tail p) (skipn n out) -> reach (tail p) (skipn n s)).
Proof.
  induction 1 as [|c s out Hno H IH|g1 g2 rest out H1 H2 H3 H IH]; intros n Hn.
  - auto.
  - destruct n as [|n].
    + split; [reflexivity|]. cbn [skipn].
      intros (g & r & E & Hg). destruct g as [|c' g].
      * destruct (tail p) as [|l lit] eqn:El; [congruence|].
        cbn [app] in E. injection E as <- ->.
        destruct (IH (List.length lit)) as [Hf _]; [simpl in tail_short; lia|].
        rewrite firstn_app, Nat.sub_diag, firstn_all in Hf.
        cbn [firstn] in Hf. rewrite app_nil_r in Hf.
        exists [], (skipn (List.length lit) s). split; [|auto].
        cbn [app]. f_equal. rewrite <- Hf at 1. now rewrite firstn_skipn.
      * cbn [app] in E. injection E as <- ->.
        destruct (IH 0%nat ltac:(lia)) as [_ Hr]. cbn [skipn] in Hr.
        destruct Hr as (g' & r' & -> & Hg').
        { exists g, r. split; [reflexivity|]. intros Hin. apply Hg. now right. }
        exists (c :: g'), r'. split; [reflexivity|].
        intros [Hc|Hc]; [|auto]. apply Hg. now left.
    + destruct (IH n ltac:(lia)) as [Hf Hr]. cbn [firstn skipn].
      split; [now f_equal | exact Hr].
  - rewrite <- (head_text_length _ _ H1) in Hn.
    split.
    + rewrite !firstn_app.
      replace (n - List.length g1)%nat with 0%nat by lia. reflexivity.
    + rewrite !skipn_app.
      replace (n - List.length g1)%nat with 0%nat by lia. cbn [skipn].
      apply reach_through. now exists g2, rest.
Qed.

Hypothesis f_one_line : ~ In newline f.
Hypothesis f_first : forall rest, first_at (tail p) f rest.

Lemma pass_fixed s out : pass p f s out -> pass p f out out.
Proof.
  intros Hp. induction Hp as [|c s out Hno H IH|g1 g2 rest out H1 H2 H3 H IH].
  - constructor.
  - apply pass_keep; [|exact IH].
    intros Hmk. apply Hno.
    apply marker_at_reach in Hmk as (G1 & x & E & HG1 & Hx).
    pose proof (head_text_length _ _ HG1) as Hl.
    destruct (pass_window _ _ (pass_keep p f c s out Hno H) (List.length G1))
      as [Hf Hr]; [lia|].
    rewrite E, firstn_app, Nat.sub_diag, firstn_all in Hf.
    cbn [firstn] in Hf. rewrite app_nil_r in Hf.
    rewrite E, skipn_length_app in Hr.
    apply marker_at_reach.
    exists G1, (skipn (List.length G1) (c :: s)).
    split; [|auto]. rewrite <- Hf at 1. now rewrite firstn_skipn.
  - apply pass_rewrite; auto.
Qed.

End OnePattern.

(** A formatted size has no newline, and after it "-blue" is met
    first where it is written. *)
Lemma size_first_at f rest : size_text f -> first_at (txt "-blue") f rest.
Proof.
  intros Hf k Hk.
  assert (Hb : ~ In "b"%char f) by (now apply size_text_no_char).
  revert k Hk. induction f as [|c f IH]; intros k Hk; [simpl in Hk; lia|].
  inversion Hf; subst.
  destruct k as [|k].
  - change (txt "-blue") with ("-"%char :: "b"%char :: txt "lue").
    cbn [skipn app]. destruct f as [|c' f]; cbn [app PyStr.startswith].
    + apply andb_false_iff. right. reflexivity.
    + destruct (Ascii.eqb "b" c') eqn:E.
      * apply Ascii.eqb_eq in E. subst c'. exfalso. apply Hb. right. now left.
      * apply andb_false_r.
  - cbn [skipn app]. apply IH; auto.
    + intros Hin. apply Hb. now right.
    + simpl in Hk. lia.
Qed.

End Idempotence.

Section MoreBadgeClaims.

Import Spec Re ReFacts BadgeFacts FormatFacts Idempotence.

(** C9, as the code has it.  For a badge name without operator,
    [update_badge] is idempotent: applied to its own result with the
    same badge name and the same size, it returns that result. *)
Theorem update_badge_idempotent
    (content badge_name : str) (size : PyInt.arg) (out : str) :
  plain badge_name = true ->
  update_badge content badge_name size = Ok out ->
  update_badge out badge_name size = Ok out.
Proof.
  intros Hplain H.
  destruct (format_size size) as [f|e] eqn:Hf;
    [|unfold update_badge in H; rewrite Hf in H; discriminate].
  rewrite (update_badge_formatted _ _ _ _ Hplain Hf) in H. injection H as H.
  rewrite (update_badge_formatted _ _ _ _ Hplain Hf). f_equal. set (p := badge_pattern badge_name) in *.
  pose proof (format_size_text _ _ Hf) as Hsize.
  assert (Hp : pass p f content out)
    by (rewrite <- H; apply sub_pass, badge_tail).
  assert (Hfix : pass p f out out).
  { assert (H1 : ~ In newline (tail p)) by (vm_compute; intuition discriminate).
    assert (H2 : (List.length (tail p) <= List.length (head p))%nat).
    { unfold p, badge_pattern. cbn [head tail].
      rewrite length_map, !length_app. simpl. lia. }
    assert (H3 : ~ In newline f) by (now apply size_text_no_char).
    assert (H4 : forall rest, first_at (tail p) f rest)
      by (intros rest; now apply size_first_at).
    exact (pass_fixed p f (badge_tail _) H1 H2 H3 H4 content out Hp). }
  exact (pass_unique p f (badge_tail _) _ _ (sub_pass p f (badge_tail _) out) _ Hfix).
Qed.

Lemma update_badge_idempotent_witness :
  update_badge
    (txt "[a](https://img.shields.io/badge/binary_size-12.35 MB-blue) -blue")
    (txt "binary_size") (PyInt.OfStr (txt "12345678"))
  = Ok (txt "[a](https://img.shields.io/badge/binary_size-12.35 MB-blue) -blue").
Proof.
  apply (update_badge_idempotent
           (txt "[a](https://img.shields.io/badge/binary_size-blue-blue) -blue")).
  - reflexivity.
  - reflexivity.
Defined.

(** C9, as it is stated, fails for a badge name with a star: in what
    the first call returns the starred dot reaches the "B-" of "KB-",
    the second call takes "blue" for the middle field and writes the
    size once more. *)
Lemma update_badge_changes_its_output :
  starred (txt ".*B") = true
  /\ update_badge (txt "https://img.shields.io/badge/B-x-blue-blue")
       (txt ".*B") (PyInt.OfInt 1000)
     = Ok (txt "https://img.shields.io/badge/B-1 KB-blue-blue")
  /\ update_badge (txt "https://img.shields.io/badge/B-1 KB-blue-blue")
       (txt ".*B") (PyInt.OfInt 1000)
     = Ok (txt "https://img.shields.io/badge/B-1 KB-1 KB-blue")
  /\ update_badge (txt "https://img.shields.io/badge/B-1 KB-blue-blue")
       (txt ".*B") (PyInt.OfInt 1000)
     <> Ok (txt "https://img.shields.io/badge/B-1 KB-blue-blue").
Proof.
  split; [reflexivity|].
  split; [vm_compute; reflexivity|]. split; [vm_compute; reflexivity|].
  vm_compute. discriminate.
Qed.

(** C3.  The dots of the URL in the pattern are not escaped: a text
    that differs from the literal prefix at a dot is matched, and its
    middle field rewritten, all the same. *)
Theorem update_badge_matches_other_prefix :
  update_badge (txt "https://imgXshields.io/badge/binary_size-1-blue")
    (txt "binary_size") (PyInt.OfInt 5000000)
  = Ok (txt "https://imgXshields.io/badge/binary_size-5 MB-blue").
Proof. reflexivity. Qed.

End MoreBadgeClaims.

Section FormatExamples.

(** C8.  The values of [format_size] at the inputs the specification
    lists; 1,000,000 bytes are counted in MB. *)
Theorem format_size_examples :
  format_size (PyInt.OfInt 1000) = Ok (txt "1 KB")
  /\ format_size (PyInt.OfInt 1500) = Ok (txt "1.5 KB")
  /\ format_size (PyInt.OfInt 1234000) = Ok (txt "1.23 MB")
  /\ format_size (PyInt.OfInt 2000000) = Ok (txt "2 MB")
  /\ format_size (PyInt.OfStr (txt "500000")) = Ok (txt "500 KB")
  /\ format_size (PyInt.OfStr (txt "1000000")) = Ok (txt "1 MB").
Proof. repeat split; reflexivity. Qed.

End FormatExamples.

(** ** The arithmetic of [/] and of ['.2f'] *)

Module FloatFacts.

Import Spec PyFloat.

Lemma round_half_even_spec num den :
  0 < den -> nearest_even num den (round_half_even num den).
Proof.
  intros Hden. unfold nearest_even, round_half_even.
  pose proof (Z.div_mod num den ltac:(lia)) as Hdm.
  pose proof (Z.mod_pos_bound num den Hden) as Hr.
  set (q := num / den) in *. set (r := num mod den) in *.
  destruct (2 * r <? den) eqn:H1; [apply Z.ltb_lt in H1 | apply Z.ltb_ge in H1].
  - split; [lia | intros; exfalso; nia].
  - destruct (den <? 2 * r) eqn:H2; [apply Z.ltb_lt in H2 | apply Z.ltb_ge in H2].
    + split; [nia | intros; exfalso; nia].
    + destruct (Z.even q) eqn:Hq.
      * split; [nia | auto].
      * split; [nia|]. intros _.
        rewrite Z.add_1_r, Z.even_succ, <- Z.negb_even, Hq. reflexivity.
Qed.

Lemma nearest_even_unique num den m m' :
  0 < den -> nearest_even num den m -> nearest_even num den m' -> m = m'.
Proof.
  intros Hden [H1 H2] [H1' H2'].
  assert (m = m' \/ m = m' + 1 \/ m' = m + 1) as [-> | [-> | ->]] by nia; auto.
  - assert (2 * Z.abs ((m' + 1) * den - num) = den) as E by nia.
    assert (2 * Z.abs (m' * den - num) = den) as E' by nia.
    specialize (H2 E). specialize (H2' E').
    rewrite Z.add_1_r, Z.even_succ, <- Z.negb_even, H2' in H2. discriminate.
  - assert (2 * Z.abs ((m + 1) * den - num) = den) as E by nia.
    assert (2 * Z.abs (m * den - num) = den) as E' by nia.
    specialize (H2 E'). specialize (H2' E).
    rewrite Z.add_1_r, Z.even_succ, <- Z.negb_even, H2 in H2'. discriminate.
Qed.

Lemma round_half_even_mono num num' den :
  0 < den -> num <= num' -> round_half_even num den <= round_half_even num' den.
Proof.
  intros Hden Hle.
  destruct (round_half_even_spec num den Hden) as [H1 H2].
  destruct (round_half_even_spec num' den Hden) as [H1' H2'].
  set (m := round_half_even num den) in *.
  set (m' := round_half_even num' den) in *.
  destruct (Z.le_gt_cases m m') as [|Hgt]; [assumption | exfalso].
  assert (num = num') by nia. subst num'. unfold m, m' in *. lia.
Qed.

Lemma round_half_even_exact m den : 0 < den -> round_half_even (m * den) den = m.
Proof.
  intros Hden. symmetry.
  apply (nearest_even_unique (m * den) den); auto using round_half_even_spec.
  split; [lia | intros; exfalso; lia].
Qed.

Lemma scaled_num_pos n e : 0 < n -> 0 < scaled_num n e.
Proof.
  intros Hn. unfold scaled_num. destruct (0 <=? e) eqn:He; cbv iota; [lia|].
  apply Z.leb_gt in He.
  apply Z.mul_pos_pos; [lia|]. apply Z.pow_pos_nonneg; lia.
Qed.

Lemma scaled_den_pos d e : 0 < d -> 0 < scaled_den d e.
Proof.
  intros Hd. unfold scaled_den. destruct (0 <=? e) eqn:He; cbv iota; [|lia].
  apply Z.leb_le in He. apply Z.mul_pos_pos; [lia|]. apply Z.pow_pos_nonneg; lia.
Qed.

(** [scaled_num n e / scaled_den d e] is [n / (d * 2^e)]. *)
Lemma scaled_cross n d e K :
  0 <= K -> 0 <= e + K ->
  scaled_num n e * (d * 2 ^ (e + K)) = scaled_den d e * (n * 2 ^ K).
Proof.
  intros HK HeK. unfold scaled_num, scaled_den.
  destruct (0 <=? e) eqn:He; [apply Z.leb_le in He | apply Z.leb_gt in He].
  - rewrite Z.pow_add_r by lia. ring.
  - replace (2 ^ K) with (2 ^ (- e) * 2 ^ (e + K)).
    + ring.
    + rewrite <- Z.pow_add_r by lia. f_equal. lia.
Qed.

Lemma scaled_le n d e K B :
  0 < n -> 0 < d -> 0 <= K -> 0 <= e + K ->
  (B * scaled_den d e <= scaled_num n e <-> B * (d * 2 ^ (e + K)) <= n * 2 ^ K).
Proof.
  intros Hn Hd HK HeK.
  pose proof (scaled_cross n d e K HK HeK) as Hc.
  pose proof (scaled_num_pos n e Hn). pose proof (scaled_den_pos d e Hd).
  assert (0 < d * 2 ^ (e + K)) by (apply Z.mul_pos_pos; [lia|apply Z.pow_pos_nonneg; lia]).
  assert (0 < n * 2 ^ K) by (apply Z.mul_pos_pos; [lia|apply Z.pow_pos_nonneg; lia]).
  set (sn := scaled_num n e) in *. set (sd := scaled_den d e) in *.
  set (X := d * 2 ^ (e + K)) in *. set (Y := n * 2 ^ K) in *.
  split; intros Hle.
  - apply (Z.mul_le_mono_pos_l _ _ sd); [lia|]. rewrite <- Hc. nia.
  - apply (Z.mul_le_mono_pos_r _ _ X); [lia|]. rewrite Hc. nia.
Qed.

Lemma scaled_lt n d e K B :
  0 < n -> 0 < d -> 0 <= K -> 0 <= e + K ->
  (scaled_num n e < B * scaled_den d e <-> n * 2 ^ K < B * (d * 2 ^ (e + K))).
Proof.
  intros Hn Hd HK HeK.
  pose proof (scaled_le n d e K B Hn Hd HK HeK). lia.
Qed.

Lemma div_lt_iff a b q : 0 < b -> (a / b < q <-> a < q * b).
Proof.
  intros Hb. split; intros H.
  - pose proof (Z.div_mod a b ltac:(lia)). pose proof (Z.mod_pos_bound a b Hb). nia.
  - apply Z.div_lt_upper_bound; lia.
Qed.

Lemma normal_exponent_range n d K :
  0 < n -> 0 < d -> 0 <= K -> 0 <= Z.log2 n - Z.log2 d - 53 + K ->
  let e := normal_exponent n d in
  2 ^ 52 * (d * 2 ^ (e + K)) <= n * 2 ^ K < 2 ^ 53 * (d * 2 ^ (e + K)).
Proof.
  intros Hn Hd HK He0. unfold normal_exponent.
  set (e0 := Z.log2 n - Z.log2 d - 53) in *.
  pose proof (Z.log2_spec n Hn) as [Ha1 Ha2].
  pose proof (Z.log2_spec d Hd) as [Hc1 Hc2].
  pose proof (Z.log2_nonneg n) as Ha0. pose proof (Z.log2_nonneg d) as Hc0.
  rewrite Z.pow_succ_r in Ha2, Hc2 by assumption.
  assert (HT : 0 < 2 ^ (e0 + K)) by (apply Z.pow_pos_nonneg; lia).
  assert (HKp : 0 < 2 ^ K) by (apply Z.pow_pos_nonneg; lia).
  assert (HAK : 2 ^ Z.log2 n * 2 ^ K = 2 ^ 53 * 2 ^ Z.log2 d * 2 ^ (e0 + K)).
  { rewrite <- !Z.pow_add_r by lia. f_equal. unfold e0. lia. }
  assert (HT1 : 2 ^ (e0 + 1 + K) = 2 * 2 ^ (e0 + K)).
  { replace (e0 + 1 + K) with (Z.succ (e0 + K)) by lia. apply Z.pow_succ_r. lia. }
  set (A := 2 ^ Z.log2 n) in *. set (C := 2 ^ Z.log2 d) in *.
  set (T := 2 ^ (e0 + K)) in *. set (P := 2 ^ K) in *.
  assert (Hlo : 2 ^ 52 * (d * T) < n * P).
  { assert (A * P <= n * P) by nia.
    assert (2 ^ 52 * (d * T) < 2 ^ 53 * C * T) by nia. lia. }
  assert (Hhi : n * P < 2 ^ 54 * (d * T)).
  { assert (n * P < 2 * A * P) by nia.
    assert (2 ^ 54 * C * T <= 2 ^ 54 * (d * T)) by nia. lia. }
  destruct (scaled_num n e0 / scaled_den d e0 <? 2 ^ 53) eqn:Hq; cbv zeta.
  - apply Z.ltb_lt in Hq.
    apply div_lt_iff in Hq; [|now apply scaled_den_pos].
    apply (scaled_lt n d e0 K) in Hq; auto. fold T P in Hq. fold T. lia.
  - apply Z.ltb_ge in Hq.
    assert (Hq' : ~ (scaled_num n e0 / scaled_den d e0 < 2 ^ 53)) by lia.
    rewrite div_lt_iff in Hq' by (now apply scaled_den_pos).
    rewrite (scaled_lt n d e0 K) in Hq' by auto. fold T P in Hq'.
    rewrite HT1. lia.
Qed.

Lemma normal_scaled n d :
  0 < n -> 0 < d ->
  let e := normal_exponent n d in
  2 ^ 52 * scaled_den d e <= scaled_num n e < 2 ^ 53 * scaled_den d e.
Proof.
  intros Hn Hd e.
  set (K := Z.abs (Z.log2 n - Z.log2 d - 53) + 1).
  assert (HK : 0 <= K) by lia.
  assert (He0 : 0 <= Z.log2 n - Z.log2 d - 53 + K) by lia.
  assert (He : 0 <= e + K).
  { unfold e, normal_exponent.
    destruct (_ <? _); lia. }
  pose proof (normal_exponent_range n d K Hn Hd HK He0) as [H1 H2].
  fold e in H1, H2.
  split.
  - now apply (scaled_le n d e K).
  - now apply (scaled_lt n d e K).
Qed.

Lemma round_half_even_between sn sd lo hi :
  0 < sd -> lo * sd <= sn <= hi * sd -> lo <= round_half_even sn sd <= hi.
Proof.
  intros Hsd [H1 H2]. split.
  - rewrite <- (round_half_even_exact lo sd Hsd). now apply round_half_even_mono.
  - rewrite <- (round_half_even_exact hi sd Hsd). now apply round_half_even_mono.
Qed.

Lemma log2_53bits m : 2 ^ 52 <= m <= 2 ^ 53 ->
  (m = 2 ^ 53 /\ Z.log2 m = 53) \/ (m < 2 ^ 53 /\ Z.log2 m = 52).
Proof.
  intros [H1 H2]. destruct (Z.eq_dec m (2 ^ 53)) as [->|Hne].
  - left. split; [reflexivity|]. apply Z.log2_pow2. lia.
  - right. split; [lia|]. apply Z.log2_unique; [lia|]. 
    change (2 ^ (52 + 1)) with (2 ^ 53). lia.
Qed.

Lemma overflow_iff n d :
  0 < n -> 0 < d ->
  let e := ulp_exponent n d in
  let m := round_half_even (scaled_num n e) (scaled_den d e) in
  (1024 <=? Z.log2 m + e) = true <-> float_limit * d <= n.
Proof.
  intros Hn Hd. cbv zeta.
  pose proof (normal_scaled n d Hn Hd) as Hr. cbv zeta in Hr.
  rewrite Z.leb_le. unfold float_limit, ulp_exponent.
  remember (normal_exponent n d) as e1 eqn:Ee1. clear Ee1.
  pose proof (scaled_den_pos d e1 Hd) as Hsd.
  destruct (Z.le_gt_cases (-1074) e1) as [Hnorm|Hsub].
  - rewrite Z.max_l by lia.
    pose proof (round_half_even_spec (scaled_num n e1) (scaled_den d e1) Hsd) as [Hs1 _].
    assert (Hm : 2 ^ 52 <= round_half_even (scaled_num n e1) (scaled_den d e1) <= 2 ^ 53)
      by (apply round_half_even_between; [assumption | lia]).
    destruct (log2_53bits _ Hm) as [[Hm1 Hl]|[Hm1 Hl]]; rewrite Hl; clear Hl.
    + (* the significand is 2^53 *)
      rewrite Hm1 in *. clear Hm1 Hm.
      unfold scaled_num, scaled_den in *.
      destruct (0 <=? e1) eqn:E; [apply Z.leb_le in E | apply Z.leb_gt in E].
      * destruct (Z.le_gt_cases 971 e1) as [Hbig|Hsmall].
        -- split; [intros _ | lia].
           assert (2 ^ 971 <= 2 ^ e1) by (apply Z.pow_le_mono_r; lia). nia.
        -- split; [lia | intros Hle; exfalso].
           assert (2 ^ e1 <= 2 ^ 970) by (apply Z.pow_le_mono_r; lia).
           assert (0 < 2 ^ e1) by (apply Z.pow_pos_nonneg; lia). nia.
      * split; [lia | intros Hle; exfalso].
        assert (1 <= 2 ^ (- e1)) by (apply (Z.pow_le_mono_r 2 0); lia). nia.
    + (* the significand is below 2^53 *)
      remember (round_half_even (scaled_num n e1) (scaled_den d e1)) as m eqn:Em.
      destruct (Z.le_gt_cases 972 e1) as [Hbig|Hsmall].
      * split; [intros _ | lia].
        unfold scaled_num, scaled_den in Hr.
        assert ((0 <=? e1) = true) as E by (apply Z.leb_le; lia). rewrite E in Hr.
        assert (2 ^ 972 <= 2 ^ e1) by (apply Z.pow_le_mono_r; lia). nia.
      * split; [lia | intros Hle; exfalso].
        unfold scaled_num, scaled_den in *.
        destruct (0 <=? e1) eqn:E; [apply Z.leb_le in E | apply Z.leb_gt in E].
        -- destruct (Z.eq_dec e1 971) as [->|He].
           ++ assert (2 ^ 53 <= m); [|lia].
              rewrite <- (round_half_even_exact (2 ^ 53) (d * 2 ^ 971) Hsd), Em.
              transitivity (round_half_even ((2 ^ 1024 - 2 ^ 970) * d) (d * 2 ^ 971)).
              ** apply Z.eq_le_incl.
                 apply (nearest_even_unique ((2 ^ 1024 - 2 ^ 970) * d) (d * 2 ^ 971));
                   auto using round_half_even_spec.
                 rewrite round_half_even_exact by assumption.
                 split; [lia | reflexivity].
              ** now apply round_half_even_mono.
           ++ assert (2 ^ e1 <= 2 ^ 970) by (apply Z.pow_le_mono_r; lia).
              assert (0 < 2 ^ e1) by (apply Z.pow_pos_nonneg; lia). nia.
        -- assert (1 <= 2 ^ (- e1)) by (apply (Z.pow_le_mono_r 2 0); lia). nia.
  - rewrite Z.max_r by lia.
    unfold scaled_num, scaled_den in *.
    assert ((0 <=? e1) = false) as E by (apply Z.leb_gt; lia).
    rewrite E in Hr.
    change (0 <=? -1074) with false. cbv iota.
    change (- -1074) with 1074.
    assert (2 ^ 1074 <= 2 ^ (- e1)) by (apply Z.pow_le_mono_r; lia).
    assert (Hm : 0 <= round_half_even (n * 2 ^ 1074) d <= 2 ^ 53)
      by (apply round_half_even_between; [lia | nia]).
    remember (round_half_even (n * 2 ^ 1074) d) as m eqn:Em.
    assert (Z.log2 m <= 53).
    { change 53 with (Z.log2 (2 ^ 53)). apply Z.log2_le_mono. lia. }
    split; [lia | intros Hle; exfalso]. nia.
Qed.

Lemma float_limit_pos : 0 < float_limit.
Proof. reflexivity. Qed.

(** [a / b] overflows exactly from [float_limit] on. *)
Lemma truediv_overflow a b :
  truediv a b = Raise OverflowError <-> float_limit * Z.pos b <= Z.abs a.
Proof.
  unfold truediv. destruct (a =? 0) eqn:Ha.
  - apply Z.eqb_eq in Ha. subst a. pose proof float_limit_pos.
    split; [discriminate | intros H'; exfalso; simpl in H'; nia].
  - apply Z.eqb_neq in Ha. cbv zeta.
    pose proof (overflow_iff (Z.abs a) (Z.pos b) ltac:(lia) ltac:(lia)) as Ho.
    cbv zeta in Ho.
    destruct (1024 <=? _) eqn:E.
    + split; [intros _; now apply Ho | reflexivity].
    + split; [discriminate | intros H'; apply Ho in H'; discriminate].
Qed.

Lemma truediv_raises a b e : truediv a b = Raise e -> e = OverflowError.
Proof.
  unfold truediv. destruct (a =? 0); [discriminate|]. cbv zeta.
  destruct (1024 <=? _); [|discriminate]. now intros [= <-].
Qed.

(** Below the limit, [a / b] is the number with the sign of [a], the
    exponent of the unit in the last place of the quotient and the
    significand nearest to the quotient counted in that unit. *)
Lemma truediv_finite a b :
  Z.abs a < float_limit * Z.pos b ->
  truediv a b
  = Ok (if a =? 0 then mk false 0 (-1074)
        else
          let e := ulp_exponent (Z.abs a) (Z.pos b) in
          mk (a <? 0) (round_half_even (scaled_num (Z.abs a) e) (scaled_den (Z.pos b) e)) e).
Proof.
  intros Hlt.
  destruct (truediv a b) as [x|e] eqn:Hx.
  - unfold truediv in Hx. destruct (a =? 0); [now symmetry|]. cbv zeta in *.
    destruct (1024 <=? _); [discriminate | now symmetry].
  - pose proof (truediv_raises _ _ _ Hx). subst e.
    apply truediv_overflow in Hx. lia.
Qed.

Lemma significand_range n d :
  0 < n -> 0 < d ->
  let e := ulp_exponent n d in
  let m := round_half_even (scaled_num n e) (scaled_den d e) in
  0 <= m <= 2 ^ 53 /\ (2 ^ 52 <= m \/ e = -1074).
Proof.
  intros Hn Hd. cbv zeta.
  pose proof (normal_scaled n d Hn Hd) as Hr. cbv zeta in Hr.
  unfold ulp_exponent.
  remember (normal_exponent n d) as e1 eqn:Ee1. clear Ee1.
  destruct (Z.le_gt_cases (-1074) e1) as [Hnorm|Hsub].
  - rewrite Z.max_l by lia.
    pose proof (scaled_den_pos d e1 Hd) as Hsd.
    assert (2 ^ 52 <= round_half_even (scaled_num n e1) (scaled_den d e1) <= 2 ^ 53)
      by (apply round_half_even_between; [assumption | lia]).
    lia.
  - rewrite Z.max_r by lia.
    unfold scaled_num, scaled_den in *.
    assert ((0 <=? e1) = false) as E by (apply Z.leb_gt; lia).
    rewrite E in Hr.
    change (0 <=? -1074) with false. cbv iota.
    change (- -1074) with 1074.
    assert (2 ^ 1074 <= 2 ^ (- e1)) by (apply Z.pow_le_mono_r; lia).
    assert (0 <= round_half_even (n * 2 ^ 1074) d <= 2 ^ 53)
      by (apply round_half_even_between; [lia | nia]).
    lia.
Qed.

Lemma truediv_rounds a b x :
  truediv a b = Ok x ->
  neg x = (a <? 0)
  /\ nearest_even (scaled_num (Z.abs a) (expo x)) (scaled_den (Z.pos b) (expo x))
       (mant x)
  /\ 0 <= mant x <= 2 ^ 53
  /\ -1074 <= expo x
  /\ (2 ^ 52 <= mant x \/ expo x = -1074).
Proof.
  unfold truediv. destruct (a =? 0) eqn:Ha.
  - apply Z.eqb_eq in Ha. subst a. intros [= <-]. split; [reflexivity|].
    cbn [mant expo].
    repeat split; try lia; try (now right).
    change (scaled_num (Z.abs 0) (-1074)) with 0.
    change (scaled_den (Z.pos b) (-1074)) with (Z.pos b). lia.
  - apply Z.eqb_neq in Ha. cbv zeta.
    destruct (1024 <=? _); [discriminate|]. intros [= <-].
    split; [reflexivity|]. cbn [mant expo].
    pose proof (significand_range (Z.abs a) (Z.pos b) ltac:(lia) ltac:(lia)) as Hs.
    cbv zeta in Hs.
    split; [apply round_half_even_spec, scaled_den_pos; lia|].
    split; [tauto|]. split; [unfold ulp_exponent; lia | tauto].
Qed.

Lemma nearest_le sn sd m k :
  0 < sd -> 2 * Z.abs (m * sd - sn) <= sd ->
  Z.abs (m * sd - sn) <= Z.abs (k * sd - sn).
Proof.
  intros Hsd Hm. destruct (Z.eq_dec k m) as [->|Hk]; [lia|].
  assert (k * sd <= m * sd - sd \/ m * sd + sd <= k * sd) by nia. lia.
Qed.

Lemma nearest_tie sn sd m k :
  0 < sd -> 2 * Z.abs (m * sd - sn) <= sd -> k <> m ->
  Z.abs (k * sd - sn) = Z.abs (m * sd - sn) -> 2 * Z.abs (m * sd - sn) = sd.
Proof.
  intros Hsd Hm Hk E.
  assert (k * sd <= m * sd - sd \/ m * sd + sd <= k * sd) by nia. lia.
Qed.

(** A multiple of the unit [2^e], seen from [n / d], is as the
    multiplier is seen from the quotient counted in that unit. *)
Lemma grid_scale n d e :
  -1074 <= e ->
  exists F, 0 < F
    /\ forall k, k * 2 ^ (e + 1074) * d - n * 2 ^ 1074
                 = F * (k * scaled_den d e - scaled_num n e).
Proof.
  intros He. unfold scaled_num, scaled_den.
  destruct (0 <=? e) eqn:E; [apply Z.leb_le in E | apply Z.leb_gt in E].
  - exists (2 ^ 1074). split; [apply Z.pow_pos_nonneg; lia|].
    intros k. rewrite Z.pow_add_r by lia. ring.
  - exists (2 ^ (e + 1074)). split; [apply Z.pow_pos_nonneg; lia|].
    intros k.
    replace (2 ^ 1074) with (2 ^ (e + 1074) * 2 ^ (- e))
      by (rewrite <- Z.pow_add_r by lia; f_equal; lia).
    ring.
Qed.

(** The float with the significand rounded in the unit in the last
    place of the quotient is the nearest binary64 number. *)
Lemma rounded_is_nearest n d s m e :
  0 < d -> 0 <= n -> -1074 <= e ->
  nearest_even (scaled_num n e) (scaled_den d e) m ->
  0 <= m <= 2 ^ 53 ->
  (2 ^ 52 <= m \/ e = -1074) ->
  (e = -1074 \/ 2 ^ 52 * scaled_den d e <= scaled_num n e) ->
  (m < 2 ^ 53 -> e <= 971) -> (m = 2 ^ 53 -> e <= 970) ->
  binary64_nearest n d (mk s m e).
Proof.
  intros Hd Hn He [Hm Heven] Hrange Hshape Hnormal Hfin Hcarry.
  pose proof (scaled_den_pos d e Hd) as Hsd.
  destruct (grid_scale n d e He) as (F & HF & Hgrid).
  assert (HE : 0 < 2 ^ (e + 1074)) by (apply Z.pow_pos_nonneg; lia).
  assert (Hx : forall k, Z.abs (k * 2 ^ (e + 1074) * d - n * 2 ^ 1074)
                         = F * Z.abs (k * scaled_den d e - scaled_num n e)).
  { intros k. rewrite Hgrid, Z.abs_mul, (Z.abs_eq F) by lia. reflexivity. }
  assert (Hy : forall y, binary64 y ->
             (exists k, units y = k * 2 ^ (e + 1074))
             \/ (e <> -1074 /\ units y < 2 ^ 52 * 2 ^ (e + 1074))).
  { intros y [Hmy Hey]. unfold units.
    destruct (Z.le_gt_cases e (expo y)) as [Hge|Hlt].
    - left. exists (mant y * 2 ^ (expo y - e)).
      rewrite <- Z.mul_assoc, <- Z.pow_add_r by lia. do 2 f_equal. lia.
    - right. split; [lia|].
      assert (2 * 2 ^ (expo y + 1074) <= 2 ^ (e + 1074)).
      { replace (2 * 2 ^ (expo y + 1074)) with (2 ^ (expo y + 1074 + 1))
          by (rewrite Z.pow_add_r by lia; change (2 ^ 1) with 2; ring).
        apply Z.pow_le_mono_r; lia. }
      assert (0 < 2 ^ (expo y + 1074)) by (apply Z.pow_pos_nonneg; lia).
      change (2 ^ 53) with (2 ^ 52 * 2) in Hmy. nia. }
  assert (Hbelow : e <> -1074 ->
            forall Y, Y < 2 ^ 52 * 2 ^ (e + 1074) ->
              F * Z.abs (m * scaled_den d e - scaled_num n e)
              < Z.abs (Y * d - n * 2 ^ 1074)).
  { intros Hne Y HY. destruct Hnormal as [|Hnormal]; [contradiction|].
    pose proof (Hgrid (2 ^ 52)) as HB.
    pose proof (nearest_le _ _ m (2 ^ 52) Hsd Hm) as Hle.
    assert (Y * d < 2 ^ 52 * 2 ^ (e + 1074) * d) by nia.
    assert (F * Z.abs (m * scaled_den d e - scaled_num n e)
            <= F * Z.abs (2 ^ 52 * scaled_den d e - scaled_num n e)) by nia.
    rewrite <- Hx in H0. nia. }
  assert (Hdx : distance n d (mk s m e)
                = F * Z.abs (m * scaled_den d e - scaled_num n e)).
  { unfold distance, units. cbn [mant expo]. apply Hx. }
  assert (Hux : units (mk s m e) = m * 2 ^ (e + 1074)) by reflexivity.
  unfold binary64_nearest. cbn [mant expo].
  split; [repeat split; try lia; auto|]. split; [|split].
  - destruct (Z.eq_dec m (2 ^ 53)) as [->|Hne].
    + exists (mk s (2 ^ 52) (e + 1)). split.
      * split; cbn [mant expo]; [lia|]. specialize (Hcarry eq_refl). lia.
      * unfold units. cbn [mant expo].
        replace (e + 1 + 1074) with (e + 1074 + 1) by lia.
        rewrite Z.pow_add_r by lia. change (2 ^ 53) with (2 ^ 52 * 2 ^ 1). ring.
    + exists (mk s m e). split; [|reflexivity].
      split; cbn [mant expo]; [lia|]. split; [lia|]. apply Hfin. lia.
  - intros y Hb. rewrite Hdx. unfold distance.
    destruct (Hy y Hb) as [[k ->]|[Hne HY]].
    + rewrite Hx. pose proof (nearest_le _ _ m k Hsd Hm). nia.
    + specialize (Hbelow Hne _ HY). lia.
  - intros y Hb Hneq. rewrite Hdx, Hux in *. unfold distance.
    destruct (Hy y Hb) as [[k Ek]|[Hne HY]].
    + rewrite Ek, Hx. intros E. apply Heven.
      apply (nearest_tie _ _ m k Hsd Hm).
      * intros ->. apply Hneq. exact Ek.
      * nia.
    + specialize (Hbelow Hne _ HY). lia.
Qed.

(** [a / b], when it is returned, has the sign of [a] and is the
    binary64 number nearest to the exact quotient. *)
Lemma truediv_nearest a b x :
  truediv a b = Ok x ->
  neg x = (a <? 0) /\ binary64_nearest (Z.abs a) (Z.pos b) x.
Proof.
  intros Hx. pose proof (truediv_rounds _ _ _ Hx) as (Hs & Hm & Hr & He & Hsh).
  split; [exact Hs|]. revert Hm Hr He Hsh. clear Hs. revert Hx.
  unfold truediv. destruct (a =? 0) eqn:Ha.
  - apply Z.eqb_eq in Ha. subst a. intros [= <-]. cbn [mant expo]. intros Hm Hr He Hsh.
    apply rounded_is_nearest; auto; try lia.
  - apply Z.eqb_neq in Ha. cbv zeta.
    destruct (1024 <=? _) eqn:Hov; [discriminate|]. intros [= <-].
    cbn [mant expo]. intros Hm Hr He Hsh. apply Z.leb_gt in Hov.
    set (e := ulp_exponent (Z.abs a) (Z.pos b)) in *.
    set (m := round_half_even (scaled_num (Z.abs a) e) (scaled_den (Z.pos b) e)) in *.
    apply rounded_is_nearest; auto; try lia.
    + unfold e, ulp_exponent.
      destruct (Z.le_gt_cases (-1074) (normal_exponent (Z.abs a) (Z.pos b))) as [Hn|Hn].
      * right. rewrite Z.max_l by lia.
        apply (normal_scaled (Z.abs a) (Z.pos b)); lia.
      * left. lia.
    + intros Hlt. destruct Hsh as [Hsh|Hsh]; [|lia].
      assert (52 <= Z.log2 m)
        by (change 52 with (Z.log2 (2 ^ 52)); apply Z.log2_le_mono; lia).
      lia.
    + intros E. rewrite E in Hov. change (Z.log2 (2 ^ 53)) with 53 in Hov. lia.
Qed.

Lemma pow2_split a b : 0 <= a <= b -> 2 ^ b = 2 ^ a * 2 ^ (b - a).
Proof. intros H. rewrite <- Z.pow_add_r by lia. f_equal. lia. Qed.

Lemma pow2_even k : 1 <= k -> exists h, 0 < h /\ 2 ^ k = 2 * h.
Proof.
  intros Hk. exists (2 ^ (k - 1)). split; [apply Z.pow_pos_nonneg; lia|].
  replace k with (1 + (k - 1)) at 1 by lia. rewrite Z.pow_add_r by lia. reflexivity.
Qed.

Lemma mul_lt_bound a b A B : 0 <= a < A -> 0 < b <= B -> a * b < A * B.
Proof. nia. Qed.

Lemma pow2_lt_inv a b : 0 <= b -> 2 ^ a < 2 ^ b -> a < b.
Proof. intros Hb H. apply (Z.pow_lt_mono_r_iff 2); [lia | assumption | assumption]. Qed.

(** A nearest number, written with fewer than [2^53] in the
    significand. *)
Lemma nearest_normal_form n d x :
  binary64_nearest n d x ->
  exists m e,
    units x = m * 2 ^ (e + 1074)
    /\ 0 <= m < 2 ^ 53 /\ -1074 <= e <= 971
    /\ (2 ^ 52 <= m \/ e = -1074)
    /\ (Z.even (mant x) = true -> Z.even m = true).
Proof.
  intros ((Hm & He & Hsh) & (y0 & (Hm0 & He0) & Hu) & _).
  unfold units in *.
  assert (Hp : 0 < 2 ^ (expo x + 1074)) by (apply Z.pow_pos_nonneg; lia).
  assert (Hp0 : 0 < 2 ^ (expo y0 + 1074)) by (apply Z.pow_pos_nonneg; lia).
  assert (Htop : 2 ^ (expo y0 + 1074) <= 2 ^ 2045) by (apply Z.pow_le_mono_r; lia).
  pose proof (mul_lt_bound _ _ _ _ Hm0 (conj Hp0 Htop)) as Hbound.
  rewrite Hu in Hbound.
  destruct (Z.eq_dec (mant x) (2 ^ 53)) as [E|Hne].
  - exists (2 ^ 52), (expo x + 1). rewrite E in *.
    assert (expo x + 1074 < 2045).
    { apply pow2_lt_inv; [lia|].
      apply (Z.mul_lt_mono_pos_l (2 ^ 53)); [reflexivity | exact Hbound]. }
    replace (expo x + 1 + 1074) with (expo x + 1074 + 1) by lia.
    rewrite (Z.pow_add_r 2 (expo x + 1074) 1) by lia. change (2 ^ 53) with (2 ^ 52 * 2 ^ 1).
    repeat split; try lia; auto; ring.
  - exists (mant x), (expo x). repeat split; try lia; auto.
    destruct Hsh as [Hsh|Hsh]; [|lia].
    assert (expo x + 1074 < 2046); [|lia].
    apply pow2_lt_inv; [lia|].
    apply (Z.mul_lt_mono_pos_l (2 ^ 52)); [reflexivity|].
    replace (2 ^ 52 * 2 ^ 2046) with (2 ^ 53 * 2 ^ 2045) by reflexivity.
    apply Z.le_lt_trans with (2 := Hbound).
    apply Z.mul_le_mono_nonneg_r; lia.
Qed.

(** Of two numbers written so, both with an even significand and
    as far from [N / d] one as the other, the smaller one has a
    binary64 number nearer to [N / d] above it. *)
Lemma no_even_neighbour d N mx ex my ey :
  0 < d ->
  0 <= mx < 2 ^ 53 -> -1074 <= ex <= 971 -> (2 ^ 52 <= mx \/ ex = -1074) ->
  0 <= my < 2 ^ 53 -> -1074 <= ey <= 971 ->
  Z.even mx = true -> Z.even my = true ->
  mx * 2 ^ (ex + 1074) < my * 2 ^ (ey + 1074) ->
  Z.abs (mx * 2 ^ (ex + 1074) * d - N) = Z.abs (my * 2 ^ (ey + 1074) * d - N) ->
  exists z, binary64 z
            /\ Z.abs (units z * d - N) < Z.abs (mx * 2 ^ (ex + 1074) * d - N).
Proof.
  intros Hd Hmx Hex Hsh Hmy Hey Evx Evy Hlt Heq.
  apply Z.even_spec in Evx as [kx Ekx]. apply Z.even_spec in Evy as [ky Eky].
  assert (HPX : 0 < 2 ^ (ex + 1074)) by (apply Z.pow_pos_nonneg; lia).
  assert (HPY : 0 < 2 ^ (ey + 1074)) by (apply Z.pow_pos_nonneg; lia).
  destruct (Z.le_gt_cases ex ey) as [Hle|Hgt].
  - exists (mk false (mx + 1) ex). split.
    { unfold binary64. cbn [mant expo]. lia. }
    unfold units. cbn [mant expo].
    rewrite (pow2_split (ex + 1074) (ey + 1074)) in Hlt, Heq by lia.
    replace (ey + 1074 - (ex + 1074)) with (ey - ex) in * by lia.
    set (PX := 2 ^ (ex + 1074)) in *.
    assert (HK : mx + 2 <= my * 2 ^ (ey - ex)).
    { assert (Hc : mx < my * 2 ^ (ey - ex)).
      { apply (Z.mul_lt_mono_pos_r PX); [exact HPX|].
        replace (my * 2 ^ (ey - ex) * PX) with (my * (PX * 2 ^ (ey - ex))) by ring.
        exact Hlt. }
      destruct (Z.eq_dec ey ex) as [->|Hne].
      - rewrite Z.sub_diag in *. change (2 ^ 0) with 1 in *. lia.
      - destruct (pow2_even (ey - ex) ltac:(lia)) as (h & Hh & Eh). rewrite Eh in *.
        replace (my * (2 * h)) with (2 * (my * h)) in * by ring. lia. }
    set (K := my * 2 ^ (ey - ex)) in *.
    assert (E : my * (PX * 2 ^ (ey - ex)) = K * PX) by (unfold K; ring).
    rewrite E in Heq, Hlt.
    assert (H1 : mx * PX * d < (mx + 1) * PX * d).
    { apply Z.mul_lt_mono_pos_r; [exact Hd|]. apply Z.mul_lt_mono_pos_r; [exact HPX | lia]. }
    assert (H2 : (mx + 1) * PX * d < K * PX * d).
    { apply Z.mul_lt_mono_pos_r; [exact Hd|]. apply Z.mul_lt_mono_pos_r; [exact HPX | lia]. }
    lia.
  - exfalso.
    assert (ex <> -1074) by lia. destruct Hsh as [Hsh|]; [|contradiction].
    rewrite (pow2_split (ey + 1074) (ex + 1074)) in Hlt by lia.
    replace (ex + 1074 - (ey + 1074)) with (ex - ey) in * by lia.
    destruct (pow2_even (ex - ey) ltac:(lia)) as (h & Hh & Eh). rewrite Eh in Hlt.
    set (PY := 2 ^ (ey + 1074)) in *.
    assert (Hc : mx * (2 * h) < my).
    { apply (Z.mul_lt_mono_pos_r PY); [exact HPY|].
      replace (mx * (2 * h) * PY) with (mx * (PY * (2 * h))) by ring. exact Hlt. }
    assert (2 ^ 52 * 2 <= mx * (2 * h)).
    { replace (mx * (2 * h)) with (mx * h * 2) by ring.
      apply Z.mul_le_mono_nonneg_r; [lia|].
      apply Z.le_trans with (2 ^ 52 * 1); [lia|].
      apply Z.mul_le_mono_nonneg; lia. }
    change (2 ^ 53) with (2 ^ 52 * 2) in Hmy. lia.
Qed.

(** The nearest binary64 number is one number: two floats that are
    nearest to the same quotient have the same magnitude. *)
Lemma binary64_nearest_unique n d x y :
  0 < d -> binary64_nearest n d x -> binary64_nearest n d y -> units x = units y.
Proof.
  intros Hd Hx Hy.
  destruct (nearest_normal_form _ _ _ Hx) as (mx & ex & Ux & Rx & Ex & Sx & Vx).
  destruct (nearest_normal_form _ _ _ Hy) as (my & ey & Uy & Ry & Ey & Sy & Vy).
  destruct Hx as (_ & (x0 & Bx0 & Ux0) & Mx & Tx).
  destruct Hy as (_ & (y0 & By0 & Uy0) & My & Ty).
  destruct (Z.eq_dec (units x) (units y)) as [E|Hne]; [exact E|exfalso].
  assert (Dxy : distance n d x = distance n d y).
  { pose proof (Mx y0 By0) as H1. pose proof (My x0 Bx0) as H2.
    unfold distance in *. rewrite Ux0 in H2. rewrite Uy0 in H1. lia. }
  assert (Evx : Z.even mx = true).
  { apply Vx, (Tx y0 By0); [congruence|]. unfold distance in *. now rewrite Uy0. }
  assert (Evy : Z.even my = true).
  { apply Vy, (Ty x0 Bx0); [congruence|]. unfold distance in *. now rewrite Ux0. }
  unfold distance in *. rewrite Ux, Uy in *.
  destruct (Z.lt_trichotomy (mx * 2 ^ (ex + 1074)) (my * 2 ^ (ey + 1074)))
    as [Hlt|[Heq|Hgt]]; [|contradiction|].
  - destruct (no_even_neighbour d (n * 2 ^ 1074) mx ex my ey) as (z & Bz & Hz); auto.
    specialize (Mx z Bz). lia.
  - destruct (no_even_neighbour d (n * 2 ^ 1074) my ey mx ex) as (z & Bz & Hz); auto.
    specialize (My z Bz). lia.
Qed.

(** The digits of ['.2f']: the integer nearest to a hundred times the
    number, ties to even. *)
Lemma hundredths_spec x :
  nearest_even (100 * mant x * 2 ^ Z.max (expo x) 0) (2 ^ Z.max (- expo x) 0)
    (hundredths x).
Proof.
  unfold hundredths.
  destruct (0 <=? expo x) eqn:E; [apply Z.leb_le in E | apply Z.leb_gt in E].
  - rewrite Z.max_l, Z.max_r by lia. change (2 ^ 0) with 1.
    split; [lia | intros; exfalso; lia].
  - rewrite Z.max_r, Z.max_l by lia. change (2 ^ 0) with 1. rewrite Z.mul_1_r.
    apply round_half_even_spec. apply Z.pow_pos_nonneg; lia.
Qed.

Lemma ulp_exponent_bound n d :
  ulp_exponent n d <= Z.max (Z.log2 n - Z.log2 d - 52) (-1074).
Proof. unfold ulp_exponent, normal_exponent. destruct (_ <? _); lia. Qed.

(** When the unit in the last place of the quotient is fine enough,
    the two roundings together still give the hundredths nearest to
    the exact quotient: with [b = 100 * k], the integer nearest to
    [n / k]. *)
Lemma hundredths_accurate n b k x :
  0 <= n -> Z.pos b = 100 * k -> Z.even k = true ->
  truediv n b = Ok x ->
  expo x < 0 -> Z.pos b < 2 * 2 ^ (- expo x) ->
  2 * Z.abs (k * hundredths x - n) <= k.
Proof.
  intros Hn Hb Hk Hx He HN.
  apply truediv_rounds in Hx as [_ [[Hm _] _]].
  pose proof (hundredths_spec x) as [Hh _].
  rewrite (Z.abs_eq n) in Hm by assumption.
  unfold scaled_num, scaled_den in Hm.
  assert ((0 <=? expo x) = false) as E by (apply Z.leb_gt; lia).
  rewrite E in Hm.
  rewrite (Z.max_r (expo x) 0), (Z.max_l (- expo x) 0) in Hh by lia.
  change (2 ^ 0) with 1 in Hh.
  rewrite Z.mul_1_r in Hh.
  set (N := 2 ^ (- expo x)) in *. set (h := hundredths x) in *.
  set (m := mant x) in *. set (d := Z.pos b) in *.
  assert (0 < N) by (apply Z.pow_pos_nonneg; lia).
  apply Z.even_spec in Hk as [k' Hk'].
  set (u := h * N - 100 * m) in *. set (v := m * d - n * N) in *.
  assert (Huv : (k * h - n) * N = k * u + v) by (unfold u, v; rewrite Hb; ring).
  assert (2 * Z.abs (k * h - n) * N <= k * N + d).
  { rewrite <- Z.mul_assoc, <- (Z.abs_eq N) at 1 by lia.
    rewrite <- Z.abs_mul, Huv.
    assert (0 < k) by lia.
    assert (Z.abs (k * u + v) <= k * Z.abs u + Z.abs v).
    { etransitivity; [apply Z.abs_triangle|]. rewrite Z.abs_mul, (Z.abs_eq k); lia. }
    nia. }
  assert (2 * Z.abs (k * h - n) < k + 2) by nia.
  lia.
Qed.

Lemma truediv_expo a b x :
  truediv a b = Ok x ->
  expo x = -1074 \/ (a <> 0 /\ expo x = ulp_exponent (Z.abs a) (Z.pos b)).
Proof.
  unfold truediv. destruct (a =? 0) eqn:Ha.
  - intros [= <-]. now left.
  - apply Z.eqb_neq in Ha. cbv zeta. destruct (1024 <=? _); [discriminate|].
    intros [= <-]. now right.
Qed.

(** Below a million bytes the number printed is a count of hundredths
    nearest to the exact number of kilobytes. *)
Lemma kilobytes_accurate n x :
  0 <= n < 1000 * 1000 -> truediv n 1000 = Ok x ->
  2 * Z.abs (10 * hundredths x - n) <= 10.
Proof.
  intros Hn Hx.
  assert (He : expo x <= -42).
  { destruct (truediv_expo _ _ _ Hx) as [->|[Hn0 ->]]; [lia|].
    pose proof (ulp_exponent_bound (Z.abs n) 1000) as Hb.
    assert (Z.log2 (Z.abs n) <= Z.log2 (1000 * 1000)) by (apply Z.log2_le_mono; lia).
    change (Z.log2 (1000 * 1000)) with 19 in *. change (Z.log2 1000) with 9 in *. lia. }
  apply (hundredths_accurate n 1000 10 x); try lia; auto.
  assert (2 ^ 42 <= 2 ^ (- expo x)) by (apply Z.pow_le_mono_r; lia). lia.
Qed.

(** From a million bytes on, and below [2^53] bytes, it is a count of
    hundredths nearest to the exact number of megabytes. *)
Lemma megabytes_accurate n x :
  0 <= n < 2 ^ 53 -> truediv n (1000 * 1000) = Ok x ->
  2 * Z.abs (10000 * hundredths x - n) <= 10000.
Proof.
  intros Hn Hx.
  assert (He : expo x <= -19).
  { destruct (truediv_expo _ _ _ Hx) as [->|[Hn0 ->]]; [lia|].
    pose proof (ulp_exponent_bound (Z.abs n) (Z.pos (1000 * 1000))) as Hb.
    assert (Z.log2 (Z.abs n) <= Z.log2 (2 ^ 53 - 1)) by (apply Z.log2_le_mono; lia).
    change (Z.log2 (2 ^ 53 - 1)) with 52 in *.
    change (Z.log2 (Z.pos (1000 * 1000))) with 19 in *. lia. }
  apply (hundredths_accurate n (1000 * 1000) 10000 x); try lia; auto.
  assert (2 ^ 19 <= 2 ^ (- expo x)) by (apply Z.pow_le_mono_r; lia). lia.
Qed.

End FloatFacts.


(** ** Errors and the entry flow *)

Module ErrorFacts.

Import Spec PyFloat FloatFacts.

Lemma of_str_raises s e : PyInt.of_str s = Raise e -> e = ValueError.
Proof.
  unfold PyInt.of_str.
  destruct (PyInt.sign_of (PyInt.lstrip_space s)) as [sg body].
  destruct body as [|c body]; [now intros [= <-]|].
  destruct (Ascii.eqb c PyInt.underscore); [now intros [= <-]|].
  destruct (PyInt.digits (c :: body) 0 0 false) as [[[v count] rest]|];
    [|now intros [= <-]].
  destruct count; [now intros [= <-]|].
  destruct (PyInt.lstrip_space rest); [|now intros [= <-]].
  destruct (PyInt.max_str_digits <? S count)%nat; [now intros [= <-] | discriminate].
Qed.

Lemma int_raises x e : PyInt.int x = Raise e -> e = ValueError.
Proof. destruct x as [n|s]; [discriminate | apply of_str_raises]. Qed.

(** What [format_size] does once its argument is read as [n]. *)
Lemma format_size_of_int x n :
  PyInt.int x = Ok n ->
  format_size x
  = if n <? 1000 * 1000 then
      size_in_kb <- truediv n 1000 ;;
      Ok (PyStr.rstrip "." (PyStr.rstrip "0" (format_2f size_in_kb)) ++ txt " KB")
    else
      size_in_mb <- truediv n (1000 * 1000) ;;
      Ok (PyStr.rstrip "." (PyStr.rstrip "0" (format_2f size_in_mb)) ++ txt " MB").
Proof. intros H. unfold format_size. rewrite H. reflexivity. Qed.

Lemma format_size_value_error x :
  format_size x = Raise ValueError <-> PyInt.int x = Raise ValueError.
Proof.
  destruct (PyInt.int x) as [n|e] eqn:Hx.
  - rewrite (format_size_of_int _ _ Hx).
    split; [|discriminate].
    destruct (n <? 1000 * 1000);
      [destruct (truediv n 1000) as [y|e] eqn:Hy
      |destruct (truediv n (1000 * 1000)) as [y|e] eqn:Hy];
      cbn [bind]; try discriminate;
      apply truediv_raises in Hy; subst e; discriminate.
  - unfold format_size. rewrite Hx. cbn [bind].
    split; intros [= ->]; reflexivity.
Qed.

Lemma format_size_overflow_iff x n :
  PyInt.int x = Ok n ->
  (format_size x = Raise OverflowError
   <-> n <= - (float_limit * 1000) \/ float_limit * (1000 * 1000) <= n).
Proof.
  intros Hx. rewrite (format_size_of_int _ _ Hx).
  pose proof float_limit_pos as HL.
  assert (1000 * 1000 < float_limit) by reflexivity.
  destruct (n <? 1000 * 1000) eqn:Hk;
    [apply Z.ltb_lt in Hk | apply Z.ltb_ge in Hk].
  - pose proof (truediv_overflow n 1000) as Ho.
    destruct (truediv n 1000) as [y|e] eqn:Hy; cbn [bind].
    + split; [discriminate|]. intros H'. exfalso.
      assert (@Ok float y = Raise OverflowError) by (apply Ho; lia). discriminate.
    + apply truediv_raises in Hy. subst e.
      split; [intros _ | reflexivity].
      assert (float_limit * 1000 <= Z.abs n) by (now apply Ho). lia.
  - pose proof (truediv_overflow n (1000 * 1000)) as Ho.
    destruct (truediv n (1000 * 1000)) as [y|e] eqn:Hy; cbn [bind].
    + split; [discriminate|]. intros H'. exfalso.
      assert (@Ok float y = Raise OverflowError) by (apply Ho; lia). discriminate.
    + apply truediv_raises in Hy. subst e.
      split; [intros _ | reflexivity].
      assert (float_limit * Z.pos (1000 * 1000) <= Z.abs n) by (now apply Ho). lia.
Qed.

Lemma format_size_raises x e :
  format_size x = Raise e -> e = ValueError \/ e = OverflowError.
Proof.
  destruct (PyInt.int x) as [n|e'] eqn:Hx.
  - rewrite (format_size_of_int _ _ Hx).
    destruct (n <? 1000 * 1000);
      [destruct (truediv n 1000) as [y|e'] eqn:Hy
      |destruct (truediv n (1000 * 1000)) as [y|e'] eqn:Hy];
      cbn [bind]; try discriminate;
      apply truediv_raises in Hy; subst e'; intros [= <-]; now right.
  - unfold format_size. rewrite Hx. cbn [bind]. intros [= <-].
    left. now apply (int_raises x).
Qed.

End ErrorFacts.

Module MainFacts.

Import Spec Re ReFacts BadgeFacts Main.

Lemma main_usage w :
  List.length (argv w) <> 3%nat ->
  main w = mkoutcome (usage ++ [newline]) (Exit 1) (readme w).
Proof.
  intros H. unfold main.
  destruct (List.length (argv w) =? 3)%nat eqn:E; [|reflexivity].
  apply Nat.eqb_eq in E. contradiction.
Qed.

Lemma main_substitutes w prog arg1 arg2 stored :
  argv w = [prog; arg1; arg2] -> readme w = Some stored ->
  main w
  = match substitute (read_text stored) arg1 arg2 with
    | Raise e => mkoutcome [] (Uncaught e) (Some stored)
    | Ok content => mkoutcome [] (Exit 0) (Some (write_text (linesep w) content))
    end.
Proof. intros Ha Hr. unfold main. rewrite Ha, Hr. reflexivity. Qed.

Lemma substitute_formatted content arg1 arg2 f1 f2 :
  format_size (PyInt.OfStr arg1) = Ok f1 ->
  format_size (PyInt.OfStr arg2) = Ok f2 ->
  substitute content arg1 arg2
  = Ok (sub (badge_pattern (txt "wasm_size")) (rewrite_with f2)
          (sub (badge_pattern (txt "binary_size")) (rewrite_with f1) content)).
Proof.
  intros H1 H2. unfold substitute.
  rewrite (update_badge_formatted _ (txt "binary_size") _ _ eq_refl H1). cbn [bind].
  now rewrite (update_badge_formatted _ (txt "wasm_size") _ _ eq_refl H2).
Qed.

Lemma substitute_raises content arg1 arg2 e :
  format_size (PyInt.OfStr arg1) = Raise e
  \/ (exists f1, format_size (PyInt.OfStr arg1) = Ok f1)
     /\ format_size (PyInt.OfStr arg2) = Raise e ->
  substitute content arg1 arg2 = Raise e.
Proof.
  unfold substitute, update_badge. intros [H1|[[f1 H1] H2]]; rewrite H1; cbn [bind].
  - reflexivity.
  - rewrite H2. reflexivity.
Qed.

End MainFacts.

Section FlowClaims.

Import Spec PyFloat FloatFacts ErrorFacts Re ReFacts Main MainFacts.

(** C5, as the code has it.  With a number of arguments other than two
    the program prints the usage line, ends with status 1 and leaves
    the document as it is.  With two arguments that are integers whose
    sizes the floats can hold, and a README.md that can be read as text and
    written, it writes the document with the formatted first size put in the binary_size
    markers and then the formatted second size in the wasm_size
    markers, and ends with status 0. *)
Theorem main_flow (w : world) :
  (List.length (argv w) <> 3%nat ->
   main w = mkoutcome (usage ++ [newline]) (Exit 1) (readme w))
  /\ (forall prog arg1 arg2 stored n1 n2,
         argv w = [prog; arg1; arg2] ->
         readme w = Some stored ->
         PyInt.int (PyInt.OfStr arg1) = Ok n1 ->
         PyInt.int (PyInt.OfStr arg2) = Ok n2 ->
         - (float_limit * 1000) < n1 < float_limit * (1000 * 1000) ->
         - (float_limit * 1000) < n2 < float_limit * (1000 * 1000) ->
         exists f1 f2,
           format_size (PyInt.OfStr arg1) = Ok f1
           /\ format_size (PyInt.OfStr arg2) = Ok f2
           /\ main w
              = mkoutcome [] (Exit 0)
                  (Some (write_text (linesep w)
                           (sub (badge_pattern (txt "wasm_size")) (rewrite_with f2)
                              (sub (badge_pattern (txt "binary_size")) (rewrite_with f1)
                                 (read_text stored)))))
           /\ exit_status (final (main w)) = 0).
Proof.
  split; [apply main_usage|].
  intros prog arg1 arg2 stored n1 n2 Ha Hr H1 H2 R1 R2.
  assert (forall x n, PyInt.int x = Ok n ->
                      - (float_limit * 1000) < n < float_limit * (1000 * 1000) ->
                      exists f, format_size x = Ok f) as Hok.
  { intros x n Hx Hn. destruct (format_size x) as [f|e] eqn:Hf; [now exists f|].
    exfalso. destruct (format_size_raises _ _ Hf) as [->| ->].
    - apply format_size_value_error in Hf. congruence.
    - apply (format_size_overflow_iff _ _ Hx) in Hf. lia. }
  destruct (Hok _ _ H1 R1) as [f1 Hf1]. destruct (Hok _ _ H2 R2) as [f2 Hf2].
  exists f1, f2. split; [assumption|]. split; [assumption|].
  rewrite (main_substitutes _ _ _ _ _ Ha Hr).
  rewrite (substitute_formatted _ _ _ _ _ Hf1 Hf2). auto.
Qed.

Lemma main_flow_witness :
  exists f1 f2,
    format_size (PyInt.OfStr (txt "1500")) = Ok f1
    /\ format_size (PyInt.OfStr (txt "2000000")) = Ok f2
    /\ main (mkworld [txt "update_readme.py"; txt "1500"; txt "2000000"]
               (Some (txt "https://img.shields.io/badge/wasm_size-1-blue"))
               [newline])
       = mkoutcome [] (Exit 0)
           (Some (write_text [newline]
                    (sub (badge_pattern (txt "wasm_size")) (rewrite_with f2)
                       (sub (badge_pattern (txt "binary_size")) (rewrite_with f1)
                          (read_text (txt "https://img.shields.io/badge/wasm_size-1-blue"))))))
    /\ exit_status
         (final (main (mkworld [txt "update_readme.py"; txt "1500"; txt "2000000"]
                         (Some (txt "https://img.shields.io/badge/wasm_size-1-blue"))
                         [newline])))
       = 0.
Proof.
  apply (proj2 (main_flow
                  (mkworld [txt "update_readme.py"; txt "1500"; txt "2000000"]
                     (Some (txt "https://img.shields.io/badge/wasm_size-1-blue"))
                     [newline]))
           (txt "update_readme.py") (txt "1500") (txt "2000000")
           (txt "https://img.shields.io/badge/wasm_size-1-blue") 1500 2000000).
  - reflexivity.
  - reflexivity.
  - reflexivity.
  - reflexivity.
  - split; reflexivity.
  - split; reflexivity.
Defined.

(** C5, as it is stated, fails on two arguments that are integers when
    the quotient of one is beyond the floats: the run ends with an
    uncaught OverflowError, status 1, and writes nothing. *)
Lemma main_fails_on_large_integer :
  argv large_world = [txt "update_readme.py"; txt "1" ++ repeat "0"%char 315; txt "1000"]
  /\ PyInt.int (PyInt.OfStr (txt "1" ++ repeat "0"%char 315)) = Ok (10 ^ 315)
  /\ PyInt.int (PyInt.OfStr (txt "1000")) = Ok 1000
  /\ main large_world
     = mkoutcome [] (Uncaught OverflowError) (readme large_world)
  /\ exit_status (final (main large_world)) = 1.
Proof. repeat split; vm_compute; reflexivity. Qed.

End FlowClaims.

(** ** The decimal text of an [int] is read back by [int] *)

Module IntText.

Import Spec PyFloat.

Lemma digit_char_value d :
  0 <= d <= 9 ->
  PyInt.digit_value (digit_char d) = Some d
  /\ PyInt.is_space (digit_char d) = false
  /\ Ascii.eqb (digit_char d) "-" = false
  /\ Ascii.eqb (digit_char d) "+" = false
  /\ Ascii.eqb (digit_char d) PyInt.underscore = false.
Proof.
  intros H.
  assert (d = 0 \/ d = 1 \/ d = 2 \/ d = 3 \/ d = 4 \/ d = 5 \/ d = 6
          \/ d = 7 \/ d = 8 \/ d = 9) as Hd by lia.
  repeat (destruct Hd as [->|Hd]; [repeat split; reflexivity|]).
  subst. repeat split; reflexivity.
Qed.

Lemma digits_all_digits ds : all_digits ds ->
  forall acc count,
    PyInt.digits ds acc count false
    = Some (read_digits ds acc, (count + List.length ds)%nat, []).
Proof.
  induction 1 as [|c ds Hc Hds IH]; intros acc count; simpl.
  - now rewrite Nat.add_0_r.
  - unfold PyInt.is_digit in Hc. unfold read_digits. simpl.
    destruct (PyInt.digit_value c) as [d|]; [|discriminate].
    rewrite IH. unfold read_digits. do 2 f_equal. f_equal. lia.
Qed.

Lemma decimal_loop_digits fuel : forall n acc,
  (0 < fuel)%nat -> 0 <= n < 10 ^ Z.of_nat fuel ->
  exists ds,
    decimal_loop fuel n acc = ds ++ acc
    /\ all_digits ds
    /\ (exists c ds', ds = digit_char c :: ds' /\ 0 <= c <= 9)
    /\ forall v, read_digits ds v = v * 10 ^ Z.of_nat (List.length ds) + n.
Proof.
  induction fuel as [|fuel IH]; intros n acc Hfuel Hn.
  - lia.
  - cbn [decimal_loop].
    pose proof (Z.mod_pos_bound n 10 ltac:(lia)) as Hmod.
    destruct (digit_char_value (n mod 10) ltac:(lia)) as (Hv & _).
    destruct (n <? 10) eqn:E; [apply Z.ltb_lt in E | apply Z.ltb_ge in E].
    + exists [digit_char (n mod 10)]. rewrite Z.mod_small in * by lia.
      repeat split.
      * constructor; [|constructor]. unfold PyInt.is_digit. now rewrite Hv.
      * exists n, []. split; [reflexivity | lia].
      * intros v. unfold read_digits. cbn [fold_left List.length]. rewrite Hv.
        change (Z.of_nat 1) with 1. lia.
    + assert (Hdiv : 0 <= n / 10 < 10 ^ Z.of_nat fuel).
      { split; [apply Z.div_pos; lia|]. apply Z.div_lt_upper_bound; [lia|].
        rewrite Nat2Z.inj_succ, Z.pow_succ_r in Hn by lia. lia. }
      assert (Hfuel' : (0 < fuel)%nat).
      { destruct fuel; [simpl in Hn; lia | lia]. }
      destruct (IH (n / 10) (digit_char (n mod 10) :: acc) Hfuel' Hdiv)
        as (ds & Hds & Hall & (c & ds' & Hc & Hc9) & Hval).
      exists (ds ++ [digit_char (n mod 10)]). repeat split.
      * rewrite Hds, <- app_assoc. reflexivity.
      * apply Forall_app. split; [assumption|].
        constructor; [|constructor]. unfold PyInt.is_digit. now rewrite Hv.
      * exists c, (ds' ++ [digit_char (n mod 10)]). rewrite Hc. auto.
      * intros v. unfold read_digits in *. rewrite fold_left_app, Hval.
        cbn [fold_left]. rewrite Hv, length_app, Nat2Z.inj_add.
        cbn [List.length]. change (Z.of_nat 1) with 1.
        rewrite Z.pow_add_r by lia.
        pose proof (Z.div_mod n 10 ltac:(lia)). lia.
Qed.

Lemma decimal_fuel n : 0 <= n -> n < 10 ^ Z.of_nat (S (Z.to_nat (Z.log2 n))).
Proof.
  intros Hn. rewrite Nat2Z.inj_succ, Z2Nat.id by apply Z.log2_nonneg.
  destruct (Z.eq_dec n 0) as [->|Hne]; [reflexivity|].
  pose proof (Z.log2_spec n ltac:(lia)) as [_ H].
  eapply Z.lt_le_trans; [exact H|].
  apply Z.pow_le_mono_l. lia.
Qed.

(** The digits that [decimal] prints are those of the number. *)
Lemma decimal_reads_back n :
  0 <= n -> all_digits (decimal n) /\ read_digits (decimal n) 0 = n.
Proof.
  intros Hn. unfold decimal.
  destruct (decimal_loop_digits _ n [] (Nat.lt_0_succ _) (conj Hn (decimal_fuel _ Hn)))
    as (ds & Hds & Hall & _ & Hval).
  rewrite Hds, app_nil_r. split; [assumption|]. rewrite Hval. lia.
Qed.

(** [int] reads the decimal text of an [int] back, as long as the text
    is within the limit on the number of digits. *)
Lemma int_of_int_text n :
  (List.length (decimal (Z.abs n)) <= PyInt.max_str_digits)%nat ->
  PyInt.int (PyInt.OfStr (int_text n)) = Ok n.
Proof.
  intros Hlen. unfold int_text, decimal in *.
  destruct (decimal_loop_digits _ (Z.abs n) [] (Nat.lt_0_succ _)
              (conj (Z.abs_nonneg n) (decimal_fuel _ (Z.abs_nonneg n))))
    as (ds & Hds & Hall & (c & ds' & Hc & Hc9) & Hval).
  rewrite Hds, app_nil_r in *. clear Hds.
  destruct (digit_char_value c Hc9) as (Hv & Hsp & Hm & Hp & Hu).
  pose proof (digits_all_digits ds Hall 0 0%nat) as Hd.
  rewrite Hval in Hd. simpl in Hd. subst ds.
  cbn [PyInt.int]. unfold PyInt.of_str.
  destruct (n <? 0) eqn:E; [apply Z.ltb_lt in E | apply Z.ltb_ge in E]; cbn [app].
  - cbn [PyInt.lstrip_space]. change (PyInt.is_space "-") with false. cbv iota.
    cbn [PyInt.sign_of]. rewrite Ascii.eqb_refl, Hu, Hd.
    cbn [List.length PyInt.lstrip_space].
    destruct (PyInt.max_str_digits <? S (List.length ds'))%nat eqn:Hmax.
    + apply Nat.ltb_lt in Hmax. simpl in Hlen. lia.
    + f_equal. lia.
  - cbn [PyInt.lstrip_space]. rewrite Hsp.
    cbn [PyInt.sign_of]. rewrite Hm, Hp, Hu, Hd.
    cbn [List.length PyInt.lstrip_space].
    destruct (PyInt.max_str_digits <? S (List.length ds'))%nat eqn:Hmax.
    + apply Nat.ltb_lt in Hmax. simpl in Hlen. lia.
    + f_equal. lia.
Qed.

End IntText.

Section ErrorClaims.

Import Spec PyFloat FloatFacts ErrorFacts IntText Main MainFacts.

(** C6, as the code has it.  [format_size] raises ValueError exactly
    when [int] rejects its argument, which it never does for an [int]
    nor for the decimal text of one within the limit of digits.  For an
    argument read as [n] it raises OverflowError exactly when the
    quotient is beyond the floats, and returns a text otherwise.  An
    error raised for either argument of the program ends the run
    uncaught, with status 1 and the document as it was. *)
Theorem format_size_errors :
  (forall x, format_size x = Raise ValueError <-> PyInt.int x = Raise ValueError)
  /\ (forall n, PyInt.int (PyInt.OfInt n) = Ok n)
  /\ (forall n, (List.length (decimal (Z.abs n)) <= PyInt.max_str_digits)%nat ->
                PyInt.int (PyInt.OfStr (int_text n)) = Ok n)
  /\ (forall x n, PyInt.int x = Ok n ->
                  (format_size x = Raise OverflowError
                   <-> n <= - (float_limit * 1000)
                       \/ float_limit * (1000 * 1000) <= n))
  /\ (forall x n, PyInt.int x = Ok n ->
                  - (float_limit * 1000) < n < float_limit * (1000 * 1000) ->
                  exists s, format_size x = Ok s)
  /\ (forall w prog arg1 arg2 stored e,
         argv w = [prog; arg1; arg2] ->
         readme w = Some stored ->
         format_size (PyInt.OfStr arg1) = Raise e
         \/ (exists f1, format_size (PyInt.OfStr arg1) = Ok f1)
            /\ format_size (PyInt.OfStr arg2) = Raise e ->
         main w = mkoutcome [] (Uncaught e) (Some stored)
         /\ exit_status (final (main w)) = 1).
Proof.
  split; [exact format_size_value_error|].
  split; [reflexivity|].
  split; [exact int_of_int_text|].
  split; [exact format_size_overflow_iff|].
  split.
  - intros x n Hx Hn. destruct (format_size x) as [f|e] eqn:Hf; [now exists f|].
    exfalso. destruct (format_size_raises _ _ Hf) as [->| ->].
    + apply format_size_value_error in Hf. congruence.
    + apply (format_size_overflow_iff _ _ Hx) in Hf. lia.
  - intros w prog arg1 arg2 stored e Ha Hr He.
    rewrite (main_substitutes _ _ _ _ _ Ha Hr).
    rewrite (substitute_raises _ _ _ _ He). auto.
Qed.

Lemma format_size_errors_witness :
  exists s, format_size (PyInt.OfStr (txt "-12_345 ")) = Ok s.
Proof.
  apply (proj1 (proj2 (proj2 (proj2 (proj2 format_size_errors))))
           (PyInt.OfStr (txt "-12_345 ")) (-12345)).
  - reflexivity.
  - split; reflexivity.
Defined.

(** C6, as it is stated, fails on the text of an integer whose
    quotient is beyond the floats: [int] accepts it and an error is
    raised all the same. *)
Lemma format_size_raises_on_integer_text :
  PyInt.int (PyInt.OfStr (txt "1" ++ repeat "0"%char 315)) = Ok (10 ^ 315)
  /\ format_size (PyInt.OfStr (txt "1" ++ repeat "0"%char 315))
     = Raise OverflowError.
Proof. split; vm_compute; reflexivity. Qed.

End ErrorClaims.

(** ** What is known of a text, and the file

    A text is known by the classes of its first characters: what a
    pattern may match there is decided on them.  A document without
    carriage return is read as it is stored, and written as it is
    where the line separator is the newline. *)

Module TwoPasses.

Import Spec Re ReFacts BadgeFacts FormatFacts Idempotence Main MainFacts.

Lemma compatible_sound a k c :
  atom_matches a c = true -> in_class k c = true -> compatible a k = true.
Proof.
  destruct a as [x|], k as [[y|]|]; simpl; auto.
  - intros Hx Hy. apply Ascii.eqb_eq in Hx, Hy. subst. apply Ascii.eqb_refl.
  - intros Hx Hy. apply Ascii.eqb_eq in Hx. now subst.
Qed.

Lemma may_match_sound p : forall ks t g rest,
  starts_as ks t -> match_atoms p t = Some (g, rest) -> may_match p ks = true.
Proof.
  induction p as [|a p IH]; intros ks t g rest Hks Hm; [reflexivity|].
  destruct ks as [|k ks]; [reflexivity|].
  destruct t as [|c t]; [contradiction|].
  destruct Hks as [Hk Hks]. simpl in Hm.
  destruct (atom_matches a c) eqn:Ha; [|discriminate].
  destruct (match_atoms p t) as [[g' r']|] eqn:Hp; [|discriminate].
  simpl. rewrite (compatible_sound _ _ _ Ha Hk). simpl.
  now apply (IH ks t g' r').
Qed.

Lemma starts_as_app ks1 ks2 : forall t1 t2,
  Forall2 (fun k c => in_class k c = true) ks1 t1 ->
  starts_as ks2 t2 -> starts_as (ks1 ++ ks2) (t1 ++ t2).
Proof.
  induction ks1 as [|k ks1 IH]; intros t1 t2 H1 H2; inversion H1; subst; simpl; auto.
Qed.

Lemma starts_as_skipn n : forall ks t,
  starts_as ks t -> starts_as (skipn n ks) (skipn n t).
Proof.
  induction n as [|n IH]; intros ks t H; [exact H|].
  destruct ks as [|k ks]; [destruct t; exact I|].
  destruct t as [|c t]; [contradiction|].
  simpl. apply IH. apply H.
Qed.

Lemma head_text_classes p g :
  head_text p g -> Forall2 (fun k c => in_class k c = true) (map OfAtom p) g.
Proof. induction 1; simpl; constructor; auto. Qed.


Lemma forallb_seq (f : nat -> bool) n k :
  forallb f (seq 0 n) = true -> (k < n)%nat -> f k = true.
Proof.
  intros H Hk. rewrite forallb_forall in H. apply H. apply in_seq. lia.
Qed.

Lemma read_text_plain s : ~ In cr s -> read_text s = s.
Proof.
  induction s as [|c s IH]; intros H; [reflexivity|]. simpl.
  destruct (Ascii.eqb c cr) eqn:E.
  - apply Ascii.eqb_eq in E. subst. exfalso. apply H. now left.
  - rewrite IH; [reflexivity|]. intros Hin. apply H. now right.
Qed.

Lemma write_text_posix s : write_text [newline] s = s.
Proof.
  induction s as [|c s IH]; [reflexivity|]. simpl. rewrite IH.
  destruct (Ascii.eqb c newline) eqn:E; [|reflexivity].
  apply Ascii.eqb_eq in E. now subst.
Qed.

Lemma format_size_nonempty size f : format_size size = Ok f -> f <> [].
Proof.
  unfold format_size. destruct (PyInt.int size) as [n|]; [|discriminate].
  cbn [bind]. destruct (n <? 1000 * 1000)%Z;
    [destruct (PyFloat.truediv n 1000) | destruct (PyFloat.truediv n (1000 * 1000))];
    cbn [bind]; intros H; try discriminate; injection H as <-;
    intros E; apply app_eq_nil in E as [_ E]; discriminate.
Qed.

End TwoPasses.

Section DocumentClaims.

Import Spec Re ReFacts BadgeFacts FormatFacts Idempotence Main MainFacts TwoPasses.

(** C2, as the code has it.  What a successful run writes is made
    from the text it read, that is the stored document with its line
    ends read as newlines, by two passes from left to right: the first
    puts the first formatted size in the middle field of every
    binary_size marker it matches, the second, over the result of the
    first, the second formatted size in the middle field of every
    wasm_size marker it matches, and a pass keeps every character
    outside the middle fields it matches, in its place; each newline
    is then written as the line separator of the platform.  When the
    stored document has no carriage return and the line separator is
    the newline, the passes start from the stored document itself and
    what is written is their result. *)
Theorem main_keeps_the_rest (w : world) (prog arg1 arg2 stored written : str) :
  argv w = [prog; arg1; arg2] ->
  readme w = Some stored ->
  final (main w) = Exit 0 ->
  readme_after (main w) = Some written ->
  exists f1 f2 text1 text2,
    format_size (PyInt.OfStr arg1) = Ok f1
    /\ format_size (PyInt.OfStr arg2) = Ok f2
    /\ pass binary f1 (read_text stored) text1
    /\ pass wasm f2 text1 text2
    /\ written = write_text (linesep w) text2
    /\ (linesep w = [newline] -> ~ In cr stored ->
        pass binary f1 stored text1 /\ written = text2).
Proof.
  intros Ha Hr Hfin Hout.
  rewrite (main_substitutes _ _ _ _ _ Ha Hr) in Hfin, Hout.
  destruct (substitute (read_text stored) arg1 arg2) as [content|e] eqn:Hs;
    [|discriminate].
  cbn [readme_after] in Hout. injection Hout as <-.
  destruct (format_size (PyInt.OfStr arg1)) as [f1|e1] eqn:Hf1;
    [|unfold substitute, update_badge in Hs; rewrite Hf1 in Hs; discriminate].
  destruct (format_size (PyInt.OfStr arg2)) as [f2|e2] eqn:Hf2;
    [|unfold substitute, update_badge in Hs; rewrite Hf1, Hf2 in Hs; discriminate].
  rewrite (substitute_formatted _ _ _ _ _ Hf1 Hf2) in Hs. injection Hs as <-.
  fold binary. fold wasm.
  exists f1, f2, (sub binary (rewrite_with f1) (read_text stored)),
    (sub wasm (rewrite_with f2) (sub binary (rewrite_with f1) (read_text stored))).
  split; [reflexivity|]. split; [reflexivity|].
  split; [apply sub_pass; discriminate|].
  split; [apply sub_pass; discriminate|].
  split; [reflexivity|].
  intros Hl Hcr. rewrite Hl, write_text_posix, (read_text_plain _ Hcr).
  split; [apply sub_pass; discriminate | reflexivity].
Qed.

Lemma main_keeps_the_rest_witness :
  exists f1 f2 text1 text2,
    format_size (PyInt.OfStr (txt "12345678")) = Ok f1
    /\ format_size (PyInt.OfStr (txt "512300")) = Ok f2
    /\ pass binary f1
         (read_text
            (txt "![b](https://img.shields.io/badge/binary_size-1 MB-blue) ![w](https://img.shields.io/badge/wasm_size-2 MB-blue)"))
         text1
    /\ pass wasm f2 text1 text2
    /\ txt "![b](https://img.shields.io/badge/binary_size-12.35 MB-blue) ![w](https://img.shields.io/badge/wasm_size-512.3 KB-blue)"
       = write_text [newline] text2
    /\ ([newline] = [newline] ->
        ~ In cr
            (txt "![b](https://img.shields.io/badge/binary_size-1 MB-blue) ![w](https://img.shields.io/badge/wasm_size-2 MB-blue)") ->
        pass binary f1
          (txt "![b](https://img.shields.io/badge/binary_size-1 MB-blue) ![w](https://img.shields.io/badge/wasm_size-2 MB-blue)")
          text1
        /\ txt "![b](https://img.shields.io/badge/binary_size-12.35 MB-blue) ![w](https://img.shields.io/badge/wasm_size-512.3 KB-blue)"
           = text2).
Proof.
  apply (main_keeps_the_rest
           (mkworld [txt "update_readme.py"; txt "12345678"; txt "512300"]
              (Some (txt "![b](https://img.shields.io/badge/binary_size-1 MB-blue) ![w](https://img.shields.io/badge/wasm_size-2 MB-blue)"))
              [newline])
           (txt "update_readme.py") (txt "12345678") (txt "512300")
           (txt "![b](https://img.shields.io/badge/binary_size-1 MB-blue) ![w](https://img.shields.io/badge/wasm_size-2 MB-blue)")).
  - reflexivity.
  - reflexivity.
  - reflexivity.
  - reflexivity.
Defined.

(** C2, as it is stated, fails on that document: it has no marker of
    either badge, the run succeeds and what is written is not what
    was stored. *)
Lemma main_rewrites_line_ends :
  readme crlf_world = Some (txt "sizes" ++ [cr; newline] ++ txt "ok")
  /\ ~ occurs binary (txt "sizes" ++ [cr; newline] ++ txt "ok")
  /\ ~ occurs wasm (txt "sizes" ++ [cr; newline] ++ txt "ok")
  /\ final (main crlf_world) = Exit 0
  /\ readme_after (main crlf_world) = Some (txt "sizes" ++ [newline] ++ txt "ok")
  /\ txt "sizes" ++ [newline] ++ txt "ok" <> txt "sizes" ++ [cr; newline] ++ txt "ok".
Proof.
  split; [reflexivity|].
  split; [apply occursb_false; reflexivity|].
  split; [apply occursb_false; reflexivity|].
  split; [reflexivity|]. split; [reflexivity|]. discriminate.
Qed.

End DocumentClaims.

(** * Closed forms, composition and repeated runs *)

(** ** What the two rstrips leave *)

Module StripFacts.

Import Spec PyFloat FloatFacts ErrorFacts FormatFacts IntText.

Lemma rstrip_snoc_same c s : PyStr.rstrip c (s ++ [c]) = PyStr.rstrip c s.
Proof.
  induction s as [|a s IH]; simpl.
  - now rewrite Ascii.eqb_refl.
  - now rewrite IH.
Qed.

Lemma rstrip_snoc_other c x s : x <> c -> PyStr.rstrip c (s ++ [x]) = s ++ [x].
Proof.
  intros Hx. induction s as [|a s IH]; simpl.
  - apply Ascii.eqb_neq in Hx. now rewrite Hx.
  - rewrite IH. destruct (s ++ [x]) eqn:E; [|reflexivity].
    symmetry in E. now apply app_cons_not_nil in E.
Qed.

Lemma rstrip_without c s : ~ In c s -> PyStr.rstrip c s = s.
Proof.
  induction s as [|a s IH]; intros H; simpl; [reflexivity|].
  rewrite IH by (intros Hin; apply H; now right).
  destruct s; [|reflexivity].
  assert (a <> c) as Ha by (intros ->; apply H; now left).
  apply Ascii.eqb_neq in Ha. now rewrite Ha.
Qed.

Lemma digit_char_cases d :
  0 <= d <= 9 ->
  digit_char d <> "."%char
  /\ digit_char d <> "-"%char
  /\ (digit_char d = "0"%char <-> d = 0).
Proof.
  intros H.
  assert (d = 0 \/ d = 1 \/ d = 2 \/ d = 3 \/ d = 4 \/ d = 5 \/ d = 6
          \/ d = 7 \/ d = 8 \/ d = 9) as Hd by lia.
  repeat (destruct Hd as [->|Hd];
          [repeat split; try discriminate; try reflexivity; intros; lia|]).
  subst. repeat split; try discriminate; intros; lia.
Qed.

Lemma all_digits_no_point ds : all_digits ds -> ~ In "."%char ds.
Proof.
  intros H Hin. unfold all_digits in H. rewrite Forall_forall in H.
  specialize (H _ Hin). discriminate.
Qed.

(** What the two [rstrip]s leave of the text with two decimals. *)
Lemma rstrip_fixed2 sign h :
  0 <= h ->
  PyStr.rstrip "." (PyStr.rstrip "0" (fixed2 sign h)) = stripped sign h.
Proof.
  intros Hh. unfold fixed2, stripped, decimals.
  assert (H100 : 0 <= h / 100) by (apply Z.div_pos; lia).
  destruct (decimal_reads_back (h / 100) H100) as [Hds _].
  apply all_digits_no_point in Hds.
  set (A := (if sign then ["-"%char] else []) ++ decimal (h / 100)).
  assert (HA : ~ In "."%char A).
  { unfold A. rewrite in_app_iff. intros [Hin|Hin]; [|auto].
    destruct sign; simpl in Hin; [destruct Hin as [Hin|[]]; discriminate | contradiction]. }
  pose proof (Z.mod_pos_bound h 100 ltac:(lia)) as Hm100.
  pose proof (Z.mod_pos_bound h 10 ltac:(lia)) as Hm10.
  assert (Hd1 : 0 <= h mod 100 / 10 <= 9).
  { split; [apply Z.div_pos; lia|].
    assert (h mod 100 / 10 < 10) by (apply Z.div_lt_upper_bound; lia). lia. }
  assert (Hd2 : 0 <= h mod 10 <= 9) by lia.
  assert (Hsplit : h mod 100 = 10 * (h mod 100 / 10) + h mod 10).
  { clear. Z.to_euclidean_division_equations. lia. }
  destruct (digit_char_cases _ Hd1) as (P1 & _ & Z1).
  destruct (digit_char_cases _ Hd2) as (P2 & _ & Z2).
  rewrite !app_assoc. fold A.
  change (A ++ ["."%char; digit_char (h mod 100 / 10); digit_char (h mod 10)])
    with (A ++ [".";  digit_char (h mod 100 / 10)]%char ++ [digit_char (h mod 10)]).
  rewrite (app_assoc A).
  destruct (h mod 10 =? 0) eqn:E10; [apply Z.eqb_eq in E10 | apply Z.eqb_neq in E10].
  - rewrite (proj2 Z2 E10), rstrip_snoc_same.
    change (A ++ [".";  digit_char (h mod 100 / 10)]%char)
      with (A ++ ["."%char] ++ [digit_char (h mod 100 / 10)]).
    rewrite (app_assoc A).
    destruct (h mod 100 =? 0) eqn:E100; [apply Z.eqb_eq in E100 | apply Z.eqb_neq in E100].
    + assert (h mod 100 / 10 = 0) as E1 by lia.
      rewrite (proj2 Z1 E1), rstrip_snoc_same.
      rewrite rstrip_snoc_other by discriminate.
      rewrite rstrip_snoc_same, rstrip_without by assumption.
      now rewrite app_nil_r.
    + assert (digit_char (h mod 100 / 10) <> "0"%char) by (rewrite Z1; lia).
      rewrite rstrip_snoc_other by assumption.
      rewrite rstrip_snoc_other by assumption.
      now rewrite <- app_assoc.
  - assert (digit_char (h mod 10) <> "0"%char) by (rewrite Z2; lia).
    assert ((h mod 100 =? 0) = false) as -> by (apply Z.eqb_neq; lia).
    rewrite rstrip_snoc_other by assumption.
    rewrite rstrip_snoc_other by assumption.
    now rewrite <- !app_assoc.
Qed.

Lemma hundredths_nonneg x : 0 <= mant x -> 0 <= hundredths x.
Proof.
  intros Hm. pose proof (hundredths_spec x) as [H _].
  assert (0 < 2 ^ Z.max (- expo x) 0) by (apply Z.pow_pos_nonneg; lia).
  assert (0 <= 2 ^ Z.max (expo x) 0) by (apply Z.pow_nonneg; lia).
  assert (0 <= 100 * mant x * 2 ^ Z.max (expo x) 0) by nia.
  nia.
Qed.

Lemma truediv_hundredths_nonneg a b x : truediv a b = Ok x -> 0 <= hundredths x.
Proof.
  intros H. apply truediv_rounds in H as [_ (_ & Hm & _)].
  apply hundredths_nonneg. lia.
Qed.

(** [format_size] in closed form, once the float is known. *)
Lemma format_size_stripped x n :
  PyInt.int x = Ok n ->
  format_size x
  = if n <? 1000 * 1000 then
      fl <- truediv n 1000 ;; Ok (stripped (n <? 0) (hundredths fl) ++ txt " KB")
    else
      fl <- truediv n (1000 * 1000) ;;
      Ok (stripped (n <? 0) (hundredths fl) ++ txt " MB").
Proof.
  intros Hx. rewrite (format_size_of_int _ _ Hx).
  destruct (n <? 1000 * 1000);
    [destruct (truediv n 1000) as [fl|e] eqn:Hfl
    |destruct (truediv n (1000 * 1000)) as [fl|e] eqn:Hfl];
    cbn [bind]; try reflexivity;
    unfold format_2f;
    rewrite rstrip_fixed2 by (eapply truediv_hundredths_nonneg; eassumption);
    now rewrite (proj1 (truediv_nearest _ _ _ Hfl)).
Qed.

Lemma stripped_whole k : 0 <= k -> stripped false (100 * k) = decimal k.
Proof.
  intros Hk. unfold stripped, decimals.
  replace (100 * k / 100) with k by (Z.to_euclidean_division_equations; lia).
  replace (100 * k mod 100) with 0 by (Z.to_euclidean_division_equations; lia).
  cbn. apply app_nil_r.
Qed.

(** Below a million bytes the float is there, and what is printed is
    the count of hundredths of a kilobyte nearest to the byte count. *)
Lemma kilobytes_printed b :
  0 <= b < 1000 * 1000 ->
  exists fl,
    truediv b 1000 = Ok fl
    /\ 0 <= hundredths fl
    /\ 2 * Z.abs (10 * hundredths fl - b) <= 10
    /\ format_size (PyInt.OfInt b) = Ok (stripped false (hundredths fl) ++ txt " KB").
Proof.
  intros Hb.
  rewrite (format_size_stripped (PyInt.OfInt b) b eq_refl).
  assert ((b <? 1000 * 1000) = true) as -> by (apply Z.ltb_lt; lia).
  assert ((b <? 0) = false) as -> by (apply Z.ltb_ge; lia).
  destruct (truediv b 1000) as [fl|e] eqn:Hfl.
  - exists fl. cbn [bind]. repeat split.
    + exact (truediv_hundredths_nonneg _ _ _ Hfl).
    + exact (kilobytes_accurate b fl Hb Hfl).
  - exfalso. pose proof (truediv_raises _ _ _ Hfl). subst e.
    apply truediv_overflow in Hfl. unfold float_limit in Hfl. lia.
Qed.

(** From a million bytes on and below [2^53], the same for the
    hundredths of a megabyte. *)
Lemma megabytes_printed b :
  1000 * 1000 <= b < 2 ^ 53 ->
  exists fl,
    truediv b (1000 * 1000) = Ok fl
    /\ 0 <= hundredths fl
    /\ 2 * Z.abs (10000 * hundredths fl - b) <= 10000
    /\ format_size (PyInt.OfInt b) = Ok (stripped false (hundredths fl) ++ txt " MB").
Proof.
  intros Hb.
  rewrite (format_size_stripped (PyInt.OfInt b) b eq_refl).
  assert ((b <? 1000 * 1000) = false) as -> by (apply Z.ltb_ge; lia).
  assert ((b <? 0) = false) as -> by (apply Z.ltb_ge; lia).
  destruct (truediv b (1000 * 1000)) as [fl|e] eqn:Hfl.
  - exists fl. cbn [bind]. repeat split.
    + exact (truediv_hundredths_nonneg _ _ _ Hfl).
    + exact (megabytes_accurate b fl ltac:(lia) Hfl).
  - exfalso. pose proof (truediv_raises _ _ _ Hfl). subst e.
    apply truediv_overflow in Hfl. unfold float_limit in Hfl. lia.
Qed.

End StripFacts.

(** ** White space around the digits *)

Module SpaceFacts.

Import Spec PyFloat FloatFacts ErrorFacts FormatFacts IntText.

Lemma lstrip_space_app ws s : spaces ws -> PyInt.lstrip_space (ws ++ s) = PyInt.lstrip_space s.
Proof. induction 1 as [|c ws Hc _ IH]; simpl; [reflexivity | now rewrite Hc]. Qed.

Lemma lstrip_space_all ws : spaces ws -> PyInt.lstrip_space ws = [].
Proof. intros H. rewrite <- (app_nil_r ws). now rewrite lstrip_space_app. Qed.

Lemma space_ends_digits c :
  PyInt.is_space c = true ->
  PyInt.digit_value c = None /\ Ascii.eqb c PyInt.underscore = false.
Proof.
  destruct c as [[] [] [] [] [] [] [] []]; intros H; try discriminate H;
    split; reflexivity.
Qed.

Lemma digits_before_spaces ds : all_digits ds ->
  forall ws acc count, spaces ws ->
    PyInt.digits (ds ++ ws) acc count false
    = Some (read_digits ds acc, (count + List.length ds)%nat, ws).
Proof.
  induction 1 as [|c ds Hc Hds IH]; intros ws acc count Hws.
  - cbn [app List.length]. rewrite Nat.add_0_r. unfold read_digits. cbn [fold_left].
    destruct Hws as [|w ws Hw Hws]; [reflexivity|].
    destruct (space_ends_digits w Hw) as [Hv Hu]. simpl. now rewrite Hv, Hu.
  - unfold PyInt.is_digit in Hc. unfold read_digits. simpl.
    destruct (PyInt.digit_value c) as [d|]; [|discriminate].
    rewrite IH by assumption. unfold read_digits. do 2 f_equal. f_equal. lia.
Qed.

Lemma int_of_spaced_text n ws1 ws2 :
  spaces ws1 -> spaces ws2 ->
  (List.length (decimal (Z.abs n)) <= PyInt.max_str_digits)%nat ->
  PyInt.int (PyInt.OfStr (ws1 ++ int_text n ++ ws2)) = Ok n.
Proof.
  intros H1 H2 Hlen. unfold int_text, decimal in *.
  destruct (decimal_loop_digits _ (Z.abs n) [] (Nat.lt_0_succ _)
              (conj (Z.abs_nonneg n) (decimal_fuel _ (Z.abs_nonneg n))))
    as (ds & Hds & Hall & (c & ds' & Hc & Hc9) & Hval).
  rewrite Hds, app_nil_r in *. clear Hds.
  destruct (digit_char_value c Hc9) as (Hv & Hsp & Hm & Hp & Hu).
  pose proof (digits_before_spaces ds Hall ws2 0 0%nat H2) as Hd.
  rewrite Hval in Hd. simpl in Hd. subst ds.
  cbn [PyInt.int]. unfold PyInt.of_str. rewrite lstrip_space_app by assumption.
  destruct (n <? 0) eqn:E; [apply Z.ltb_lt in E | apply Z.ltb_ge in E]; cbn [app].
  - cbn [PyInt.lstrip_space]. change (PyInt.is_space "-") with false. cbv iota.
    cbn [PyInt.sign_of]. rewrite Ascii.eqb_refl.
    cbn [app] in Hd. rewrite Hu, Hd, (lstrip_space_all _ H2).
    cbn [List.length].
    destruct (PyInt.max_str_digits <? S (List.length ds'))%nat eqn:Hmax.
    + apply Nat.ltb_lt in Hmax. simpl in Hlen. lia.
    + f_equal. lia.
  - cbn [PyInt.lstrip_space]. rewrite Hsp.
    cbn [PyInt.sign_of]. rewrite Hm, Hp.
    cbn [app] in Hd. rewrite Hu, Hd, (lstrip_space_all _ H2).
    cbn [List.length].
    destruct (PyInt.max_str_digits <? S (List.length ds'))%nat eqn:Hmax.
    + apply Nat.ltb_lt in Hmax. simpl in Hlen. lia.
    + f_equal. lia.
Qed.

End SpaceFacts.

(** ** What [format_size] returns *)

Section FormatClaims.

Import Spec PyFloat FloatFacts StripFacts.

(** C1, as the code has it.  For every byte count [b] from 0 up to the
    limit of the floats, [format_size b] is a count [h] of hundredths
    printed with at most two decimals, the zeros that end them and
    then the point that ends the number taken off, followed by " KB"
    when [b] is below 1,000,000 and by " MB" otherwise, where the
    float [x] of the division is the binary64 number nearest to
    [b / 1000], respectively [b / 1000000], and [h] is the count of
    hundredths nearest to [x], ties to even.  Below [2^53] bytes [h]
    is also a count of hundredths nearest to the exact quotient. *)
Theorem format_size_renders (b : Z) :
  0 <= b -> b < float_limit * (1000 * 1000) ->
  let divisor := if b <? 1000 * 1000 then 1000%positive else (1000 * 1000)%positive in
  let unit := if b <? 1000 * 1000 then txt " KB" else txt " MB" in
  exists x h,
    truediv b divisor = Ok x
    /\ binary64_nearest b (Z.pos divisor) x
    /\ nearest_even (100 * mant x * 2 ^ Z.max (expo x) 0) (2 ^ Z.max (- expo x) 0) h
    /\ (b < 2 ^ 53 ->
        2 * Z.abs (Z.pos divisor / 100 * h - b) <= Z.pos divisor / 100)
    /\ format_size (PyInt.OfInt b) = Ok (stripped false h ++ unit).
Proof.
  intros Hb Hlim. cbv zeta.
  assert (Hneg : (b <? 0) = false) by (apply Z.ltb_ge; lia).
  rewrite (format_size_stripped (PyInt.OfInt b) b eq_refl), Hneg.
  destruct (b <? 1000 * 1000) eqn:Hk;
    [apply Z.ltb_lt in Hk | apply Z.ltb_ge in Hk].
  - destruct (truediv b 1000) as [x|e] eqn:Hx.
    + exists x, (hundredths x). pose proof (truediv_nearest _ _ _ Hx) as [_ Hn].
      rewrite Z.abs_eq in Hn by assumption.
      split; [reflexivity|]. split; [exact Hn|].
      split; [apply hundredths_spec|]. split; [|reflexivity].
      intros _. change (Z.pos 1000 / 100) with 10.
      apply kilobytes_accurate; auto.
    + exfalso. pose proof (truediv_raises _ _ _ Hx). subst e.
      apply truediv_overflow in Hx. unfold float_limit in Hx. lia.
  - destruct (truediv b (1000 * 1000)) as [x|e] eqn:Hx.
    + exists x, (hundredths x). pose proof (truediv_nearest _ _ _ Hx) as [_ Hn].
      rewrite Z.abs_eq in Hn by assumption.
      split; [reflexivity|]. split; [exact Hn|].
      split; [apply hundredths_spec|]. split; [|reflexivity].
      intros H53. change (Z.pos (1000 * 1000) / 100) with 10000.
      apply megabytes_accurate; auto.
    + exfalso. pose proof (truediv_raises _ _ _ Hx). subst e.
      apply truediv_overflow in Hx. lia.
Qed.

Lemma format_size_renders_witness :
  exists x h,
    truediv 1234567 (1000 * 1000) = Ok x
    /\ binary64_nearest 1234567 (Z.pos (1000 * 1000)) x
    /\ nearest_even (100 * mant x * 2 ^ Z.max (expo x) 0) (2 ^ Z.max (- expo x) 0) h
    /\ (1234567 < 2 ^ 53 ->
        2 * Z.abs (Z.pos (1000 * 1000) / 100 * h - 1234567)
        <= Z.pos (1000 * 1000) / 100)
    /\ format_size (PyInt.OfInt 1234567) = Ok (stripped false h ++ txt " MB").
Proof.
  apply (format_size_renders 1234567).
  - lia.
  - reflexivity.
Defined.

(** C1, as it is stated, fails on a byte count whose quotient is beyond
    the floats: nothing is returned. *)
Lemma format_size_returns_nothing :
  0 <= 10 ^ 315 /\ ~ exists s, format_size (PyInt.OfInt (10 ^ 315)) = Ok s.
Proof.
  split; [lia|]. intros [s Hs].
  assert (H : format_size (PyInt.OfInt (10 ^ 315)) = Raise OverflowError)
    by (vm_compute; reflexivity).
  congruence.
Qed.

End FormatClaims.

(** ** The text of a size *)

Section FormatProperties.

Import Spec PyFloat FloatFacts ErrorFacts FormatFacts IntText StripFacts SpaceFacts.

(** X1.  Whatever integer [format_size] is given, as a value or as a
    text, what it returns is a count [h] of hundredths printed with at
    most two decimals, no zero that ends them and no point that ends
    the number, after a minus sign exactly when the integer is
    negative, and then " KB" below a million and " MB" from a million
    on. *)
Theorem format_size_shape (x : PyInt.arg) (n : Z) (f : str) :
  PyInt.int x = Ok n ->
  format_size x = Ok f ->
  exists h,
    0 <= h
    /\ f = stripped (n <? 0) h ++ (if n <? 1000 * 1000 then txt " KB" else txt " MB").
Proof.
  intros Hx Hf. rewrite (format_size_stripped _ _ Hx) in Hf.
  destruct (n <? 1000 * 1000);
    [destruct (truediv n 1000) as [fl|e] eqn:Hfl
    |destruct (truediv n (1000 * 1000)) as [fl|e] eqn:Hfl];
    cbn [bind] in Hf; try discriminate; injection Hf as <-;
    exists (hundredths fl); split; auto;
    eapply truediv_hundredths_nonneg; eassumption.
Qed.

Lemma format_size_shape_witness :
  exists h,
    0 <= h
    /\ txt "-1.5 KB"
       = stripped (-1500 <? 0) h
           ++ (if -1500 <? 1000 * 1000 then txt " KB" else txt " MB").
Proof.
  apply (format_size_shape (PyInt.OfStr (txt " -1_500")) (-1500) (txt "-1.5 KB")).
  - reflexivity.
  - reflexivity.
Defined.

(** X2.  A count [b] of bytes below a million, not half way between
    two hundredths of a kilobyte, is printed as the nearest count of
    hundredths of a kilobyte, [(b + 5) / 10] of them. *)
Theorem format_size_kilobytes (b : Z) :
  0 <= b < 1000 * 1000 -> b mod 10 <> 5 ->
  format_size (PyInt.OfInt b) = Ok (stripped false ((b + 5) / 10) ++ txt " KB").
Proof.
  intros Hb Htie. destruct (kilobytes_printed b Hb) as (fl & _ & H0 & Hacc & ->).
  do 3 f_equal. Z.to_euclidean_division_equations. lia.
Qed.

Lemma format_size_kilobytes_witness :
  format_size (PyInt.OfInt 1536) = Ok (txt "1.54 KB").
Proof.
  apply (format_size_kilobytes 1536).
  - lia.
  - vm_compute. discriminate.
Defined.

(** X3.  A count [b] of bytes from a million on and below [2^53], not
    half way between two hundredths of a megabyte, is printed as the
    nearest count of hundredths of a megabyte, [(b + 5000) / 10000] of
    them. *)
Theorem format_size_megabytes (b : Z) :
  1000 * 1000 <= b < 2 ^ 53 -> b mod 10000 <> 5000 ->
  format_size (PyInt.OfInt b) = Ok (stripped false ((b + 5000) / 10000) ++ txt " MB").
Proof.
  intros Hb Htie. destruct (megabytes_printed b Hb) as (fl & _ & H0 & Hacc & ->).
  do 3 f_equal. Z.to_euclidean_division_equations. lia.
Qed.

Lemma format_size_megabytes_witness :
  format_size (PyInt.OfInt 12345678) = Ok (txt "12.35 MB").
Proof.
  apply (format_size_megabytes 12345678).
  - lia.
  - vm_compute. discriminate.
Defined.

(** X4.  A whole number of kilobytes below a thousand, and a whole
    number of megabytes below [2^53] bytes, is printed as that number
    without a point: [k] and the unit. *)
Theorem format_size_whole_units (k : Z) :
  (0 <= k < 1000 ->
   format_size (PyInt.OfInt (1000 * k)) = Ok (decimal k ++ txt " KB"))
  /\ (1 <= k -> 1000 * 1000 * k < 2 ^ 53 ->
      format_size (PyInt.OfInt (1000 * 1000 * k)) = Ok (decimal k ++ txt " MB")).
Proof.
  split.
  - intros Hk.
    destruct (kilobytes_printed (1000 * k) ltac:(lia)) as (fl & _ & H0 & Hacc & ->).
    replace (hundredths fl) with (100 * k) by lia.
    now rewrite stripped_whole by lia.
  - intros Hk Hlim.
    destruct (megabytes_printed (1000 * 1000 * k) ltac:(lia)) as (fl & _ & H0 & Hacc & ->).
    replace (hundredths fl) with (100 * k) by lia.
    now rewrite stripped_whole by lia.
Qed.

Lemma format_size_whole_units_witness :
  format_size (PyInt.OfInt (1000 * 512)) = Ok (txt "512 KB")
  /\ format_size (PyInt.OfInt (1000 * 1000 * 37)) = Ok (txt "37 MB").
Proof.
  split.
  - apply (proj1 (format_size_whole_units 512)). lia.
  - apply (proj2 (format_size_whole_units 37)); lia.
Defined.

(** X5.  Below a million bytes the number printed is at most 1000,
    and it is 1000, before " KB", exactly from 999995 bytes on. *)
Theorem format_size_kilobytes_top (b : Z) :
  0 <= b < 1000 * 1000 ->
  exists h,
    0 <= h <= 100000
    /\ format_size (PyInt.OfInt b) = Ok (stripped false h ++ txt " KB")
    /\ (h = 100000 <-> 999995 <= b).
Proof.
  intros Hb. destruct (kilobytes_printed b Hb) as (fl & Hfl & H0 & Hacc & ->).
  exists (hundredths fl). split; [lia|]. split; [reflexivity|].
  split; [lia|]. intros Htop.
  destruct (Z.eq_dec b 999995) as [->|Hne]; [|lia].
  vm_compute in Hfl. injection Hfl as <-. reflexivity.
Qed.

Lemma format_size_kilobytes_top_witness :
  exists h,
    0 <= h <= 100000
    /\ format_size (PyInt.OfInt 999995) = Ok (stripped false h ++ txt " KB")
    /\ (h = 100000 <-> 999995 <= 999995).
Proof.
  apply (format_size_kilobytes_top 999995). lia.
Defined.

(** X6.  The decimal text of an integer, with white space before it
    and after it, is formatted as the integer is, as long as it has no
    more digits than [int] accepts. *)
Theorem format_size_of_spaced_text (n : Z) (ws1 ws2 : str) :
  spaces ws1 -> spaces ws2 ->
  (List.length (decimal (Z.abs n)) <= PyInt.max_str_digits)%nat ->
  format_size (PyInt.OfStr (ws1 ++ int_text n ++ ws2)) = format_size (PyInt.OfInt n).
Proof.
  intros H1 H2 Hlen. unfold format_size.
  now rewrite (int_of_spaced_text n ws1 ws2 H1 H2 Hlen).
Qed.

Lemma format_size_of_spaced_text_witness :
  format_size (PyInt.OfStr (txt "  " ++ int_text 1536 ++ [newline]))
  = format_size (PyInt.OfInt 1536).
Proof.
  apply (format_size_of_spaced_text 1536 (txt "  ") [newline]).
  - repeat constructor.
  - repeat constructor.
  - vm_compute. lia.
Defined.

End FormatProperties.

(** ** A pass, line by line *)

Module LineFacts.

Import Spec Re ReFacts BadgeFacts FormatFacts Idempotence.

Lemma match_atoms_line p b :
  (forall a, In a p -> atom_matches a newline = false) ->
  forall u,
    match_atoms p (u ++ newline :: b)
    = match match_atoms p u with
      | Some (g, r) => Some (g, r ++ newline :: b)
      | None => None
      end.
Proof.
  induction p as [|a p IH]; intros Hp u; [reflexivity|].
  destruct u as [|c u]; simpl.
  - now rewrite (Hp a (or_introl eq_refl)).
  - destruct (atom_matches a c); [|reflexivity].
    rewrite IH by (intros a' Ha'; apply Hp; now right).
    destruct (match_atoms p u) as [[g r]|]; reflexivity.
Qed.

Lemma startswith_line lit b : ~ In newline lit ->
  forall u, PyStr.startswith lit (u ++ newline :: b) = PyStr.startswith lit u.
Proof.
  induction lit as [|x lit IH]; intros Hl u; [reflexivity|].
  assert (Hx : Ascii.eqb x newline = false)
    by (apply Ascii.eqb_neq; intros ->; apply Hl; now left).
  destruct u as [|c u]; simpl.
  - now rewrite Hx.
  - rewrite IH; [reflexivity|]. intros Hin. apply Hl. now right.
Qed.

Lemma lazy_until_line lit b : ~ In newline lit -> lit <> [] ->
  forall u,
    lazy_until lit (u ++ newline :: b)
    = match lazy_until lit u with
      | Some (g, r) => Some (g, r ++ newline :: b)
      | None => None
      end.
Proof.
  intros Hl Hne. induction u as [|c u IH].
  - pose proof (startswith_line lit b Hl []) as Hs. cbn [app] in Hs.
    cbn [app lazy_until]. rewrite Hs.
    destruct lit as [|x lit]; [congruence|]. cbn [PyStr.startswith].
    now rewrite Ascii.eqb_refl.
  - pose proof (startswith_line lit b Hl (c :: u)) as Hs. cbn [app] in Hs.
    cbn [app lazy_until]. rewrite Hs.
    destruct (PyStr.startswith lit (c :: u)) eqn:Es.
    + apply startswith_spec in Es as [r Er].
      change (c :: u ++ newline :: b) with ((c :: u) ++ newline :: b).
      rewrite Er, <- app_assoc. now rewrite !skipn_length_app.
    + destruct (Ascii.eqb c newline); [reflexivity|]. rewrite IH.
      destruct (lazy_until lit u) as [[g r]|]; reflexivity.
Qed.

Lemma match_here_line p b :
  (forall a, In a (head p) -> atom_matches a newline = false) ->
  ~ In newline (tail p) -> tail p <> [] ->
  forall u,
    match_here p (u ++ newline :: b)
    = match match_here p u with
      | Some (m, r) => Some (m, r ++ newline :: b)
      | None => None
      end.
Proof.
  intros Hh Hl Hne u. unfold match_here. rewrite match_atoms_line by assumption.
  destruct (match_atoms (head p) u) as [[g1 s1]|]; [|reflexivity].
  rewrite lazy_until_line by assumption.
  destruct (lazy_until (tail p) s1) as [[g2 r]|]; reflexivity.
Qed.

Lemma sub_line p repl b :
  (forall a, In a (head p) -> atom_matches a newline = false) ->
  ~ In newline (tail p) -> tail p <> [] ->
  forall n a, (List.length a <= n)%nat ->
    sub p repl (a ++ newline :: b) = sub p repl a ++ newline :: sub p repl b.
Proof.
  intros Hh Hl Hne. induction n as [|n IH]; intros a Hn.
  - destruct a; [|simpl in Hn; lia]. cbn [app].
    rewrite (sub_eq p repl (newline :: b)), (sub_eq p repl []) by assumption.
    pose proof (match_here_line p b Hh Hl Hne []) as Hm. cbn [app] in Hm.
    rewrite Hm. destruct (match_here p []) as [[m r]|] eqn:E; [|reflexivity].
    exfalso. apply match_here_shorter in E; [simpl in E; lia | assumption].
  - rewrite (sub_eq p repl (a ++ newline :: b)), (sub_eq p repl a) by assumption.
    rewrite match_here_line by assumption.
    destruct (match_here p a) as [[m r]|] eqn:E.
    + rewrite <- app_assoc. f_equal. apply IH.
      apply match_here_shorter in E; [lia | assumption].
    + destruct a as [|c a].
      * cbn [app]. f_equal.
      * cbn [app]. f_equal. apply IH. simpl in Hn. lia.
Qed.

Lemma badge_atoms_no_newline name :
  ~ In newline name ->
  forall a, In a (head (badge_pattern name)) -> atom_matches a newline = false.
Proof.
  intros Hn a Ha. unfold badge_pattern in Ha. cbn [head] in Ha.
  apply in_map_iff in Ha as (c & <- & Hc).
  unfold atom_of_char. destruct (Ascii.eqb c ".") eqn:E; [reflexivity|].
  cbn [atom_matches]. apply Ascii.eqb_neq. intros ->.
  rewrite !in_app_iff in Hc. destruct Hc as [Hc|[Hc|Hc]]; [|auto|].
  - revert Hc. vm_compute. intuition discriminate.
  - revert Hc. vm_compute. intuition discriminate.
Qed.

End LineFacts.

(** ** A pass over the result of a pass *)

Module OverwriteFacts.

Import Spec Re ReFacts BadgeFacts FormatFacts Idempotence.

Section OnePass.

Variable p : pattern.
Hypothesis tail_nonempty : tail p <> [].
Hypothesis tail_one_line : ~ In newline (tail p).
Hypothesis tail_short : (List.length (tail p) <= List.length (head p))%nat.

(** A marker at the head of the result of a pass was a marker at the
    head of its text. *)
Lemma marker_back f s out : pass p f s out -> marker_at p out -> marker_at p s.
Proof.
  intros Hp Hmk.
  apply marker_at_reach in Hmk as (G1 & x & E & HG1 & Hx).
  pose proof (head_text_length _ _ HG1) as Hl.
  destruct (pass_window p f tail_nonempty tail_one_line tail_short _ _ Hp
              (List.length G1)) as [Hf Hr]; [lia|].
  rewrite E, firstn_app, Nat.sub_diag, firstn_all in Hf.
  cbn [firstn] in Hf. rewrite app_nil_r in Hf.
  rewrite E, skipn_length_app in Hr.
  apply marker_at_reach. exists G1, (skipn (List.length G1) s).
  split; [|auto]. rewrite <- Hf at 1. now rewrite firstn_skipn.
Qed.

Variables f1 f2 : str.
Hypothesis f1_one_line : ~ In newline f1.
Hypothesis f1_first : forall rest, first_at (tail p) f1 rest.

(** A pass over the result of an earlier pass does what it would have
    done over the text of the earlier one. *)
Lemma pass_overwrite s o1 :
  pass p f1 s o1 -> forall o2, pass p f2 s o2 -> pass p f2 o1 o2.
Proof.
  induction 1 as [|c s o1 Hno H IH|g1 g2 rest o1 H1 H2 H3 H IH]; intros o2 H'.
  - exact H'.
  - inversion H' as [|c' s' o' Hno' Hp' Es Eo|g1' g2' rest' o' H1' H2' H3' Hp' Es Eo].
    + subst. apply pass_keep; [|now apply IH].
      intros Hmk. apply Hno.
      exact (marker_back f1 _ _ (pass_keep p f1 c s o1 Hno H) Hmk).
    + exfalso. apply Hno. rewrite <- Es. now exists g1', g2', rest'.
  - remember (g1 ++ g2 ++ tail p ++ rest) as s eqn:Es.
    destruct H' as [|c' s' o' Hno' Hp'|g1' g2' rest' o' H1' H2' H3' Hp'].
    + exfalso. symmetry in Es. apply app_eq_nil in Es as [_ Es].
      apply app_eq_nil in Es as [_ Es]. apply app_eq_nil in Es as [Es _]. congruence.
    + exfalso. apply Hno'. rewrite Es. now exists g1, g2, rest.
    + assert (Hl : List.length g1' = List.length g1)
        by (rewrite (head_text_length _ _ H1), (head_text_length _ _ H1'); reflexivity).
      destruct (app_same_length _ _ _ _ Hl Es) as [-> E2].
      destruct (first_at_unique _ _ _ _ _ H3' H3 E2) as [-> ->].
      apply pass_rewrite; auto.
Qed.

Lemma occurs_kept s out : pass p f1 s out -> (occurs p out <-> occurs p s).
Proof.
  induction 1 as [|c s out Hno H IH|g1 g2 rest out H1 H2 H3 H IH].
  - reflexivity.
  - split; intros (pre & t & E & Ht); destruct pre as [|x pre]; cbn [app] in E.
    + exfalso. apply Hno. subst t.
      exact (marker_back f1 _ _ (pass_keep p f1 c s out Hno H) Ht).
    + injection E as <- ->.
      destruct (proj1 IH) as (pre' & t' & -> & Ht'); [now exists pre, t|].
      now exists (c :: pre'), t'.
    + exfalso. apply Hno. now subst t.
    + injection E as <- ->.
      destruct (proj2 IH) as (pre' & t' & -> & Ht'); [now exists pre, t|].
      now exists (c :: pre'), t'.
  - split; intros _.
    + exists [], (g1 ++ g2 ++ tail p ++ rest). split; [reflexivity|].
      now exists g1, g2, rest.
    + exists [], (g1 ++ f1 ++ tail p ++ out). split; [reflexivity|].
      now exists g1, f1, out.
Qed.

End OnePass.

Lemma badge_short name :
  (List.length (tail (badge_pattern name)) <= List.length (head (badge_pattern name)))%nat.
Proof.
  unfold badge_pattern. cbn [head tail]. rewrite length_map, !length_app. simpl. lia.
Qed.

Lemma badge_tail_one_line name : ~ In newline (tail (badge_pattern name)).
Proof. vm_compute. intuition discriminate. Qed.

End OverwriteFacts.

(** ** A text with one marker *)

Module SingleFacts.

Import Spec Re ReFacts BadgeFacts FormatFacts Idempotence Main MainFacts.



End SingleFacts.

(** ** One call of update_badge *)

Section BadgeProperties.

Import Spec Re ReFacts BadgeFacts FormatFacts Idempotence LineFacts OverwriteFacts
  SingleFacts.

(** X7.  [update_badge] works line by line: for a badge name without
    operator and without newline, the result on two texts joined by a
    newline is the two results joined by a newline, and it raises when
    the size cannot be formatted. *)
Theorem update_badge_line_by_line (a b badge_name : str) (size : PyInt.arg) :
  plain badge_name = true ->
  ~ In newline badge_name ->
  update_badge (a ++ newline :: b) badge_name size
  = (first <- update_badge a badge_name size ;;
     rest <- update_badge b badge_name size ;;
     Ok (first ++ newline :: rest)).
Proof.
  intros Hp Hn. rewrite !(update_badge_plain _ _ _ Hp).
  destruct (format_size size) as [f|e]; [|reflexivity]. cbn [bind]. f_equal.
  apply (sub_line _ _ b (badge_atoms_no_newline _ Hn)) with (n := List.length a).
  - vm_compute. intuition discriminate.
  - discriminate.
  - lia.
Qed.

Lemma update_badge_line_by_line_witness :
  update_badge
    (txt "![b](https://img.shields.io/badge/binary_size-1 KB-blue)" ++ newline
       :: txt "https://img.shields.io/badge/binary_size--blue")
    (txt "binary_size") (PyInt.OfInt 1536)
  = Ok (txt "![b](https://img.shields.io/badge/binary_size-1.54 KB-blue)" ++ newline
          :: txt "https://img.shields.io/badge/binary_size-1.54 KB-blue").
Proof.
  apply (update_badge_line_by_line
           (txt "![b](https://img.shields.io/badge/binary_size-1 KB-blue)")
           (txt "https://img.shields.io/badge/binary_size--blue")
           (txt "binary_size") (PyInt.OfInt 1536)).
  - reflexivity.
  - vm_compute. intuition discriminate.
Defined.

(** X8.  The last call wins, for a badge name without operator: a
    call of [update_badge] on the result of an earlier call for the
    same badge gives what it gives on the text of the earlier call,
    whatever size the earlier call wrote. *)
Theorem update_badge_last_wins
    (content badge_name : str) (size1 size2 : PyInt.arg) (out1 : str) :
  plain badge_name = true ->
  update_badge content badge_name size1 = Ok out1 ->
  update_badge out1 badge_name size2 = update_badge content badge_name size2.
Proof.
  intros Hp H1.
  destruct (format_size size1) as [f1|e] eqn:Hf1;
    [|unfold update_badge in H1; rewrite Hf1 in H1; discriminate].
  rewrite (update_badge_formatted _ _ _ _ Hp Hf1) in H1. injection H1 as <-.
  rewrite !(update_badge_plain _ _ _ Hp). destruct (format_size size2) as [f2|e]; [|reflexivity].
  cbn [bind]. f_equal. set (p := badge_pattern badge_name).
  pose proof (format_size_text _ _ Hf1) as Hsize.
  apply (pass_unique p f2 (badge_tail _)
           (sub p (rewrite_with f1) content)).
  - apply sub_pass, badge_tail.
  - apply (pass_overwrite p (badge_tail _) (badge_tail_one_line _) (badge_short _)
             f1 f2) with (s := content).
    + now apply size_text_no_char.
    + intros rest. now apply size_first_at.
    + apply sub_pass, badge_tail.
    + apply sub_pass, badge_tail.
Qed.

Lemma update_badge_last_wins_witness :
  update_badge (txt "https://img.shields.io/badge/wasm_size-1.54 KB-blue -blue")
    (txt "wasm_size") (PyInt.OfStr (txt "2000000"))
  = update_badge (txt "https://img.shields.io/badge/wasm_size-old-blue -blue")
      (txt "wasm_size") (PyInt.OfStr (txt "2000000")).
Proof.
  apply (update_badge_last_wins
           (txt "https://img.shields.io/badge/wasm_size-old-blue -blue")
           (txt "wasm_size") (PyInt.OfInt 1536) (PyInt.OfStr (txt "2000000"))).
  - reflexivity.
  - reflexivity.
Defined.

(** X9.  For a badge name without operator, [update_badge] neither
    makes a marker nor removes one: its result has a marker of the
    badge exactly when its text has one. *)
Theorem update_badge_keeps_presence
    (content badge_name : str) (size : PyInt.arg) (out : str) :
  plain badge_name = true ->
  update_badge content badge_name size = Ok out ->
  (occurs (badge_pattern badge_name) out
   <-> occurs (badge_pattern badge_name) content).
Proof.
  intros Hp H.
  destruct (format_size size) as [f|e] eqn:Hf;
    [|unfold update_badge in H; rewrite Hf in H; discriminate].
  rewrite (update_badge_formatted _ _ _ _ Hp Hf) in H. injection H as <-.
  apply (occurs_kept _ (badge_tail _) (badge_tail_one_line _) (badge_short _) f).
  - apply size_text_no_char; [reflexivity | exact (format_size_text _ _ Hf)].
  - apply sub_pass, badge_tail.
Qed.

Lemma update_badge_keeps_presence_witness :
  occurs (badge_pattern (txt "wasm_size"))
    (txt "(https://img.shields.io/badge/wasm_size-2 MB-blue)")
  <-> occurs (badge_pattern (txt "wasm_size"))
        (txt "(https://img.shields.io/badge/wasm_size-old-blue)").
Proof.
  apply (update_badge_keeps_presence
           (txt "(https://img.shields.io/badge/wasm_size-old-blue)")
           (txt "wasm_size") (PyInt.OfInt 2000000)).
  - reflexivity.
  - reflexivity.
Defined.



End BadgeProperties.

(** ** A pass for one pattern and the markers of another *)

Module ForeignFacts.

Import Spec Re ReFacts BadgeFacts FormatFacts Idempotence Main MainFacts TwoPasses.

Section Foreign.

Variables p q : pattern.
Variable f : str.
Hypothesis p_tail : tail p = blue.
Hypothesis q_tail : tail q = blue.
Hypothesis p_line : forall g, head_text (head p) g -> ~ In newline g.
Hypothesis p_q_apart : apart p q = true.
Hypothesis f_size : size_text f.
Hypothesis f_nonempty : f <> [].

Lemma apart_off j :
  (j < List.length (head q))%nat ->
  may_match (skipn j (head q)) (rewritten_classes p) = false.
Proof.
  intros Hj. unfold apart in p_q_apart.
  apply andb_true_iff in p_q_apart as [H _]. apply andb_true_iff in H as [H _].
  apply andb_true_iff in H as [H _].
  pose proof (forallb_seq _ _ j H Hj) as Hc. cbv beta in Hc.
  now apply negb_true_iff in Hc.
Qed.

Lemma apart_inside k :
  (k < List.length (head p))%nat ->
  may_match (head q) (skipn k (rewritten_classes p)) = false.
Proof.
  intros Hk. unfold apart in p_q_apart.
  apply andb_true_iff in p_q_apart as [H _]. apply andb_true_iff in H as [H _].
  apply andb_true_iff in H as [_ H].
  pose proof (forallb_seq _ _ k H Hk) as Hc. cbv beta in Hc.
  now apply negb_true_iff in Hc.
Qed.

Lemma apart_blue k :
  (k < List.length (head p))%nat ->
  may_match (map Lit blue) (skipn k (rewritten_classes p)) = false.
Proof.
  intros Hk. unfold apart in p_q_apart.
  apply andb_true_iff in p_q_apart as [H _]. apply andb_true_iff in H as [_ H].
  pose proof (forallb_seq _ _ k H Hk) as Hc. cbv beta in Hc.
  now apply negb_true_iff in Hc.
Qed.

Lemma apart_h :
  (exists r, head p = Lit "h" :: r) /\ (exists r, head q = Lit "h" :: r).
Proof.
  unfold apart in p_q_apart. apply andb_true_iff in p_q_apart as [_ H].
  destruct (head p) as [|[x|] rp]; try discriminate.
  destruct (head q) as [|[y|] rq]; try discriminate.
  apply andb_true_iff in H as [Hx Hy].
  apply Ascii.eqb_eq in Hx, Hy. subst. split; eexists; reflexivity.
Qed.

Lemma starts_with_h (r : pattern) g :
  (exists a, head r = Lit "h" :: a) -> head_text (head r) g ->
  exists g', g = "h"%char :: g'.
Proof.
  intros [a Ha] H. rewrite Ha in H. inversion H as [|x c l g' Hx Hl]; subst.
  unfold atom_matches in Hx. apply Ascii.eqb_eq in Hx. subst c. now exists g'.
Qed.

Lemma rewritten_starts g1 rest :
  head_text (head p) g1 -> starts_as (rewritten_classes p) (g1 ++ f ++ rest).
Proof.
  intros H. unfold rewritten_classes. apply starts_as_app.
  - now apply head_text_classes.
  - destruct f as [|c f']; [congruence|]. inversion f_size; subst. simpl. auto.
Qed.

(** The characters of [t], none of them an "h", are kept one by one. *)
Lemma keeps_text t : (forall c, In c t -> c <> "h"%char) ->
  forall s rest1,
    pass p f s (t ++ rest1) ->
    exists rest_s, s = t ++ rest_s /\ pass p f rest_s rest1.
Proof.
  induction t as [|c0 t IH]; intros Ht s rest1 H.
  - now exists s.
  - simpl in H.
    inversion H as [|c s' out Hno Hp Es Eo|g1 g2 rest out H1 H2 H3 Hp Es Eo].
    + subst.
      destruct (IH (fun c Hc => Ht c (or_intror Hc)) _ _ Hp) as (rest_s & -> & Hr).
      now exists rest_s.
    + exfalso. destruct (starts_with_h p _ (proj1 apart_h) H1) as [g ->].
      injection Eo as Eo _. apply (Ht c0); [now left | now symmetry].
Qed.

(** Where [q] matches in the result of a pass for [p], the text
    before the pass has the same first group, a middle field without
    newline and the same text after the match; when the pass changed
    nothing, the middle field is the same too. *)
Lemma foreign_cut s c1 :
  pass p f s c1 ->
  forall j X Y rest1,
    head_text (skipn j (head q)) X ->
    ~ In newline Y -> first_at blue Y rest1 ->
    c1 = X ++ Y ++ blue ++ rest1 ->
    exists Y' rest_s,
      s = X ++ Y' ++ blue ++ rest_s /\ ~ In newline Y'
      /\ pass p f rest_s rest1
      /\ (s = c1 -> Y' = Y).
Proof.
  induction 1 as [|c s c1 Hno H IH|g1 g2 rest c1 H1 H2 H3 H IH];
    intros j X Y rest1 HX HY Hfirst E.
  - exfalso. destruct X; [|discriminate]. destruct Y; discriminate.
  - destruct X as [|x X].
    + destruct Y as [|y Y].
      * cbn [app] in E. change blue with ("-"%char :: txt "blue") in E.
        injection E as -> ->.
        destruct (keeps_text (txt "blue")) with (s := s) (rest1 := rest1)
          as (rest_s & -> & Hr); [|exact H|].
        { intros c Hc. simpl in Hc.
          repeat (destruct Hc as [<-|Hc]; [discriminate|]). contradiction. }
        exists [], rest_s. repeat split; auto.
      * cbn [app] in E. injection E as -> ->.
        destruct (IH j [] Y rest1) as (Y' & rest_s & -> & HY' & Hr & Heq); auto.
        { intros Hin. apply HY. now right. }
        { intros k Hk. apply (Hfirst (S k)). simpl. lia. }
        exists (y :: Y'), rest_s. repeat split; auto.
        -- intros [Hc|Hc]; [|auto]. apply HY. now left.
        -- intros Es. cbn [app] in Es. injection Es as Es. f_equal. now apply Heq.
    + cbn [app] in E. injection E as -> ->.
      destruct (skipn j (head q)) as [|a wa] eqn:Ej; [inversion HX|].
      inversion HX; subst.
      destruct (IH (S j) X Y rest1) as (Y' & rest_s & -> & HY' & Hr & Heq); auto.
      { replace (skipn (S j) (head q)) with wa; [assumption|].
        change (S j) with (1 + j)%nat. rewrite <- skipn_skipn, Ej. reflexivity. }
      exists Y', rest_s. repeat split; auto.
      intros Es. cbn [app] in Es. injection Es as Es. now apply Heq.
  - rewrite p_tail in *.
    pose proof (rewritten_starts g1 (blue ++ c1) H1) as Hcls.
    destruct X as [|x X].
    + cbn [app] in E.
      assert (Hf : first_at blue (g1 ++ f) c1).
      { intros k Hk. rewrite <- app_assoc.
        destruct (Nat.lt_ge_cases k (List.length g1)) as [Hlt|Hge].
        - destruct (PyStr.startswith blue _) eqn:Es; [exfalso | reflexivity].
          apply startswith_spec in Es as [r Er].
          pose proof (starts_as_skipn k _ _ Hcls) as Hk'.
          rewrite Er in Hk'.
          pose proof (may_match_sound (map Lit blue) _ _ blue r Hk') as Hm.
          rewrite match_atoms_complete in Hm.
          + specialize (Hm eq_refl).
            rewrite (head_text_length _ _ H1) in Hlt.
            rewrite (apart_blue k Hlt) in Hm. discriminate.
          + unfold blue. repeat constructor.
        - replace k with ((k - List.length g1) + List.length g1)%nat by lia.
          rewrite <- skipn_skipn, skipn_length_app.
          apply (size_first_at f c1 f_size).
          rewrite length_app in Hk. lia. }
      rewrite (app_assoc g1 f) in E.
      destruct (first_at_unique _ _ _ _ _ Hf Hfirst E) as [<- <-].
      exists (g1 ++ g2), rest. repeat split.
      * now rewrite <- app_assoc.
      * rewrite in_app_iff. intros [Hin|Hin]; [|auto].
        revert Hin. now apply p_line.
      * exact H.
      * intros Es. apply app_inv_head in Es.
        destruct (first_at_unique blue g2 f rest c1 H3) as [-> _]; auto.
        apply (size_first_at f c1 f_size).
    + exfalso.
      assert (Hj : (j < List.length (head q))%nat).
      { destruct (Nat.lt_ge_cases j (List.length (head q))) as [|Hge]; [assumption|].
        rewrite skipn_all2 in HX by assumption. inversion HX. }
      pose proof (may_match_sound (skipn j (head q)) _ _ (x :: X)
                    (Y ++ blue ++ rest1) Hcls) as Hm.
      rewrite E, match_atoms_complete in Hm by assumption.
      specialize (Hm eq_refl). rewrite (apart_off j Hj) in Hm. discriminate.
Qed.

(** Inside a rewritten marker of [p], [q] matches nowhere. *)
Lemma foreign_skips g1 rest1 :
  head_text (head p) g1 ->
  forall v u, g1 ++ f ++ blue = v ++ u -> u <> [] ->
              match_here q (u ++ rest1) = None.
Proof.
  intros H1 v u E Hu.
  destruct (match_here q (u ++ rest1)) as [[m r]|] eqn:Hm; [exfalso | reflexivity].
  apply match_here_sound in Hm as (Es & Hg & _).
  destruct (Nat.lt_ge_cases (List.length v) (List.length g1)) as [Hlt|Hge].
  - pose proof (rewritten_starts g1 (blue ++ rest1) H1) as Hcls.
    apply (starts_as_skipn (List.length v)) in Hcls.
    replace (g1 ++ f ++ blue ++ rest1) with (v ++ u ++ rest1) in Hcls
      by (rewrite !app_assoc, <- (app_assoc g1), E; reflexivity).
    rewrite skipn_length_app, Es in Hcls.
    pose proof (may_match_sound (head q) _ _ (group1 m)
                  (group2 m ++ group3 m ++ r) Hcls) as Hmm.
    rewrite match_atoms_complete in Hmm by assumption. specialize (Hmm eq_refl).
    rewrite (head_text_length _ _ H1) in Hlt.
    rewrite (apart_inside _ Hlt) in Hmm. discriminate.
  - destruct (starts_with_h q _ (proj2 apart_h) Hg) as [g' Eg].
    rewrite Eg in Es. cbn [app] in Es.
    assert (Hin : In "h"%char (f ++ blue)).
    { apply app_eq_app in E as [l [[E1 E2]|[E1 E2]]].
      - apply (f_equal (@List.length ascii)) in E1. rewrite length_app in E1.
        assert (l = []) as -> by (destruct l; [reflexivity | simpl in E1; lia]).
        simpl in E2. subst u. rewrite <- !app_assoc in Es.
        destruct f as [|c f']; [congruence|].
        cbn [app] in Es. injection Es as -> _. now left.
      - destruct u as [|c u]; [congruence|]. cbn [app] in Es. injection Es as -> _.
        rewrite E2. apply in_app_iff. right. now left. }
    apply in_app_iff in Hin as [Hin|Hin].
    + revert Hin. now apply size_text_no_char.
    + simpl in Hin. repeat (destruct Hin as [Hin|Hin]; [discriminate|]). contradiction.
Qed.

End Foreign.

Section Fixed.

Variables p q : pattern.
Variables f g : str.
Hypothesis p_tail : tail p = blue.
Hypothesis q_tail : tail q = blue.
Hypothesis p_line : forall t, head_text (head p) t -> ~ In newline t.
Hypothesis q_line : forall t, head_text (head q) t -> ~ In newline t.
Hypothesis p_q_apart : apart p q = true.
Hypothesis q_p_apart : apart q p = true.
Hypothesis f_size : size_text f.
Hypothesis f_nonempty : f <> [].
Hypothesis g_size : size_text g.
Hypothesis g_nonempty : g <> [].

Lemma blue_tail (r : pattern) : tail r = blue -> tail r <> [].
Proof. intros ->. discriminate. Qed.

(** What a pass leaves as it is: nothing, a character at which no
    marker starts, or a marker that holds the size already. *)
Lemma pass_fixed_cases c :
  pass p f c c ->
  c = []
  \/ (exists x r, c = x :: r /\ ~ marker_at p c /\ pass p f r r)
  \/ (exists g1 rest, c = g1 ++ f ++ blue ++ rest
                      /\ head_text (head p) g1 /\ pass p f rest rest).
Proof.
  intros H. remember c as o eqn:E in H at 2.
  destruct H as [|x s out Hno Hp|g1 g2 rest out H1 H2 H3 Hp].
  - now left.
  - right; left. exists x, s. injection E as <-. auto.
  - right; right. rewrite p_tail in *.
    apply app_inv_head in E.
    destruct (first_at_unique blue f g2 out rest) as [<- <-]; auto.
    { apply (size_first_at f out f_size). }
    exists g1, out. auto.
Qed.

Lemma pass_keeps_all z z' : pass p f z z' ->
  forall t,
    (forall v u, t = v ++ u -> u <> [] -> match_here p (u ++ z) = None) ->
    pass p f (t ++ z) (t ++ z').
Proof.
  intros Hz. induction t as [|c t IH]; intros H; [exact Hz|].
  cbn [app]. apply pass_keep.
  - intros Hm. apply match_here_iff in Hm. apply Hm.
    apply (H [] (c :: t)); [reflexivity | discriminate].
  - apply IH. intros v u -> Hu. apply (H (c :: v) u); auto.
Qed.

(** A text that the pass for [p] leaves as it is, is still one after
    the pass for [q]. *)
Lemma fixed_after_foreign_pass : forall n c,
  (List.length c <= n)%nat -> pass p f c c ->
  pass p f (sub q (rewrite_with g) c) (sub q (rewrite_with g) c).
Proof.
  pose proof (blue_tail p p_tail) as Hpt. pose proof (blue_tail q q_tail) as Hqt.
  induction n as [n IH] using lt_wf_ind. intros c Hn Hfix.
  assert (Hsome : forall m rest1,
             match_here q c = Some (m, rest1) ->
             pass p f (rewrite_with g m ++ sub q (rewrite_with g) rest1)
                      (rewrite_with g m ++ sub q (rewrite_with g) rest1)).
  { intros m rest1 Hm.
    pose proof (match_here_shorter _ _ _ _ Hqt Hm) as Hlt.
    apply match_here_sound in Hm as (Ec & H1 & H2 & H3 & H4).
    rewrite q_tail in *. rewrite H4 in Ec.
    destruct (foreign_cut p q f p_tail p_line p_q_apart f_size f_nonempty c c Hfix
                0%nat (group1 m) (group2 m) rest1) as (Y' & rest_s & Es & _ & Hr & Heq);
      auto.
    specialize (Heq eq_refl). subst Y'.
    rewrite Ec in Es at 1. do 3 apply app_inv_head in Es. subst rest_s.
    unfold rewrite_with. rewrite H4.
    apply pass_keeps_all.
    - apply (IH (List.length rest1)) ; [lia | lia | exact Hr].
    - intros v u E Hu.
      apply (foreign_skips q p g q_line q_p_apart g_size g_nonempty _ _ H1 v u E Hu). }
  destruct (pass_fixed_cases c Hfix) as [->|[(x & r & -> & Hno & Hr)|(g1 & rest & -> & H1 & Hr)]].
  - rewrite sub_eq by assumption.
    destruct (match_here q []) as [[m rest1]|] eqn:Hm; [now apply Hsome | constructor].
  - rewrite sub_eq by assumption.
    destruct (match_here q (x :: r)) as [[m rest1]|] eqn:Hm; [now apply Hsome|].
    apply pass_keep.
    + intros Hmk. apply Hno.
      apply match_here_iff in Hmk.
      destruct (match_here p (x :: sub q (rewrite_with g) r)) as [[m rest1]|] eqn:Hp;
        [clear Hmk | congruence].
      apply match_here_sound in Hp as (Es & G1 & G2 & G3 & G4).
      rewrite p_tail in *. rewrite G4 in Es.
      assert (Hq : pass q g (x :: r) (x :: sub q (rewrite_with g) r)).
      { pose proof (sub_pass q g Hqt (x :: r)) as Hs.
        rewrite sub_eq, Hm in Hs by assumption. exact Hs. }
      destruct (foreign_cut q p g q_tail q_line q_p_apart g_size g_nonempty _ _ Hq
                  0%nat (group1 m) (group2 m) rest1)
        as (Y' & rest_s & E & HY' & _); auto.
      exists (group1 m), Y', rest_s. rewrite p_tail. auto.
    + apply (IH (List.length r)); [simpl in Hn; lia | lia | exact Hr].
  - rewrite !app_assoc. rewrite sub_keeps; [rewrite <- !app_assoc | assumption | ].
    + rewrite <- p_tail.
      apply (pass_rewrite p f g1 f (sub q (rewrite_with g) rest)); rewrite ?p_tail; auto.
      * now apply size_text_no_char.
      * apply (size_first_at f _ f_size).
      * apply (IH (List.length rest)); [|lia|exact Hr].
        rewrite !length_app in Hn. unfold blue in Hn. simpl in Hn. lia.
    + intros v u E Hu. rewrite <- !app_assoc in E.
      apply (foreign_skips p q f p_line p_q_apart f_size f_nonempty _ _ H1 v u E Hu).
Qed.

End Fixed.

End ForeignFacts.

(** ** The two passes again, and the file *)

Module RunFacts.

Import Spec Re ReFacts BadgeFacts FormatFacts Idempotence Main MainFacts TwoPasses
  ForeignFacts.

Lemma binary_wasm_apart : apart binary wasm = true.
Proof. vm_compute. reflexivity. Qed.

Lemma wasm_binary_apart : apart wasm binary = true.
Proof. vm_compute. reflexivity. Qed.

Lemma binary_one_line t : head_text (head binary) t -> ~ In newline t.
Proof. apply badge_head_no_newline. vm_compute. intuition discriminate. Qed.

Lemma wasm_one_line t : head_text (head wasm) t -> ~ In newline t.
Proof. apply badge_head_no_newline. vm_compute. intuition discriminate. Qed.

Lemma sub_fixed p f s :
  tail p <> [] -> pass p f s s -> sub p (rewrite_with f) s = s.
Proof.
  intros Ht H. symmetry. apply (pass_unique p f Ht s); [exact H|].
  now apply sub_pass.
Qed.

Lemma size_pass_fixed name f s out :
  size_text f ->
  pass (badge_pattern name) f s out -> pass (badge_pattern name) f out out.
Proof.
  intros Hf. apply pass_fixed.
  - discriminate.
  - vm_compute. intuition discriminate.
  - cbn [badge_pattern head tail]. rewrite length_map, !length_app. simpl. lia.
  - now apply size_text_no_char.
  - intros rest. now apply size_first_at.
Qed.

Lemma substitute_ok content arg1 arg2 out :
  substitute content arg1 arg2 = Ok out ->
  exists f1 f2,
    format_size (PyInt.OfStr arg1) = Ok f1
    /\ format_size (PyInt.OfStr arg2) = Ok f2
    /\ out = sub wasm (rewrite_with f2) (sub binary (rewrite_with f1) content).
Proof.
  intros H.
  destruct (format_size (PyInt.OfStr arg1)) as [f1|e] eqn:H1.
  - destruct (format_size (PyInt.OfStr arg2)) as [f2|e] eqn:H2.
    + rewrite (substitute_formatted _ _ _ _ _ H1 H2) in H. injection H as <-.
      now exists f1, f2.
    + rewrite (substitute_raises content arg1 arg2 e) in H; [discriminate|].
      right. split; [now exists f1 | assumption].
  - rewrite (substitute_raises content arg1 arg2 e) in H; [discriminate|].
    now left.
Qed.

Lemma read_text_no_cr : forall n s, (List.length s <= n)%nat -> ~ In cr (read_text s).
Proof.
  induction n as [|n IH]; intros s Hn.
  - destruct s; [simpl; tauto | simpl in Hn; lia].
  - destruct s as [|c s]; [simpl; tauto|]. simpl in Hn.
    cbn [read_text]. destruct (Ascii.eqb c cr) eqn:Ec.
    + destruct s as [|c' s]; [simpl; intros [H|[]]; discriminate|].
      destruct (Ascii.eqb c' newline).
      * intros [H|H]; [discriminate|]. revert H. apply IH. simpl in Hn. lia.
      * intros [H|H]; [discriminate|]. revert H. apply IH. lia.
    + intros [H|H].
      * subst c. now rewrite Ascii.eqb_refl in Ec.
      * revert H. apply IH. lia.
Qed.

Lemma pass_chars p f s out :
  pass p f s out -> forall c, In c out -> In c s \/ In c f.
Proof.
  induction 1 as [|x s out Hno H IH|g1 g2 rest out H1 H2 H3 H IH]; intros c Hc.
  - now left.
  - destruct Hc as [->|Hc]; [left; now left|].
    destruct (IH c Hc); [left; now right | now right].
  - rewrite !in_app_iff in *.
    destruct Hc as [Hc|[Hc|[Hc|Hc]]]; auto.
    destruct (IH c Hc); auto.
Qed.

Lemma substitute_no_cr content arg1 arg2 out :
  substitute content arg1 arg2 = Ok out -> ~ In cr content -> ~ In cr out.
Proof.
  intros H Hc. destruct (substitute_ok _ _ _ _ H) as (f1 & f2 & H1 & H2 & ->).
  intros Hin.
  assert (Hf : forall x f, format_size x = Ok f -> ~ In cr f).
  { intros x f Hx. apply size_text_no_char; [reflexivity|].
    now apply (format_size_text x). }
  apply (pass_chars wasm f2 _ _ (sub_pass wasm f2 ltac:(discriminate) _)) in Hin
    as [Hin|Hin]; [|now apply (Hf _ _ H2)].
  apply (pass_chars binary f1 _ _ (sub_pass binary f1 ltac:(discriminate) _)) in Hin
    as [Hin|Hin]; [auto | now apply (Hf _ _ H1)].
Qed.

Lemma read_write_text ls s :
  ls = [newline] \/ ls = [cr; newline] ->
  ~ In cr s -> read_text (write_text ls s) = s.
Proof.
  intros Hls. induction s as [|c s IH]; intros Hc; [reflexivity|].
  assert (Hs : ~ In cr s) by (intros H; apply Hc; now right).
  assert (Hn : Ascii.eqb c cr = false).
  { apply Ascii.eqb_neq. intros ->. apply Hc. now left. }
  cbn [write_text]. destruct (Ascii.eqb c newline) eqn:E.
  - apply Ascii.eqb_eq in E. subst c.
    destruct Hls as [->| ->]; cbn [app read_text].
    + rewrite Hn, IH; auto.
    + rewrite Ascii.eqb_refl. cbn. rewrite IH; auto.
  - cbn [read_text]. rewrite Hn, IH; auto.
Qed.

Lemma main_success w :
  final (main w) = Exit 0 ->
  exists prog arg1 arg2 stored content,
    argv w = [prog; arg1; arg2] /\ readme w = Some stored
    /\ substitute (read_text stored) arg1 arg2 = Ok content
    /\ main w = mkoutcome [] (Exit 0) (Some (write_text (linesep w) content)).
Proof.
  intros H.
  destruct (Nat.eq_dec (List.length (argv w)) 3) as [Hl|Hl].
  - destruct (argv w) as [|prog [|arg1 [|arg2 [|]]]] eqn:Ha; try discriminate.
    destruct (readme w) as [stored|] eqn:Hr.
    + rewrite (main_substitutes w prog arg1 arg2 stored Ha Hr) in H |- *.
      destruct (substitute (read_text stored) arg1 arg2) as [content|e] eqn:Hs;
        [|discriminate].
      now exists prog, arg1, arg2, stored, content.
    + unfold main in H. rewrite Ha, Hr in H. discriminate.
  - rewrite (main_usage w Hl) in H. discriminate.
Qed.

(** After the two passes, each of them finds every marker as it
    would write it. *)
Lemma passes_fixed content x1 x2 f1 f2 :
  format_size x1 = Ok f1 -> format_size x2 = Ok f2 ->
  sub binary (rewrite_with f1)
    (sub wasm (rewrite_with f2) (sub binary (rewrite_with f1) content))
  = sub wasm (rewrite_with f2) (sub binary (rewrite_with f1) content)
  /\ sub wasm (rewrite_with f2)
       (sub wasm (rewrite_with f2) (sub binary (rewrite_with f1) content))
     = sub wasm (rewrite_with f2) (sub binary (rewrite_with f1) content).
Proof.
  intros H1 H2.
  assert (Hb : tail binary <> []) by discriminate.
  assert (Hw : tail wasm <> []) by discriminate.
  set (c1 := sub binary (rewrite_with f1) content). split.
  - apply sub_fixed; [exact Hb|].
    apply (fixed_after_foreign_pass binary wasm f1 f2 eq_refl eq_refl
             binary_one_line wasm_one_line binary_wasm_apart wasm_binary_apart
             (format_size_text _ _ H1) (format_size_nonempty _ _ H1)
             (format_size_text _ _ H2) (format_size_nonempty _ _ H2)
             (List.length c1)); [lia|].
    apply (size_pass_fixed _ f1 content); [now apply (format_size_text _ _ H1)|].
    now apply sub_pass.
  - apply sub_fixed; [exact Hw|].
    apply (size_pass_fixed _ f2 c1); [now apply (format_size_text _ _ H2)|].
    now apply sub_pass.
Qed.

End RunFacts.

(** ** The program, run and run again *)

Section ProgramProperties.

Import Spec Re ReFacts BadgeFacts FormatFacts Idempotence Main MainFacts TwoPasses
  ForeignFacts RunFacts.

(** X11.  A run that does not end with status 0 ends with status 1
    and leaves README.md as it was: stored with the same text, or
    missing still. *)
Theorem main_fails_without_writing (w : world) :
  final (main w) <> Exit 0 ->
  exit_status (final (main w)) = 1
  /\ readme_after (main w) = readme w.
Proof.
  unfold main.
  destruct (negb (List.length (argv w) =? 3)%nat); [now split|].
  destruct (readme w) as [stored|]; [|now split].
  destruct (substitute _ _ _); [|now split].
  cbn. congruence.
Qed.

Lemma main_fails_without_writing_witness :
  exit_status
    (final (main (mkworld [txt "update_readme.py"; txt "12 KB"; txt "2000"]
                    (Some (txt "https://img.shields.io/badge/wasm_size-1-blue"))
                    [newline])))
  = 1
  /\ readme_after
       (main (mkworld [txt "update_readme.py"; txt "12 KB"; txt "2000"]
                (Some (txt "https://img.shields.io/badge/wasm_size-1-blue"))
                [newline]))
     = Some (txt "https://img.shields.io/badge/wasm_size-1-blue").
Proof.
  apply (main_fails_without_writing
           (mkworld [txt "update_readme.py"; txt "12 KB"; txt "2000"]
              (Some (txt "https://img.shields.io/badge/wasm_size-1-blue"))
              [newline])).
  vm_compute. discriminate.
Defined.

(** X12.  Where the line separator is the newline or a carriage
    return and a newline, the text that a later read of README.md
    gives is the text the run has made with its two calls of
    [update_badge], and it has no carriage return. *)
Theorem main_output_reads_back (w : world) (written : str) :
  linesep w = [newline] \/ linesep w = [cr; newline] ->
  final (main w) = Exit 0 ->
  readme_after (main w) = Some written ->
  exists prog arg1 arg2 stored,
    argv w = [prog; arg1; arg2]
    /\ readme w = Some stored
    /\ substitute (read_text stored) arg1 arg2 = Ok (read_text written)
    /\ ~ In cr (read_text written).
Proof.
  intros Hls Hfin Hw.
  destruct (main_success w Hfin) as (prog & arg1 & arg2 & stored & content
                                     & Ha & Hr & Hs & Hm).
  rewrite Hm in Hw. cbn [readme_after] in Hw. injection Hw as <-.
  assert (Hc : ~ In cr content).
  { apply (substitute_no_cr _ _ _ _ Hs). apply (read_text_no_cr (List.length stored)). lia. }
  exists prog, arg1, arg2, stored.
  rewrite (read_write_text _ _ Hls Hc). auto.
Qed.

Lemma main_output_reads_back_witness :
  exists prog arg1 arg2 stored,
    argv (mkworld [txt "update_readme.py"; txt "1536"; txt "2000000"]
            (Some (txt "sizes" ++ [cr; newline]
                     ++ txt "https://img.shields.io/badge/wasm_size-1-blue" ++ [cr]))
            [cr; newline])
    = [prog; arg1; arg2]
    /\ readme (mkworld [txt "update_readme.py"; txt "1536"; txt "2000000"]
                 (Some (txt "sizes" ++ [cr; newline]
                          ++ txt "https://img.shields.io/badge/wasm_size-1-blue" ++ [cr]))
                 [cr; newline])
       = Some stored
    /\ substitute (read_text stored) arg1 arg2
       = Ok (read_text
               (txt "sizes" ++ [cr; newline]
                  ++ txt "https://img.shields.io/badge/wasm_size-2 MB-blue"
                  ++ [cr; newline]))
    /\ ~ In cr (read_text
                  (txt "sizes" ++ [cr; newline]
                     ++ txt "https://img.shields.io/badge/wasm_size-2 MB-blue"
                     ++ [cr; newline])).
Proof.
  apply (main_output_reads_back
           (mkworld [txt "update_readme.py"; txt "1536"; txt "2000000"]
              (Some (txt "sizes" ++ [cr; newline]
                       ++ txt "https://img.shields.io/badge/wasm_size-1-blue" ++ [cr]))
              [cr; newline])).
  - right. reflexivity.
  - reflexivity.
  - reflexivity.
Defined.

(** X13.  The two calls of the program, made again with the same
    arguments on the text they have made, change nothing: neither
    call alone, nor the two in a row. *)
Theorem substitute_idempotent (content arg1 arg2 out : str) :
  substitute content arg1 arg2 = Ok out ->
  update_badge out (txt "binary_size") (PyInt.OfStr arg1) = Ok out
  /\ update_badge out (txt "wasm_size") (PyInt.OfStr arg2) = Ok out
  /\ substitute out arg1 arg2 = Ok out.
Proof.
  intros H. destruct (substitute_ok _ _ _ _ H) as (f1 & f2 & H1 & H2 & ->).
  destruct (passes_fixed content _ _ _ _ H1 H2) as [Eb Ew].
  rewrite (substitute_formatted _ _ _ _ _ H1 H2).
  rewrite (update_badge_formatted _ (txt "binary_size") _ _ eq_refl H1),
    (update_badge_formatted _ (txt "wasm_size") _ _ eq_refl H2).
  fold binary. fold wasm. rewrite Eb, Ew. auto.
Qed.

Lemma substitute_idempotent_witness :
  update_badge
    (txt "(https://img.shields.io/badge/binary_size-1.54 KB-blue) (https://img.shields.io/badge/wasm_size-2 MB-blue)")
    (txt "binary_size") (PyInt.OfStr (txt "1536"))
  = Ok (txt "(https://img.shields.io/badge/binary_size-1.54 KB-blue) (https://img.shields.io/badge/wasm_size-2 MB-blue)")
  /\ update_badge
       (txt "(https://img.shields.io/badge/binary_size-1.54 KB-blue) (https://img.shields.io/badge/wasm_size-2 MB-blue)")
       (txt "wasm_size") (PyInt.OfStr (txt "2000000"))
     = Ok (txt "(https://img.shields.io/badge/binary_size-1.54 KB-blue) (https://img.shields.io/badge/wasm_size-2 MB-blue)")
  /\ substitute
       (txt "(https://img.shields.io/badge/binary_size-1.54 KB-blue) (https://img.shields.io/badge/wasm_size-2 MB-blue)")
       (txt "1536") (txt "2000000")
     = Ok (txt "(https://img.shields.io/badge/binary_size-1.54 KB-blue) (https://img.shields.io/badge/wasm_size-2 MB-blue)").
Proof.
  apply (substitute_idempotent
           (txt "(https://img.shields.io/badge/binary_size--blue) (https://img.shields.io/badge/wasm_size-0-blue)")).
  reflexivity.
Defined.

(** X14.  Where the line separator is the newline or a carriage
    return and a newline, a second run with the same arguments, on the
    README.md that a run ending with status 0 has written, ends with
    status 0 and writes the same README.md. *)
Theorem main_twice (w : world) (written : str) :
  linesep w = [newline] \/ linesep w = [cr; newline] ->
  final (main w) = Exit 0 ->
  readme_after (main w) = Some written ->
  main (mkworld (argv w) (Some written) (linesep w))
  = mkoutcome [] (Exit 0) (Some written).
Proof.
  intros Hls Hfin Hw.
  destruct (main_success w Hfin) as (prog & arg1 & arg2 & stored & content
                                     & Ha & Hr & Hs & Hm).
  rewrite Hm in Hw. cbn [readme_after] in Hw. injection Hw as <-.
  assert (Hc : ~ In cr content).
  { apply (substitute_no_cr _ _ _ _ Hs). apply (read_text_no_cr (List.length stored)). lia. }
  rewrite (main_substitutes
             (mkworld (argv w) (Some (write_text (linesep w) content)) (linesep w))
             prog arg1 arg2 (write_text (linesep w) content) Ha eq_refl).
  cbn [linesep]. rewrite (read_write_text _ _ Hls Hc).
  destruct (substitute_ok _ _ _ _ Hs) as (f1 & f2 & H1 & H2 & ->).
  destruct (passes_fixed (read_text stored) _ _ _ _ H1 H2) as [Eb Ew].
  rewrite (substitute_formatted _ _ _ _ _ H1 H2).
  fold binary. fold wasm. rewrite Eb, Ew. reflexivity.
Qed.

Lemma main_twice_witness :
  main (mkworld [txt "update_readme.py"; txt "1536"; txt "2000000"]
          (Some (txt "sizes" ++ [cr; newline]
                   ++ txt "https://img.shields.io/badge/wasm_size-2 MB-blue"
                   ++ [cr; newline]))
          [cr; newline])
  = mkoutcome [] (Exit 0)
      (Some (txt "sizes" ++ [cr; newline]
               ++ txt "https://img.shields.io/badge/wasm_size-2 MB-blue"
               ++ [cr; newline])).
Proof.
  apply (main_twice
           (mkworld [txt "update_readme.py"; txt "1536"; txt "2000000"]
              (Some (txt "sizes" ++ [cr; newline]
                       ++ txt "https://img.shields.io/badge/wasm_size-1-blue" ++ [cr]))
              [cr; newline])).
  - right. reflexivity.
  - reflexivity.
  - reflexivity.
Defined.

End ProgramProperties.
